(** * ZettlrConfig: the configuration store of Zettlr

    A shallow embedding of [source/main/zettlr-config.js] (class
    [ZettlrConfig]) and the properties of its specification.

    Conventions of the embedding.
    - Configuration values are JSON data ([value]): what [JSON.parse]
      yields and what the template holds.  An object is the list of its
      entries in the order the engine enumerates them; the root of the
      configuration is an object.  Numbers are integers, strings are
      byte strings.  The configuration is a tree: no object is held
      twice.
    - The class body is strict-mode code: calling [hasOwnProperty] on
      [null], or on an object that hides the method behind an entry of
      that name, and assigning a property of a primitive raise
      [TypeError]; such abrupt completions are explicit ([completion],
      [outcome]).
    - A method that mutates [this] takes the store and returns the store
      it leaves behind, also when it throws.
    - Of the file system, what [fs.lstatSync] and [JSON.parse] find is
      part of the store ([Disk]) or a parameter ([lstat_ok]); the
      writes [fs.mkdirSync] and [fs.writeFileSync] are taken to go
      through, so that a statement about a call that completes covers
      the runs in which they did.
    - [this.emit('update')] increments the counter [emitted].
    - Helpers of other files ([isDir], [ignoreFile], [isDictAvailable],
      the validation rules), the tables of [common/data.json] and the
      functions of the platform ([path.dirname], [uuid]) are
      parameters.
    - Where a reference must be told from a copy ([global.config.get]),
      the tree is laid out in a heap of cells; [get_on_heap] relates the
      two readings. *)

From Stdlib Require Import String Ascii List ZArith Bool Arith Lia.
From Stdlib Require Import Permutation Sorted DecimalString OrdersEx RelationClasses.
Import ListNotations.
Local Open Scope string_scope.
Local Open Scope list_scope.

(* ================================================================== *)
(** ** Strings as the source uses them *)

(** [s.indexOf(c)] for a one-character needle; [None] is [-1]. *)
Fixpoint indexOf (c : ascii) (s : string) : option nat :=
  match s with
  | EmptyString => None
  | String a s' =>
      if Ascii.eqb a c then Some 0
      else match indexOf c s' with
           | Some i => Some (S i)
           | None => None
           end
  end.

(** [s.indexOf(c) > 0] *)
Definition indexOf_pos (c : ascii) (s : string) : bool :=
  match indexOf c s with
  | Some (S _) => true
  | _ => false
  end.

(** [s.indexOf(c) > -1] *)
Definition indexOf_found (c : ascii) (s : string) : bool :=
  match indexOf c s with
  | Some _ => true
  | None => false
  end.

(** First field of [s] and the fields after it, for the separator [sep]. *)
Fixpoint cut (sep : ascii) (s : string) : string * list string :=
  match s with
  | EmptyString => ("", [])
  | String a s' =>
      let (h, t) := cut sep s' in
      if Ascii.eqb a sep then ("", h :: t) else (String a h, t)
  end.

(** [s.split(sep)]: never empty, [''.split(sep)] is [['']]. *)
Definition split (sep : ascii) (s : string) : list string :=
  let (h, t) := cut sep s in h :: t.

(** [l.join(sep)] *)
Definition join (sep : ascii) (l : list string) : string :=
  String.concat (String sep "") l.

(** [nested.pop()] on the non-empty list [h :: t]: what is left, and the
    element popped. *)
Fixpoint pop (h : string) (t : list string) : list string * string :=
  match t with
  | [] => ([], h)
  | h' :: t' => let (init, l) := pop h' t' in (h :: init, l)
  end.

(** [s.indexOf(d) === -1] is [negb (contains s d)], for a string [d]. *)
Fixpoint contains (s d : string) : bool :=
  String.prefix d s
  || match s with
     | EmptyString => false
     | String _ s' => contains s' d
     end.

(** The canonical decimal numeral of an array index. *)
Definition decimal (n : nat) : string :=
  NilEmpty.string_of_uint (Nat.to_uint n).

(* ================================================================== *)
(** ** Configuration values *)

Unset Elimination Schemes.
Inductive value : Type :=
| VNull
| VBool (b : bool)
| VNum (n : Z)
| VStr (s : string)
| VArr (elems : list value)
| VObj (entries : list (string * value)).
Set Elimination Schemes.

Definition object := list (string * value).

Section ValueInduction.
Variable P : value -> Prop.
Hypothesis Hnull : P VNull.
Hypothesis Hbool : forall b, P (VBool b).
Hypothesis Hnum : forall n, P (VNum n).
Hypothesis Hstr : forall s, P (VStr s).
Hypothesis Harr : forall l, Forall P l -> P (VArr l).
Hypothesis Hobj : forall es, Forall (fun e => P (snd e)) es -> P (VObj es).

Fixpoint value_ind (v : value) : P v :=
    match v with
    | VNull => Hnull
    | VBool b => Hbool b
    | VNum n => Hnum n
    | VStr s => Hstr s
    | VArr l =>
        Harr l ((fix all (l : list value) : Forall P l :=
                   match l with
                   | [] => Forall_nil P
                   | x :: r => Forall_cons x (value_ind x) (all r)
                   end) l)
    | VObj es =>
        Hobj es ((fix all (es : object) : Forall (fun e => P (snd e)) es :=
                    match es with
                    | [] => Forall_nil _
                    | e :: r => Forall_cons e (value_ind (snd e)) (all r)
                    end) es)
    end.
End ValueInduction.

Inductive error : Type := TypeError | RangeError.

(** Result of an expression that may throw. *)
Inductive completion (A : Type) : Type :=
| Normal (a : A)
| Abrupt (e : error).
Arguments Normal {A} a.
Arguments Abrupt {A} e.

(** Entry of an object for a key: the first one, keys being unique. *)
Fixpoint lookup (k : string) (es : object) : option value :=
  match es with
  | [] => None
  | (k', v) :: r => if String.eqb k' k then Some v else lookup k r
  end.

(** [obj[k] = v] on an object: the entry is replaced where it stands, a
    new key is added last. *)
Fixpoint store (k : string) (v : value) (es : object) : object :=
  match es with
  | [] => [(k, v)]
  | (k', v') :: r =>
      if String.eqb k' k then (k', v) :: r else (k', v') :: store k v r
  end.

(** The index named by a property key of an array or string of length
    [len]: [k] is the canonical numeral of some [i < len]. *)
Definition index_of_key (k : string) (len : nat) : option nat :=
  find (fun i => String.eqb (decimal i) k) (seq 0 len).

Fixpoint replace_nth {A : Type} (i : nat) (x : A) (l : list A) : list A :=
  match l, i with
  | [], _ => []
  | _ :: r, O => x :: r
  | y :: r, S j => y :: replace_nth j x r
  end.

(** The own properties of a value and what they hold: the entries of an
    object; the indices and [length] of an array and of a string;
    nothing for [null], booleans and numbers. *)
Definition own_property (v : value) (k : string) : option value :=
  match v with
  | VObj es => lookup k es
  | VArr l =>
      if String.eqb k "length" then Some (VNum (Z.of_nat (List.length l)))
      else match index_of_key k (List.length l) with
           | Some i => nth_error l i
           | None => None
           end
  | VStr s =>
      if String.eqb k "length" then Some (VNum (Z.of_nat (String.length s)))
      else match index_of_key k (String.length s) with
           | Some i => Some (VStr (String.substring i 1 s))
           | None => None
           end
  | _ => None
  end.

(** Whether [v.hasOwnProperty] is the method of the prototype: [null]
    has no properties, and an object with an entry [hasOwnProperty] of
    its own hides the method behind a value that cannot be called. *)
Definition has_method (v : value) : bool :=
  match v with
  | VNull => false
  | VObj es =>
      match lookup "hasOwnProperty" es with
      | Some _ => false
      | None => true
      end
  | _ => true
  end.

(** [v.hasOwnProperty(k)]: a [TypeError] where the method is not to be
    had. *)
Definition hasOwnProperty (v : value) (k : string) : completion bool :=
  if has_method v then
    Normal (match own_property v k with Some _ => true | None => false end)
  else Abrupt TypeError.

(** [v[k]], read in the source only under a successful
    [hasOwnProperty]; a property that is not there reads as [null]
    (the embedding has no [undefined]). *)
Definition read (v : value) (k : string) : value :=
  match own_property v k with
  | Some x => x
  | None => VNull
  end.

(** [typeof v === 'object' && !Array.isArray(v) && v !== null] *)
Definition is_plain_object (v : value) : bool :=
  match v with
  | VObj _ => true
  | _ => false
  end.

(** [!v] *)
Definition falsy (v : value) : bool :=
  match v with
  | VNull => true
  | VBool b => negb b
  | VNum n => Z.eqb n 0
  | VStr s => String.eqb s ""
  | _ => false
  end.

(* ================================================================== *)
(** ** The store and its environment *)

(** A validation rule ([ZettlrValidation]): the key it is registered
    for ([getKey()]) and its predicate ([validate(value)]). *)
Record rule : Type := { getKey : string; accepts : value -> bool }.

(** What the backing file holds: text that [JSON.parse] rejects, or the
    JSON document it parses to ([JSON.stringify] writes the latter). *)
Inductive document : Type :=
| Malformed (raw : string)
| WellFormed (v : value).

(** The part of the file system the class touches in the user data
    directory: the directory itself, [config.json] and [dict/]. *)
Record Disk : Type := {
  configPath_present : bool;
  configFile : option document;
  dict_present : bool
}.

(** [this] together with [process.env.PATH] and the disk.  [this.config]
    and [this.cfgtpl] are one object from [load()] on
    ([this.config = this.cfgtpl]): [config] is that object. *)
Record Store : Type := {
  config : object;
  _rules : list rule;
  emitted : nat;
  PATH : string;
  disk : Disk
}.

Definition with_config (c : object) (st : Store) : Store :=
  {| config := c; _rules := _rules st; emitted := emitted st;
     PATH := PATH st; disk := disk st |}.

Definition with_PATH (p : string) (st : Store) : Store :=
  {| config := config st; _rules := _rules st; emitted := emitted st;
     PATH := p; disk := disk st |}.

Definition with_disk (d : Disk) (st : Store) : Store :=
  {| config := config st; _rules := _rules st; emitted := emitted st;
     PATH := PATH st; disk := d |}.

(** [this.emit('update')] *)
Definition emit (st : Store) : Store :=
  {| config := config st; _rules := _rules st; emitted := S (emitted st);
     PATH := PATH st; disk := disk st |}.

(** How a method call ends: it returns [a] or throws [e]; either way the
    store is the one the call leaves behind. *)
Inductive outcome (A : Type) : Type :=
| Ret (a : A) (st : Store)
| Throw (e : error) (st : Store).
Arguments Ret {A} a st.
Arguments Throw {A} e st.

Definition final {A : Type} (o : outcome A) : Store :=
  match o with
  | Ret _ st => st
  | Throw _ st => st
  end.

Definition returned {A : Type} (o : outcome A) : option A :=
  match o with
  | Ret a _ => Some a
  | Throw _ _ => None
  end.

(* ================================================================== *)
(** ** Dotted-path access: [get], [set], [bulkSet], [_validate] *)

Section ZettlrConfig.

Set Default Proof Using "Type".

(** What the engine does for [arr[k] = v] when [k] is not an index the
    array already has ([length], an index past the end, any other
    name).  The properties below hold whatever it is. *)
Variable ArrayAssign : list value -> string -> value -> completion (list value).

(** [cfg[k] = v] in strict mode: on an object, on an array, and the
    [TypeError] of an assignment to a property of a primitive. *)
Definition assign (cfg : value) (k : string) (v : value) : completion value :=
  match cfg with
  | VObj es => Normal (VObj (store k v es))
  | VArr l =>
      match index_of_key k (List.length l) with
      | Some i => Normal (VArr (replace_nth i v l))
      | None =>
          match ArrayAssign l k v with
          | Normal l' => Normal (VArr l')
          | Abrupt e => Abrupt e
          end
      end
  | _ => Abrupt TypeError
  end.

(** The loop of [get] and [set] over the path segments:
    [for (let arg of nested) { if (cfg.hasOwnProperty(arg)) cfg = cfg[arg]
    else return ... }].  [Normal None] is the early return. *)
Fixpoint walk (cfg : value) (nested : list string) : completion (option value) :=
  match nested with
  | [] => Normal (Some cfg)
  | arg :: rest =>
      match hasOwnProperty cfg arg with
      | Abrupt e => Abrupt e
      | Normal true => walk (read cfg arg) rest
      | Normal false => Normal None
      end
  end.

(** [getConfig()] *)
Definition getConfig (st : Store) : value := VObj (config st).

(** [get(attr)]; the empty key stands for a missing argument. *)
Definition get (attr : string) (st : Store) : completion value :=
  if String.eqb attr "" then Normal (getConfig st)
  else if indexOf_pos "." attr then
    match walk (VObj (config st)) (split "." attr) with
    | Abrupt e => Abrupt e
    | Normal (Some cfg) => Normal cfg
    | Normal None => Normal VNull
    end
  else
    match hasOwnProperty (VObj (config st)) attr with
    | Abrupt e => Abrupt e
    | Normal true => Normal (read (VObj (config st)) attr)
    | Normal false => Normal VNull
    end.

(** [_validate(key, value)]: the first rule registered for [key]
    decides; a key without rule is valid. *)
Definition _validate (key : string) (val : value) (st : Store) : bool :=
  match find (fun elem => String.eqb (getKey elem) key) (_rules st) with
  | Some r => accepts r val
  | None => true
  end.

(** The effect of [cfg[prop] = value] on the tree, [cfg] being the
    container reached from the root along [nested]: the containers on
    the way are the same objects before and after. *)
Fixpoint assign_in (cfg : value) (nested : list string) (prop : string)
    (val : value) : completion value :=
  match nested with
  | [] => assign cfg prop val
  | arg :: rest =>
      match assign_in (read cfg arg) rest prop val with
      | Normal sub => assign cfg arg sub
      | Abrupt e => Abrupt e
      end
  end.

Definition assign_root (root : object) (nested : list string) (prop : string)
    (val : value) : completion object :=
  match nested with
  | [] => Normal (store prop val root)
  | arg :: rest =>
      match assign_in (read (VObj root) arg) rest prop val with
      | Normal sub => Normal (store arg sub root)
      | Abrupt e => Abrupt e
      end
  end.

Definition has_key (k : string) (o : object) : bool :=
  match lookup k o with
  | Some _ => true
  | None => false
  end.

(** [set(option, value)] *)
Definition set (option : string) (val : value) (st : Store) : outcome bool :=
  match hasOwnProperty (VObj (config st)) option with
  | Abrupt e => Throw e st
  | Normal top =>
      if top && _validate option val st then
        Ret true (emit (with_config (store option val (config st)) st))
      else if indexOf_pos "." option then
        let (h, t) := cut "." option in
        let (nested, prop) := pop h t in
        match walk (VObj (config st)) nested with
        | Abrupt e => Throw e st
        | Normal None => Ret false st
        | Normal (Some cfg) =>
            match hasOwnProperty cfg prop with
            | Abrupt e => Throw e st
            | Normal b =>
                if b && _validate option val st then
                  match assign_root (config st) nested prop val with
                  | Normal c => Ret true (emit (with_config c st))
                  | Abrupt e => Throw e st
                  end
                else Ret false st
            end
        end
      else Ret false st
  end.

(** [bulkSet(cfgObj)] *)
Fixpoint bulkSet_loop (cfgObj : object) (ret : bool) (st : Store) : outcome bool :=
  match cfgObj with
  | [] => Ret ret st
  | (opt, v) :: rest =>
      match set opt v st with
      | Ret ok st' => bulkSet_loop rest (if ok then ret else false) st'
      | Throw e st' => Throw e st'
      end
  end.

Definition bulkSet (cfgObj : object) (st : Store) : outcome bool :=
  bulkSet_loop cfgObj true st.

(* ================================================================== *)
(** ** [update] and [load] *)

(** What a call of [update] leaves: the old tree as mutated, the number
    of [emit('update')] performed, and the error if it threw. *)
Definition merged (A : Type) : Type := (A * nat * option error)%type.

(** [for (var prop in oldcfg) { ... }], the recursive call being [rec]. *)
Definition for_in (rec : value -> value -> merged value) (newcfg : value)
  : object -> merged object :=
  fix loop (oldcfg : object) : merged object :=
    match oldcfg with
    | [] => ([], 0, None)
    | e :: rest =>
        match hasOwnProperty newcfg (fst e) with
        | Abrupt err => (oldcfg, 0, Some err)
        | Normal false =>
            let '(rest', n, r) := loop rest in (e :: rest', n, r)
        | Normal true =>
            if is_plain_object (snd e) then
              let '(sub, n1, r1) := rec (read newcfg (fst e)) (snd e) in
              match r1 with
              | Some err => ((fst e, sub) :: rest, n1, Some err)
              | None =>
                  let '(rest', n2, r2) := loop rest in
                  ((fst e, sub) :: rest', n1 + n2, r2)
              end
            else
              let '(rest', n, r) := loop rest in
              ((fst e, read newcfg (fst e)) :: rest', n, r)
        end
    end.

(** [update(newcfg, oldcfg)]: the loop, then [this.emit('update')].
    The source recurses on objects only; on another [oldcfg] the loop
    has nothing to enumerate. *)
Fixpoint update_rec (newcfg oldcfg : value) {struct oldcfg} : merged value :=
  match oldcfg with
  | VObj es =>
      let '(es', n, r) := for_in update_rec newcfg es in
      match r with
      | None => (VObj es', S n, None)
      | Some err => (VObj es', n, Some err)
      end
  | _ => (oldcfg, 1, None)
  end.

Definition emit_n (n : nat) (st : Store) : Store :=
  {| config := config st; _rules := _rules st; emitted := emitted st + n;
     PATH := PATH st; disk := disk st |}.

(** [update(newcfg)] with [oldcfg = this.config]. *)
Definition update (newcfg : value) (st : Store) : outcome unit :=
  let '(es, n, r) := for_in update_rec newcfg (config st) in
  match r with
  | None => Ret tt (emit (emit_n n (with_config es st)))
  | Some err => Throw err (emit_n n (with_config es st))
  end.

Definition mkdir_configPath (d : Disk) : Disk :=
  {| configPath_present := true; configFile := configFile d;
     dict_present := dict_present d |}.

Definition writeFile (doc : document) (d : Disk) : Disk :=
  {| configPath_present := configPath_present d; configFile := Some doc;
     dict_present := dict_present d |}.

(** [load()], called with the template in place ([this.config =
    this.cfgtpl]).  The one [try] holds both [lstatSync] and
    [JSON.parse]; its [catch] writes the template and returns.  A
    [Disk] is a user data directory that can be made and written:
    [fs.mkdirSync] and [fs.writeFileSync], which the class calls
    outside every [try], go through here, and a run in which one of
    them throws is no run of [load], [save] and [checkPaths] below. *)
Definition load (st : Store) : outcome unit :=
  let st1 :=
    if configPath_present (disk st) then st
    else with_disk (mkdir_configPath (disk st)) st in
  match configFile (disk st1) with
  | Some (WellFormed readConfig) => update readConfig st1
  | _ =>
      Ret tt (with_disk (writeFile (WellFormed (VObj (config st1))) (disk st1)) st1)
  end.

(** [save()] *)
Definition save (st : Store) : outcome unit :=
  Ret tt (with_disk (writeFile (WellFormed (VObj (config st))) (disk st)) st).

(* ================================================================== *)
(** ** The list of open paths *)

(** Helpers of [zettlr-helpers.js] and the file system, as the class
    sees them. *)
Variable isDir : string -> bool.
Variable ignoreFile : string -> bool.
Variable isDictAvailable : value -> bool.

(** Whether [fs.lstatSync(p)] returns rather than throws. *)
Variable lstat_ok : string -> bool.

(** [_sortPaths] on an array that holds something else than strings:
    what [isDir] and the default [sort] make of it is left open. *)
Variable sort_mixed : list value -> list value.

Fixpoint insert_sorted (x : string) (l : list string) : list string :=
  match l with
  | [] => [x]
  | y :: r => if String.leb x y then x :: l else y :: insert_sorted x r
  end.

(** [l.sort()] on strings: ascending in the order of the code units. *)
Fixpoint sort (l : list string) : list string :=
  match l with
  | [] => []
  | x :: r => insert_sorted x (sort r)
  end.

(** The body of [_sortPaths] on a list of strings. *)
Definition sortPaths_list (l : list string) : list string :=
  let f := filter (fun p => negb (isDir p)) l in
  let d := filter isDir l in
  sort f ++ sort d.

Fixpoint strings_of (l : list value) : option (list string) :=
  match l with
  | [] => Some []
  | VStr s :: r =>
      match strings_of r with
      | Some ss => Some (s :: ss)
      | None => None
      end
  | _ :: _ => None
  end.

Definition sortPaths_array (l : list value) : list value :=
  match strings_of l with
  | Some ss => map VStr (sortPaths_list ss)
  | None => sort_mixed l
  end.

(** [v === p] for a string [p] *)
Definition is_string (p : string) (v : value) : bool :=
  match v with
  | VStr s => String.eqb s p
  | _ => false
  end.

(** [l.includes(p)] *)
Definition includes (p : string) (l : list value) : bool :=
  existsb (is_string p) l.

(** [l.splice(l.indexOf(p), 1)], [p] being in [l] *)
Fixpoint remove_first (p : string) (l : list value) : list value :=
  match l with
  | [] => []
  | v :: r => if is_string p v then r else v :: remove_first p r
  end.

(** The same on a list of strings. *)
Fixpoint remove_str (p : string) (l : list string) : list string :=
  match l with
  | [] => []
  | s :: r => if String.eqb s p then r else s :: remove_str p r
  end.

(** The characters of a string, as [for ... of] and [new Set] enumerate
    them. *)
Fixpoint chars (s : string) : list string :=
  match s with
  | EmptyString => []
  | String a r => String a "" :: chars r
  end.

Definition set_openPaths (l : list value) (st : Store) : Store :=
  with_config (store "openPaths" (VArr l) (config st)) st.

(** [_sortPaths()]: [for (let p of this.config['openPaths'])] wants an
    iterable. *)
Definition _sortPaths (st : Store) : outcome unit :=
  match read (VObj (config st)) "openPaths" with
  | VArr l => Ret tt (set_openPaths (sortPaths_array l) st)
  | VStr s => Ret tt (set_openPaths (map VStr (sortPaths_list (chars s))) st)
  | _ => Throw TypeError st
  end.

(** [addPath(p)]; [includes] and [push] want an array, a string has the
    former only. *)
Definition addPath (p : string) (st : Store) : outcome bool :=
  if negb (ignoreFile p) || isDir p then
    match read (VObj (config st)) "openPaths" with
    | VArr l =>
        if negb (includes p l) then
          match _sortPaths (set_openPaths (l ++ [VStr p]) st) with
          | Ret _ st' => Ret true st'
          | Throw e st' => Throw e st'
          end
        else Ret false st
    | VStr s => if contains s p then Ret false st else Throw TypeError st
    | _ => Throw TypeError st
    end
  else Ret false st.

(** [removePath(p)] *)
Definition removePath (p : string) (st : Store) : outcome unit :=
  match read (VObj (config st)) "openPaths" with
  | VArr l =>
      if includes p l then Ret tt (set_openPaths (remove_first p l) st)
      else Ret tt st
  | VStr s => if contains s p then Throw TypeError st else Ret tt st
  | _ => Throw TypeError st
  end.

(** [l.splice(i, 1)] *)
Fixpoint splice1 {A : Type} (i : nat) (l : list A) : list A :=
  match l, i with
  | [], _ => []
  | _ :: r, O => r
  | x :: r, S j => x :: splice1 j r
  end.

(** The pruning loops of [checkPaths]:
    [for (let i = 0; i < l.length; i++) { if (!keep(l[i])) { l.splice(i, 1); --i } }].
    An iteration advances [i] or shortens [l]: [length l] iterations
    are enough from [i = 0]. *)
Fixpoint prune_loop {A : Type} (keep : A -> bool) (fuel i : nat) (l : list A)
  : list A :=
  match fuel with
  | O => l
  | S fuel' =>
      match nth_error l i with
      | Some x =>
          if keep x then prune_loop keep fuel' (S i) l
          else prune_loop keep fuel' i (splice1 i l)
      | None => l
      end
  end.

Definition prune {A : Type} (keep : A -> bool) (l : list A) : list A :=
  prune_loop keep (List.length l) 0 l.

(** [fs.lstatSync(v)] returns: it throws on what is not a path. *)
Definition lstat_value (v : value) : bool :=
  match v with
  | VStr s => lstat_ok s
  | _ => false
  end.

(** [[...new Set(l)]]: the first occurrence of each string stays. *)
Fixpoint uniq (l : list string) : list string :=
  match l with
  | [] => []
  | x :: r => x :: filter (fun y => negb (String.eqb y x)) (uniq r)
  end.

(** The strings among the entries of an array. *)
Fixpoint strings_in (l : list value) : list string :=
  match l with
  | [] => []
  | VStr s :: r => s :: strings_in r
  | _ :: r => strings_in r
  end.

Definition mkdir_dict (d : Disk) : Disk :=
  {| configPath_present := configPath_present d; configFile := configFile d;
     dict_present := true |}.

(** [i < len] for a [len] that is a string, an array or an object: the
    number of [i = 0, 1, ...] that pass, after the engine has converted
    [len] to a number, which may throw.  It is left open; a [len] that
    converts to [Infinity] admits every [i], and a finite count stands
    for it in every run that ends. *)
Variable indices_below : value -> completion nat.

(** The number of [i = 0, 1, ...] with [i < len]: a number admits the
    [i] below it, [true] admits [0], [false] and [null] admit none. *)
Definition iterations (len : value) : completion nat :=
  match len with
  | VNull => Normal 0
  | VBool b => Normal (if b then 1 else 0)
  | VNum n => Normal (Z.to_nat n)
  | _ => indices_below len
  end.

(** The second loop of [checkPaths], over [this.config['selectedDicts']]:
    [null] has no [length]; a boolean or a number has none either and
    the loop does not run; a string cannot [splice].  An object has
    no [splice] either: without an entry [length] the loop does not
    run; with one, the loop reads the entries [0], [1], ... below it,
    one that is not there reading as [null], and throws at the first
    that is not available. *)
Definition prune_selectedDicts (st : Store) : outcome unit :=
  match read (VObj (config st)) "selectedDicts" with
  | VArr ds =>
      Ret tt (with_config
                (store "selectedDicts" (VArr (prune isDictAvailable ds))
                   (config st)) st)
  | VNull => Throw TypeError st
  | VStr s =>
      if forallb isDictAvailable (map VStr (chars s)) then Ret tt st
      else Throw TypeError st
  | VObj es =>
      match lookup "length" es with
      | None => Ret tt st
      | Some len =>
          match iterations len with
          | Abrupt e => Throw e st
          | Normal n =>
              if forallb (fun i => isDictAvailable (read (VObj es) (decimal i)))
                   (seq 0 n)
              then Ret tt st
              else Throw TypeError st
          end
      end
  | _ => Ret tt st
  end.

(** [checkPaths()].  After the first loop the array holds strings only,
    [lstatSync] throwing on anything else; what is not iterable makes
    [new Set] throw, and a string cannot [splice]. *)
Definition checkPaths (st : Store) : outcome unit :=
  let st1 := with_disk (mkdir_dict (disk st)) st in
  let deduped (paths : list string) : outcome unit :=
    match _sortPaths (set_openPaths (map VStr (uniq paths)) st1) with
    | Ret _ st2 => prune_selectedDicts st2
    | Throw e st2 => Throw e st2
    end in
  match read (VObj (config st1)) "openPaths" with
  | VArr l => deduped (strings_in (prune lstat_value l))
  | VStr s =>
      if forallb lstat_ok (chars s) then deduped (chars s)
      else Throw TypeError st1
  | _ => Throw TypeError st1
  end.

(* ================================================================== *)
(** ** The system check: the search path and the identifier *)

Inductive platform : Type := win32 | linux | darwin | other_platform.

(** [process.platform], the table [COMMON_DATA.additional_paths] of
    [common/data.json], [path.dirname] and the value of
    [uuid('com.zettlr.app', uuid.DNS)]. *)
Variable process_platform : platform.
Variable additional_paths_win32 : list string.
Variable additional_paths_linux : list string.
Variable additional_paths_macos : list string.
Variable dirname : string -> string.
Variable app_uuid : string.

(** [this._additional_paths], as the constructor picks it. *)
Definition _additional_paths : list string :=
  match process_platform with
  | win32 => additional_paths_win32
  | linux => additional_paths_linux
  | darwin => additional_paths_macos
  | other_platform => []
  end.

Definition delim : ascii :=
  match process_platform with
  | win32 => ";"%char
  | _ => ":"%char
  end.

(** [x[x.length - 1] === '/'] *)
Fixpoint ends_with_slash (x : string) : bool :=
  match x with
  | EmptyString => false
  | String a EmptyString => Ascii.eqb a "/"%char
  | String _ r => ends_with_slash r
  end.

(** [x.substr(0, x.length - 1)] *)
Fixpoint drop_last (x : string) : string :=
  match x with
  | EmptyString => EmptyString
  | String _ EmptyString => EmptyString
  | String a r => String a (drop_last r)
  end.

(** [(x[x.length - 1] === '/') ? x.substr(0, x.length - 1) : x + '/'] *)
Definition other_form (x : string) : string :=
  if ends_with_slash x then drop_last x else (x ++ "/")%string.

(** [nPATH.includes(x)] *)
Definition listed (x : string) (nPATH : list string) : bool :=
  existsb (String.eqb x) nPATH.

(** [nPATH.includes(x) || nPATH.includes(y)] *)
Definition covered (x : string) (nPATH : list string) : bool :=
  listed x nPATH || listed (other_form x) nPATH.

(** [for (let x of this._additional_paths) { ... nPATH.push(x) }] *)
Fixpoint add_paths (xs : list string) (nPATH : list string) : list string :=
  match xs with
  | [] => nPATH
  | x :: r =>
      if negb (listed x nPATH) && negb (listed (other_form x) nPATH)
      then add_paths r (nPATH ++ [x])
      else add_paths r nPATH
  end.

(** The first block of [checkSystem] on [process.env.PATH]. *)
Definition integrate_additional (path : string) : string :=
  match _additional_paths with
  | [] => path
  | _ :: _ => join delim (add_paths _additional_paths (split delim path))
  end.

(** The block for one executable on [process.env.PATH], [dir] being
    [path.dirname(this.get(...))]. *)
Definition add_dirname (dir : string) (path : string) : string :=
  if Nat.ltb 0 (String.length dir) then
    if negb (contains path dir) then (path ++ String delim "" ++ dir)%string
    else path
  else path.

(** [path.dirname(this.get(key))]: a [TypeError] unless the option
    holds a string. *)
Definition exec_dirname (key : string) (st : Store) : completion string :=
  match get key st with
  | Normal (VStr s) => Normal (dirname s)
  | Normal _ => Abrupt TypeError
  | Abrupt e => Abrupt e
  end.

(** [if (!this.config.uuid) this.config.uuid = uuid(...)] *)
Definition ensure_uuid (st : Store) : Store :=
  if falsy (read (VObj (config st)) "uuid")
  then with_config (store "uuid" (VStr app_uuid) (config st)) st
  else st.

(** [checkSystem()] *)
Definition checkSystem (st : Store) : outcome unit :=
  let st1 := with_PATH (integrate_additional (PATH st)) st in
  match exec_dirname "xelatex" st1 with
  | Abrupt e => Throw e st1
  | Normal dx =>
      let st2 := with_PATH (add_dirname dx (PATH st1)) st1 in
      match exec_dirname "pandoc" st2 with
      | Abrupt e => Throw e st2
      | Normal dp =>
          let st3 := with_PATH (add_dirname dp (PATH st2)) st2 in
          Ret tt (ensure_uuid st3)
      end
  end.

(* ================================================================== *)
(** ** Locales: [getSupportedLangs], [getDictionaries], [getLocale] *)

(** The directories [path.join(__dirname, './assets/dict')] and
    [path.join(this.configPath, '/dict')], and [path.join(dir, d)]. *)
Variable assets_dict : string.
Variable user_dict : string.
Variable path_join : string -> string -> string.

Definition lower (a : ascii) : bool :=
  (Nat.leb 97 (nat_of_ascii a) && Nat.leb (nat_of_ascii a) 122)%bool.

Definition upper (a : ascii) : bool :=
  (Nat.leb 65 (nat_of_ascii a) && Nat.leb (nat_of_ascii a) 90)%bool.

(** A regular-expression matcher takes the text still to read and
    answers whether the rest of the pattern matches there. *)
Definition matcher : Type := string -> bool.

(** [[...]{1,n}] followed by [k], backtracking over the repetitions. *)
Fixpoint upto (n : nat) (cls : ascii -> bool) (k : matcher) : matcher :=
  fun s =>
    match n, s with
    | S m, String a r =>
        cls a && (upto m cls k r || k r)
    | _, _ => false
    end.

(** A literal followed by [k]. *)
Fixpoint lit (w : string) (k : matcher) : matcher :=
  fun s =>
    match w with
    | EmptyString => k s
    | String a w' =>
        match s with
        | String b r => Ascii.eqb a b && lit w' k r
        | EmptyString => false
        end
    end.

(** [$] *)
Definition at_end : matcher :=
  fun s => match s with EmptyString => true | _ => false end.

(** A pattern without [^] is tried at every position. *)
Fixpoint anywhere (m : matcher) (s : string) : bool :=
  m s
  || match s with
     | EmptyString => false
     | String _ r => anywhere m r
     end.

(** [/[a-z]{1,3}_[A-Z]{1,3}\.json/.test(f)] *)
Definition lang_file_test (f : string) : bool :=
  anywhere (upto 3 lower (lit "_" (upto 3 upper (lit ".json" (fun _ => true))))) f.

(** [/^[a-z]{1,3}_[A-Z]{1,3}$/.test(d)] *)
Definition dict_dir_test (d : string) : bool :=
  upto 3 lower (lit "_" (upto 3 upper at_end)) d.

(** [f.lastIndexOf('.')]; [None] is [-1]. *)
Fixpoint lastIndexOf (c : ascii) (s : string) : option nat :=
  match s with
  | EmptyString => None
  | String a r =>
      match lastIndexOf c r with
      | Some i => Some (S i)
      | None => if Ascii.eqb a c then Some 0 else None
      end
  end.

(** [f.substr(0, f.lastIndexOf('.'))]; a negative length gives [''] *)
Definition strip_extension (f : string) : string :=
  match lastIndexOf "." f with
  | Some i => String.substring 0 i f
  | None => ""
  end.

(** One of the two loops of [getSupportedLangs] *)
Definition language_files (files : list string) : list string :=
  map strip_extension (filter lang_file_test files).

(** [getSupportedLangs()]: [files] lists [../common/lang]; [user_files]
    lists [APP_DATA/lang], [None] when [readdirSync] throws there. *)
Definition getSupportedLangs (files : list string)
    (user_files : option (list string)) : list string :=
  language_files files
  ++ match user_files with
     | Some fs => language_files fs
     | None => []
     end.

(** One of the two loops of [getDictionaries] *)
Definition dict_dirs (scanfolder : string) (dirs : list string) : list string :=
  filter (fun d => dict_dir_test d && isDir (path_join scanfolder d)
                   && isDictAvailable (VStr d)) dirs.

(** [getDictionaries()] *)
Definition getDictionaries (dirs : list string)
    (user_dirs : option (list string)) : list string :=
  dict_dirs assets_dict dirs
  ++ match user_dirs with
     | Some ds => dict_dirs user_dict ds
     | None => []
     end.

(** [sup.split('_')[1]]; [None] is [undefined]. *)
Definition second_part (sep : ascii) (s : string) : option string :=
  nth_error (split sep s) 1.

(** [sup.split('_')[0]] *)
Definition first_part (sep : ascii) (s : string) : string :=
  fst (cut sep s).

(** The loop of [getLocale] over the supported languages; [lang] is
    [None] for [null]. *)
Fixpoint first_supported (mainlang : string) (lang : option string)
    (sups : list string) : string :=
  match sups with
  | [] => "en_US"
  | sup :: rest =>
      let ml := first_part "_" sup in
      let sl := second_part "_" sup in
      if String.eqb ml mainlang then
        match lang with
        | None => sup
        | Some l =>
            match sl with
            | Some s => if String.eqb s l then sup
                        else first_supported mainlang lang rest
            | None => first_supported mainlang lang rest
            end
        end
      else first_supported mainlang lang rest
  end.

(** [getLocale()], [raw] being [app.getLocale()] and [sups] the result
    of [this.getSupportedLangs()]. *)
Definition getLocale (raw : string) (sups : list string) : string :=
  if indexOf_found "-" raw then
    first_supported (first_part "-" raw) (second_part "-" raw) sups
  else first_supported raw None sups.

(* ================================================================== *)
(** ** Objects as the engine holds them: references and copies

    [get] hands out what [this.config] holds, and an object or an array
    is held by reference.  To tell a reference from a copy the tree is
    laid out in a heap of cells. *)

Inductive hval : Type :=
| HNull
| HBool (b : bool)
| HNum (n : Z)
| HStr (s : string)
| HRef (l : nat).

Inductive cell : Type :=
| CObj (fields : list (string * hval))
| CArr (elems : list hval).

Definition heap : Type := list cell.

Fixpoint hlookup (k : string) (fs : list (string * hval)) : option hval :=
  match fs with
  | [] => None
  | (k', v) :: r => if String.eqb k' k then Some v else hlookup k r
  end.

(** The own properties of a value in the heap, as [own_property]. *)
Definition h_own_property (h : heap) (v : hval) (k : string) : option hval :=
  match v with
  | HRef l =>
      match nth_error h l with
      | Some (CObj fs) => hlookup k fs
      | Some (CArr hs) =>
          if String.eqb k "length" then Some (HNum (Z.of_nat (List.length hs)))
          else match index_of_key k (List.length hs) with
               | Some i => nth_error hs i
               | None => None
               end
      | None => None
      end
  | HStr s =>
      if String.eqb k "length" then Some (HNum (Z.of_nat (String.length s)))
      else match index_of_key k (String.length s) with
           | Some i => Some (HStr (String.substring i 1 s))
           | None => None
           end
  | _ => None
  end.

Definition h_has_method (h : heap) (v : hval) : bool :=
  match v with
  | HNull => false
  | HRef l =>
      match nth_error h l with
      | Some (CObj fs) =>
          match hlookup "hasOwnProperty" fs with
          | Some _ => false
          | None => true
          end
      | _ => true
      end
  | _ => true
  end.

Definition h_hasOwnProperty (h : heap) (v : hval) (k : string) : completion bool :=
  if h_has_method h v then
    Normal (match h_own_property h v k with Some _ => true | None => false end)
  else Abrupt TypeError.

Definition h_read (h : heap) (v : hval) (k : string) : hval :=
  match h_own_property h v k with
  | Some x => x
  | None => HNull
  end.

Fixpoint h_walk (h : heap) (cfg : hval) (nested : list string)
  : completion (option hval) :=
  match nested with
  | [] => Normal (Some cfg)
  | arg :: rest =>
      match h_hasOwnProperty h cfg arg with
      | Abrupt e => Abrupt e
      | Normal true => h_walk h (h_read h cfg arg) rest
      | Normal false => Normal None
      end
  end.

(** [get(attr)] of the class, [this.config] being the cell [root]: the
    result is the very value the tree holds, a reference included. *)
Definition h_get (attr : string) (h : heap) (root : nat) : completion hval :=
  if String.eqb attr "" then Normal (HRef root)
  else if indexOf_pos "." attr then
    match h_walk h (HRef root) (split "." attr) with
    | Abrupt e => Abrupt e
    | Normal (Some cfg) => Normal cfg
    | Normal None => Normal HNull
    end
  else
    match h_hasOwnProperty h (HRef root) attr with
    | Abrupt e => Abrupt e
    | Normal true => Normal (h_read h (HRef root) attr)
    | Normal false => Normal HNull
    end.

Fixpoint sequence {A : Type} (l : list (option A)) : option (list A) :=
  match l with
  | [] => Some []
  | Some x :: r =>
      match sequence r with
      | Some xs => Some (x :: xs)
      | None => None
      end
  | None :: _ => None
  end.

(** The JSON document of a value in the heap, read to the depth
    [fuel]; [None] when the depth does not suffice. *)
Fixpoint stringify (fuel : nat) (h : heap) (v : hval) : option value :=
  match v with
  | HNull => Some VNull
  | HBool b => Some (VBool b)
  | HNum n => Some (VNum n)
  | HStr s => Some (VStr s)
  | HRef l =>
      match fuel with
      | O => None
      | S f =>
          match nth_error h l with
          | Some (CArr hs) =>
              option_map VArr (sequence (map (stringify f h) hs))
          | Some (CObj fs) =>
              option_map VObj
                (sequence (map (fun e => option_map (pair (fst e))
                                           (stringify f h (snd e))) fs))
          | None => None
          end
      end
  end.














(* ================================================================== *)
(** ** The statements of the specification *)

(** The merge as the specification words it: a key of the old tree
    that the new tree has too takes the merge of the two values when
    the old one is an object, and the new value otherwise; a key the
    new tree lacks keeps its value; the other keys of the new tree are
    not looked at. *)
Fixpoint merge (newTree oldTree : value) : value :=
  match oldTree with
  | VObj es =>
      VObj (map (fun e =>
                   match own_property newTree (fst e) with
                   | Some nv =>
                       match snd e with
                       | VObj _ => (fst e, merge nv (snd e))
                       | _ => (fst e, nv)
                       end
                   | None => e
                   end) es)
  | _ => oldTree
  end.

(** The sub-trees of the old tree a merge goes down into. *)
Fixpoint descents (newTree oldTree : value) : nat :=
  match oldTree with
  | VObj es =>
      list_sum (map (fun e =>
                       match own_property newTree (fst e) with
                       | Some nv =>
                           if is_plain_object (snd e)
                           then S (descents nv (snd e)) else 0
                       | None => 0
                       end) es)
  | _ => 0
  end.

(** Against every object with keys of the old tree, the new tree has
    a value that can be asked for its properties ([has_method]). *)
Fixpoint mergeable (newTree oldTree : value) : bool :=
  match oldTree with
  | VObj es =>
      match es with
      | [] => true
      | _ :: _ =>
          has_method newTree
          && forallb (fun e =>
                        match own_property newTree (fst e) with
                        | Some nv =>
                            if is_plain_object (snd e)
                            then mergeable nv (snd e) else true
                        | None => true
                        end) es
      end
  | _ => true
  end.

Definition forall2b {A B : Type} (f : A -> B -> bool)
  : list A -> list B -> bool :=
  fix all (l : list A) (l' : list B) : bool :=
    match l, l' with
    | [], [] => true
    | x :: r, y :: r' => f x y && all r r'
    | _, _ => false
    end.

(** The keys of [tpl] are the keys of [live], in the same order, and
    so below every key that holds an object in [tpl]. *)
Fixpoint keys_kept (tpl live : value) : bool :=
  match tpl with
  | VObj es =>
      match live with
      | VObj es' =>
          forall2b (fun e e' =>
                      String.eqb (fst e) (fst e') && keys_kept (snd e) (snd e'))
            es es'
      | _ => false
      end
  | _ => true
  end.

(** What one call of [update] on an old tree does, in one statement:
    the keys stay; it completes exactly when [mergeable]; and then it
    leaves the merge and has emitted once per call. *)
Definition update_rec_spec (newcfg oldcfg : value) : Prop :=
  let '(t, n, r) := update_rec newcfg oldcfg in
  keys_kept oldcfg t = true
  /\ (r = None <-> mergeable newcfg oldcfg = true)
  /\ (r = None -> t = merge newcfg oldcfg /\ n = S (descents newcfg oldcfg)).

Definition merge_entry (newcfg : value) (e : string * value) : string * value :=
  match own_property newcfg (fst e) with
  | Some nv =>
      match snd e with
      | VObj _ => (fst e, merge nv (snd e))
      | _ => (fst e, nv)
      end
  | None => e
  end.

Definition descents_entry (newcfg : value) (e : string * value) : nat :=
  match own_property newcfg (fst e) with
  | Some nv => if is_plain_object (snd e) then S (descents nv (snd e)) else 0
  | None => 0
  end.

Definition mergeable_entry (newcfg : value) (e : string * value) : bool :=
  match own_property newcfg (fst e) with
  | Some nv => if is_plain_object (snd e) then mergeable nv (snd e) else true
  | None => true
  end.

Definition str_le (a b : string) : Prop := String.leb a b = true.

(** Files first, then directories, each group ascending. *)
Definition files_then_dirs (l : list string) : Prop :=
  exists f d,
    l = f ++ d
    /\ Forall (fun p => isDir p = false) f
    /\ Forall (fun p => isDir p = true) d
    /\ StronglySorted str_le f
    /\ StronglySorted str_le d.

(** The list of open paths holds the strings [l], none twice, files
    first. *)
Definition open_paths_are (l : list string) (st : Store) : Prop :=
  read (VObj (config st)) "openPaths" = VArr (map VStr l)
  /\ NoDup l
  /\ files_then_dirs l.

(** The stores the path list goes through: pruned at startup, then
    written by [addPath], [removePath] and [_sortPaths] only; what else
    happens to the store leaves the list as it is. *)
Inductive path_run : Store -> Prop :=
| run_checkPaths : forall st st',
    checkPaths st = Ret tt st' -> path_run st'
| run_addPath : forall st p,
    path_run st -> path_run (final (addPath p st))
| run_removePath : forall st p,
    path_run st -> path_run (final (removePath p st))
| run_sortPaths : forall st,
    path_run st -> path_run (final (_sortPaths st))
| run_other : forall st st',
    path_run st ->
    read (VObj (config st')) "openPaths" = read (VObj (config st)) "openPaths" ->
    path_run st'.

(** The test of the loop of [getLocale] on one tag, with the fields
    as the code takes them. *)
Definition tag_matches (main : string) (sub : option string) (tag : string)
  : bool :=
  String.eqb (first_part "_" tag) main
  && match sub with
     | None => true
     | Some s =>
         match second_part "_" tag with
         | Some s' => String.eqb s' s
         | None => false
         end
     end.

(** The text [w] holds no [sep]. *)
Definition sep_free (sep : ascii) (w : string) : Prop :=
  ~ In sep (list_ascii_of_string w).

(** The main part of [s]: what stands before its first [sep], all of
    [s] when it has none. *)
Definition main_part (sep : ascii) (s w : string) : Prop :=
  sep_free sep w
  /\ (s = w \/ exists rest, s = (w ++ String sep rest)%string).

(** The sub part of [s]: what stands between its first [sep] and the
    next one, or the end. *)
Definition sub_part (sep : ascii) (s w : string) : Prop :=
  exists m,
    sep_free sep m /\ sep_free sep w
    /\ (s = (m ++ String sep w)%string
        \/ exists rest, s = (m ++ String sep (w ++ String sep rest))%string).

(** The raw locale splits on [-] into [main] and [sub], [None] being
    the sub part that is absent. *)
Definition raw_split (raw main : string) (sub : option string) : Prop :=
  main_part "-" raw main
  /\ match sub with
     | None => sep_free "-" raw
     | Some s => sub_part "-" raw s
     end.

(** A supported tag [M_S] matches, in the words of the specification:
    its main part is the raw main part and, a raw sub part being given,
    its sub part is the raw one. *)
Definition matches_locale (main : string) (sub : option string) (tag : string)
  : Prop :=
  main_part "_" tag main
  /\ match sub with
     | None => True
     | Some s => sub_part "_" tag s
     end.

(** One to three letters of a class. *)
Definition letters (cls : ascii -> bool) (w : string) : Prop :=
  1 <= String.length w <= 3
  /\ Forall (fun a => cls a = true) (list_ascii_of_string w).

(** The strict shape of a locale tag. *)
Definition strict_tag (d : string) : Prop :=
  exists l u, letters lower l /\ letters upper u /\ d = (l ++ "_" ++ u)%string.

(* ================================================================== *)
(** ** The template and the stores of the examples *)

(** [this.cfgtpl] as the constructor builds it, given the width of the
    work area, [COMMON_DATA.attachmentExtensions] and [getLocale()]. *)
Definition cfgtpl (width : Z) (attachmentExtensions : list value)
    (app_lang : string) : object :=
  [ ("openPaths", VArr []);
    ("dialogPaths", VObj [ ("askFileDialog", VStr "");
                           ("askDirDialog", VStr "");
                           ("askLangFileDialog", VStr "") ]);
    ("window", VObj [ ("x", VNum 0); ("y", VNum 0);
                      ("width", VNum width); ("height", VNum width);
                      ("max", VBool true) ]);
    ("lastFile", VNull);
    ("lastDir", VNull);
    ("attachmentExtensions", VArr attachmentExtensions);
    ("darkTheme", VBool false);
    ("snippets", VBool false);
    ("muteLines", VBool true);
    ("combinerState", VStr "collapsed");
    ("pandoc", VStr "pandoc");
    ("xelatex", VStr "xelatex");
    ("export", VObj [ ("dir", VStr "temp"); ("stripIDs", VBool true);
                      ("stripTags", VBool false); ("stripLinks", VStr "full");
                      ("cslLibrary", VStr ""); ("cslStyle", VStr "") ]);
    ("pdf", VObj [ ("author", VStr "Generated by Zettlr");
                   ("keywords", VStr ""); ("papertype", VStr "a4paper");
                   ("pagenumbering", VStr "gobble");
                   ("tmargin", VNum 3); ("rmargin", VNum 3);
                   ("bmargin", VNum 3); ("lmargin", VNum 3);
                   ("margin_unit", VStr "cm"); ("lineheight", VStr "1.5");
                   ("mainfont", VStr "Times New Roman");
                   ("sansfont", VStr "Arial"); ("fontsize", VNum 12) ]);
    ("zkn", VObj [ ("idRE", VStr "(\d{14})"); ("idGen", VStr "%Y%M%D%h%m%s");
                   ("linkStart", VStr "[["); ("linkEnd", VStr "]]") ]);
    ("editor", VObj [ ("autoCloseBrackets", VBool true) ]);
    ("selectedDicts", VArr []);
    ("app_lang", VStr app_lang);
    ("debug", VBool false);
    ("uuid", VNull) ].

Definition empty_disk : Disk :=
  {| configPath_present := true; configFile := None; dict_present := true |}.

(** A store right after the constructor set the template, on a
    1280-wide screen. *)
Definition fresh_store : Store :=
  {| config := cfgtpl 1280 [VStr ".pdf"] "en_US"; _rules := [];
     emitted := 0; PATH := "/usr/bin:/bin"; disk := empty_disk |}.

(** The same store with a backing file that does not parse. *)
Definition damaged_store : Store :=
  {| config := cfgtpl 1280 [VStr ".pdf"] "en_US"; _rules := [];
     emitted := 0; PATH := "/usr/bin:/bin";
     disk := {| configPath_present := true;
                configFile := Some (Malformed "{ not json");
                dict_present := true |} |}.

(** A file that sets the horizontal position of the window. *)
Definition moved_window : value := VObj [ ("window", VObj [ ("x", VNum 40) ]) ].

(** A file that offers [null] where the template holds the object
    [window], and a new value for [debug]. *)
Definition null_window : value :=
  VObj [ ("window", VNull); ("debug", VBool true) ].

Definition null_window_disk : Disk :=
  {| configPath_present := true;
     configFile := Some (WellFormed null_window);
     dict_present := true |}.

(** A small configuration in the heap: the array of open paths in cell
    0, the root object in cell 1. *)
Definition demo_heap : heap :=
  [ CArr [HStr "/notes.md"];
    CObj [ ("openPaths", HRef 0); ("debug", HBool false) ] ].

(** A file system where [/notes] is the one directory, every path
    exists, no file type is ignored and every dictionary is there. *)
Definition demo_isDir (p : string) : bool := String.eqb p "/notes".
Definition demo_ignoreFile (p : string) : bool := false.
Definition demo_lstat_ok (p : string) : bool := true.
Definition demo_isDictAvailable (v : value) : bool := true.
Definition demo_sort_mixed (l : list value) : list value := l.

(** An engine for which no string, array or object is a number above
    zero. *)
Definition demo_indices_below (len : value) : completion nat := Normal 0.

(** An engine that refuses the array assignments left open; the
    examples make none. *)
Definition refuse_array_assign (l : list value) (k : string) (v : value)
  : completion (list value) := Abrupt RangeError.

(** [path.dirname] on POSIX for a path without trailing slash: what
    stands before the last [/], [.] without any, [/] for the root. *)
Definition posix_dirname (p : string) : string :=
  match lastIndexOf "/" p with
  | None => "."
  | Some O => "/"
  | Some i => String.substring 0 i p
  end.

(* ================================================================== *)
(** ** The constructor, and further statements *)

(** [this._rules.push(new ZettlrValidation(key, rules[key]))] for every
    key of [validation.json] *)
Definition boot_rules (rules : list rule) (st : Store) : Store :=
  {| config := config st; _rules := _rules st ++ rules; emitted := emitted st;
     PATH := PATH st; disk := disk st |}.

(** The store as the constructor has it before [this.load()]: the
    template with the locale of [getLocale()], no rule yet. *)
Definition initial_store (width : Z) (attachmentExtensions : list value)
    (raw_locale : string) (lang_files : list string)
    (user_lang_files : option (list string)) (path : string) (d : Disk)
  : Store :=
  {| config := cfgtpl width attachmentExtensions
                 (getLocale raw_locale
                    (getSupportedLangs lang_files user_lang_files));
     _rules := []; emitted := 0; PATH := path; disk := d |}.

(** The constructor from [this.load()] on: [load], [checkSystem],
    [checkPaths], then the validation rules; an exception of a step
    ends it. *)
Definition constructor (rules : list rule) (st : Store) : outcome unit :=
  match load st with
  | Throw e st1 => Throw e st1
  | Ret _ st1 =>
      match checkSystem st1 with
      | Throw e st2 => Throw e st2
      | Ret _ st2 =>
          match checkPaths st2 with
          | Throw e st3 => Throw e st3
          | Ret _ st3 => Ret tt (boot_rules rules st3)
          end
      end
  end.

Fixpoint nodupb (l : list string) : bool :=
  match l with
  | [] => true
  | x :: r => negb (existsb (String.eqb x) r) && nodupb r
  end.

(** No object of the value has a key twice: so it is with every object
    of the engine. *)
Fixpoint unique_keys (v : value) : bool :=
  match v with
  | VObj es =>
      nodupb (map fst es) && forallb (fun e => unique_keys (snd e)) es
  | VArr l => forallb unique_keys l
  | _ => true
  end.

(** A template: no object of it, arrays apart, has a key twice or an
    entry [hasOwnProperty]. *)
Fixpoint tidy (tpl : value) : bool :=
  match tpl with
  | VObj es =>
      nodupb (map fst es)
      && negb (has_key "hasOwnProperty" es)
      && forallb (fun e => tidy (snd e)) es
  | _ => true
  end.

(** The path [nested] leads from [cfg] through objects to an object. *)
Fixpoint through_objects (cfg : value) (nested : list string) : bool :=
  match cfg with
  | VObj _ =>
      match nested with
      | [] => true
      | arg :: rest => through_objects (read cfg arg) rest
      end
  | _ => false
  end.

(** [nested] of [set]: the segments of a dotted key but the last. *)
Definition parents (option : string) : list string :=
  fst (pop (fst (cut "." option)) (snd (cut "." option))).

(** What [join] puts behind the first element. *)
Fixpoint joined_tail (sep : ascii) (l : list string) : string :=
  match l with
  | [] => ""
  | x :: r => (String sep x ++ joined_tail sep r)%string
  end.

(** ** Further stores of the examples *)

(** A store with two open paths and two selected dictionaries. *)
Definition opened_store : Store :=
  with_config
    (store "selectedDicts" (VArr [VStr "en_US"; VStr "de_DE"])
       (store "openPaths" (VArr [VStr "/a.md"; VStr "/notes"])
          (config fresh_store)))
    fresh_store.

(** A disk on which [/gone.md] is no more, and an installation that
    has the dictionary [en_US] only. *)
Definition gone_lstat_ok (p : string) : bool := negb (String.eqb p "/gone.md").

Definition only_en_US (v : value) : bool :=
  match v with
  | VStr s => String.eqb s "en_US"
  | _ => false
  end.

(** A store whose list of open paths names a file that is gone and
    names paths twice, and whose selected dictionaries are not all
    installed. *)
Definition stale_store : Store :=
  with_config
    (store "selectedDicts"
       (VArr [VStr "de_DE"; VStr "fr_FR"; VStr "en_US"; VStr "it_IT"])
       (store "openPaths"
          (VArr [VStr "/gone.md"; VStr "/notes"; VStr "/a.md";
                 VStr "/gone.md"; VStr "/a.md"])
          (config fresh_store)))
    fresh_store.

(** A backing file that holds an object where the array of selected
    dictionaries should be, and the disk with that file. *)
Definition odd_dicts_file : value :=
  VObj [ ("selectedDicts", VObj [ ("length", VNum 0) ]);
         ("window", VObj [ ("x", VNum 40) ]) ].

Definition odd_dicts_disk : Disk :=
  {| configPath_present := true;
     configFile := Some (WellFormed odd_dicts_file);
     dict_present := true |}.

(** A list of paths with a duplicate, as [set] takes it. *)
Definition duplicate_paths : value :=
  VArr [VStr "/b.md"; VStr "/a.md"; VStr "/a.md"].

(** A rule for [debug] that admits booleans only, and a store that
    holds it. *)
Definition debug_rule : rule :=
  {| getKey := "debug";
     accepts := fun v => match v with VBool _ => true | _ => false end |}.

Definition ruled_store : Store := boot_rules [debug_rule] fresh_store.

(** An argument of [bulkSet]: an option that the template lacks before
    one that it has. *)
Definition unknown_then_debug : object :=
  [ ("theme", VStr "dark"); ("debug", VBool true) ].

(** A file none of whose keys the template has. *)
Definition foreign_file : value := VObj [ ("theme", VStr "dark") ].

(** The store after the window was moved, and the store of the next
    start, the configuration having been saved in between. *)
Definition moved_store : Store := final (update moved_window fresh_store).

Definition restarted_store : Store :=
  with_disk (disk (final (save moved_store))) fresh_store.

(* ================================================================== *)
(** * Properties *)

(** Case analysis on every [match] and [if] of the goal. *)
Ltac case_matches :=
  repeat match goal with
         | |- context [match ?x with _ => _ end] => destruct x eqn:?
         | |- context [if ?b then _ else _] => destruct b eqn:?
         end.

(** ** [load] on a file that does not parse *)

(** C1, as amended: when the backing file exists and does not parse,
    [load()] returns normally; the tree is the template, untouched, no
    notification is emitted, and the file is overwritten with the
    template. *)
Theorem load_malformed_writes_template :
  forall (st : Store) (raw : string),
    configFile (disk st) = Some (Malformed raw) ->
    exists st',
      load st = Ret tt st'
      /\ config st' = config st
      /\ emitted st' = emitted st
      /\ configFile (disk st') = Some (WellFormed (VObj (config st))).
Proof.
  intros st raw Hfile.
  unfold load.
  destruct (configPath_present (disk st)) eqn:Hdir; cbn; rewrite Hfile;
    eexists; repeat split; reflexivity.
Qed.

(** An absent file takes the same way out of [load]. *)
Lemma load_absent_writes_template :
  forall st : Store,
    configFile (disk st) = None ->
    exists st',
      load st = Ret tt st'
      /\ config st' = config st
      /\ configFile (disk st') = Some (WellFormed (VObj (config st))).
Proof.
  intros st Hfile.
  unfold load.
  destruct (configPath_present (disk st)); cbn; rewrite Hfile;
    eexists; repeat split; reflexivity.
Qed.

(** ** [update]: the merge *)

Lemma hasOwnProperty_method :
  forall (v : value) (k : string),
    has_method v = true ->
    hasOwnProperty v k
    = Normal (match own_property v k with Some _ => true | None => false end).
Proof. intros v k Hv. unfold hasOwnProperty. now rewrite Hv. Qed.

Lemma hasOwnProperty_no_method :
  forall (v : value) (k : string),
    has_method v = false -> hasOwnProperty v k = Abrupt TypeError.
Proof. intros v k Hv. unfold hasOwnProperty. now rewrite Hv. Qed.

Lemma keys_kept_refl : forall v : value, keys_kept v v = true.
Proof.
  induction v as [ | b | n | s | l _ | es IH ] using value_ind; try reflexivity.
  cbn. induction IH as [ | e r He _ IHr ]; [reflexivity | ].
  cbn. rewrite String.eqb_refl, He. exact IHr.
Qed.

Lemma forall2b_refl_keys :
  forall es : object,
    forall2b (fun e e' => String.eqb (fst e) (fst e') && keys_kept (snd e) (snd e'))
      es es = true.
Proof. intro es. exact (keys_kept_refl (VObj es)). Qed.

(** The entry of the merge, by what the new tree offers and what the
    old entry holds. *)
Lemma merge_entry_cases :
  forall (newcfg : value) (e : string * value),
    match own_property newcfg (fst e) with
    | Some nv =>
        if is_plain_object (snd e)
        then merge_entry newcfg e = (fst e, merge nv (snd e))
        else merge_entry newcfg e = (fst e, nv)
    | None => merge_entry newcfg e = e
    end.
Proof.
  intros newcfg [k v]. unfold merge_entry. cbn [fst snd].
  destruct (own_property newcfg k); [ | reflexivity].
  destruct v; reflexivity.
Qed.

Lemma for_in_spec :
  forall (newcfg : value) (es : object),
    has_method newcfg = true ->
    Forall (fun e => forall nw, update_rec_spec nw (snd e)) es ->
    let '(es', n, r) := for_in update_rec newcfg es in
    keys_kept (VObj es) (VObj es') = true
    /\ (r = None <-> forallb (mergeable_entry newcfg) es = true)
    /\ (r = None ->
        es' = map (merge_entry newcfg) es
        /\ n = list_sum (map (descents_entry newcfg) es)).
Proof.
  intros newcfg es Hnn IH.
  induction IH as [ | e rest He _ IHrest ].
  - cbn. repeat split; reflexivity.
  - cbn [for_in]. fold (for_in update_rec newcfg).
    rewrite (hasOwnProperty_method _ _ Hnn).
    cbn [forallb map list_sum fold_right].
    generalize (merge_entry_cases newcfg e).
    unfold mergeable_entry at 1, descents_entry at 1.
    unfold read.
    destruct (own_property newcfg (fst e)) as [nv | ] eqn:Hown;
      [destruct (is_plain_object (snd e)) eqn:Hobj | ]; intros ->.
    + specialize (He nv). unfold update_rec_spec in He.
      destruct (update_rec nv (snd e)) as [[sub n1] r1].
      destruct He as (Hk & Hiff & Hres).
      destruct r1 as [err | ].
      * cbn. rewrite String.eqb_refl, Hk, forall2b_refl_keys.
        split; [reflexivity | ].
        destruct (mergeable nv (snd e)).
        -- destruct Hiff as [_ Hiff]. discriminate (Hiff eq_refl).
        -- cbn. split; [split; discriminate | discriminate].
      * destruct (for_in update_rec newcfg rest) as [[rest' n2] r2].
        destruct IHrest as (Hk' & Hiff' & Hres').
        destruct (Hres eq_refl) as [Hsub Hn1].
        destruct Hiff as [Hiff _]. rewrite (Hiff eq_refl).
        cbn in Hk' |- *. rewrite String.eqb_refl, Hk, Hk'.
        split; [reflexivity | ]. split; [exact Hiff' | ].
        intro Hr. destruct (Hres' Hr) as [-> ->].
        subst sub n1. split; reflexivity.
    + destruct (for_in update_rec newcfg rest) as [[rest' n2] r2].
      destruct IHrest as (Hk' & Hiff' & Hres').
      cbn in Hk' |- *. rewrite String.eqb_refl, Hk'.
      assert (Hleaf : keys_kept (snd e) nv = true)
        by (destruct (snd e); try reflexivity; discriminate).
      rewrite Hleaf.
      split; [reflexivity | ]. split; [exact Hiff' | ].
      intro Hr. destruct (Hres' Hr) as [-> ->]. split; reflexivity.
    + destruct (for_in update_rec newcfg rest) as [[rest' n2] r2].
      destruct IHrest as (Hk' & Hiff' & Hres').
      cbn in Hk' |- *. rewrite String.eqb_refl, keys_kept_refl, Hk'.
      split; [reflexivity | ]. split; [exact Hiff' | ].
      intro Hr. destruct (Hres' Hr) as [-> ->]. split; reflexivity.
Qed.

Lemma update_rec_correct :
  forall oldcfg newcfg : value, update_rec_spec newcfg oldcfg.
Proof.
  induction oldcfg as [ | b | n | s | l _ | es IH ] using value_ind;
    intro newcfg;
    try (unfold update_rec_spec; cbn; repeat split; intros; reflexivity).
  unfold update_rec_spec.
  destruct (update_rec newcfg (VObj es)) as [[t n] r] eqn:Hrun.
  cbn [update_rec] in Hrun.
  destruct es as [ | e rest ].
  - cbn in Hrun. injection Hrun as <- <- <-. cbn.
    repeat split; intros; reflexivity.
  - destruct (has_method newcfg) eqn:Hnn.
    + pose proof (for_in_spec newcfg (e :: rest) Hnn IH) as Hloop.
      destruct (for_in update_rec newcfg (e :: rest)) as [[es' n'] r'].
      destruct Hloop as (Hk & Hiff & Hres).
      cbn [mergeable]. rewrite Hnn. cbn [andb].
      destruct r' as [err | ]; injection Hrun as <- <- <-;
        (split; [exact Hk | ]);
        (split; [exact Hiff | ]);
        intro Hr; try discriminate;
        destruct (Hres eq_refl) as [-> ->]; split; reflexivity.
    + cbn [for_in] in Hrun.
      rewrite (hasOwnProperty_no_method _ _ Hnn) in Hrun.
      injection Hrun as <- <- <-.
      split; [apply keys_kept_refl | ].
      cbn [mergeable]. rewrite Hnn. cbn.
      split; [split; discriminate | discriminate].
Qed.

Lemma for_in_root :
  forall (newcfg : value) (es : object),
    update_rec newcfg (VObj es)
    = let '(es', n, r) := for_in update_rec newcfg es in
      match r with
      | None => (VObj es', S n, None)
      | Some err => (VObj es', n, Some err)
      end.
Proof. reflexivity. Qed.

(** [update] on the store, read off [update_rec] on the root. *)
Lemma update_as_rec :
  forall (newcfg : value) (st : Store),
    match update_rec newcfg (VObj (config st)) with
    | (VObj es, n, None) =>
        update newcfg st = Ret tt (emit_n n (with_config es st))
    | (VObj es, n, Some err) =>
        update newcfg st = Throw err (emit_n n (with_config es st))
    | _ => False
    end.
Proof.
  intros newcfg st. rewrite for_in_root. unfold update.
  destruct (for_in update_rec newcfg (config st)) as [[es n] r].
  destruct r as [err | ]; [reflexivity | ].
  unfold emit, emit_n, with_config; cbn. do 2 f_equal. lia.
Qed.

Lemma update_outcome :
  forall (newcfg : value) (st : Store),
    keys_kept (VObj (config st)) (VObj (config (final (update newcfg st)))) = true
    /\ (mergeable newcfg (VObj (config st)) = true ->
        exists es,
          update newcfg st
          = Ret tt (emit_n (S (descents newcfg (VObj (config st))))
                      (with_config es st))
          /\ VObj es = merge newcfg (VObj (config st)))
    /\ (mergeable newcfg (VObj (config st)) = false ->
        exists err st', update newcfg st = Throw err st').
Proof.
  intros newcfg st.
  pose proof (update_as_rec newcfg st) as Hrun.
  pose proof (update_rec_correct (VObj (config st)) newcfg) as Hspec.
  unfold update_rec_spec in Hspec.
  destruct (update_rec newcfg (VObj (config st))) as [[t n] r].
  destruct Hspec as (Hk & Hiff & Hres).
  destruct t as [ | | | | | es ]; try (destruct r; contradiction).
  destruct r as [err | ]; rewrite Hrun; cbn [final emit_n with_config config].
  - split; [exact Hk | ]. split.
    + intro Hm. apply Hiff in Hm. discriminate.
    + intros _. eauto.
  - split; [exact Hk | ]. destruct (Hres eq_refl) as [Hmerge ->]. split.
    + intros _. exists es. split; [reflexivity | exact Hmerge].
    + intro Hm. destruct Hiff as [Hiff _]. rewrite (Hiff eq_refl) in Hm.
      discriminate.
Qed.

Lemma lookup_merge :
  forall (newcfg : value) (es : object) (k : string),
    lookup k (map (merge_entry newcfg) es)
    = match lookup k es with
      | Some v =>
          Some (match own_property newcfg k with
                | Some nv =>
                    match v with
                    | VObj _ => merge nv v
                    | _ => nv
                    end
                | None => v
                end)
      | None => None
      end.
Proof.
  intros newcfg es k. induction es as [ | [k' v] rest IH ]; [reflexivity | ].
  cbn [map lookup].
  assert (Hfst : fst (merge_entry newcfg (k', v)) = k').
  { unfold merge_entry. cbn [fst snd].
    destruct (own_property newcfg k'); [destruct v | ]; reflexivity. }
  destruct (merge_entry newcfg (k', v)) as [k'' v''] eqn:Hentry.
  cbn in Hfst. subst k''.
  destruct (String.eqb k' k) eqn:Hkey; [ | exact IH].
  apply String.eqb_eq in Hkey. subst k'.
  unfold merge_entry in Hentry. cbn [fst snd] in Hentry.
  destruct (own_property newcfg k); [destruct v | ];
    injection Hentry as <-; reflexivity.
Qed.

(** C3, as amended: a call [update(newTree)] that completes emits one
    notification for itself and one more for each sub-tree the merge
    goes down into; it completes whenever the new tree is mergeable. *)
Theorem update_emits_once_per_step :
  forall (newcfg : value) (st : Store),
    mergeable newcfg (VObj (config st)) = true ->
    exists st',
      update newcfg st = Ret tt st'
      /\ emitted st' = emitted st + 1 + descents newcfg (VObj (config st)).
Proof.
  intros newcfg st Hm.
  destruct (update_outcome newcfg st) as (_ & Hret & _).
  destruct (Hret Hm) as (es & Hrun & _).
  eexists. split; [exact Hrun | ]. cbn. lia.
Qed.

(** Where it completes, [update] is the recursive merge.  It neither
    adds nor drops a key, however it ends; when the new tree is
    mergeable it completes and leaves the merge, in which a key of the
    old tree that the new tree has holds the merge of the two values if
    the old one is an object and the new value otherwise, and a key
    that the new tree lacks holds its old value; a key that the old
    tree lacks is not there afterwards.  So it is for [load] on a file
    that parses. *)
Theorem update_is_recursive_merge :
  forall (newcfg : value) (st : Store),
    keys_kept (VObj (config st)) (VObj (config (final (update newcfg st)))) = true
    /\ (mergeable newcfg (VObj (config st)) = true ->
        exists st',
          update newcfg st = Ret tt st'
          /\ VObj (config st') = merge newcfg (VObj (config st))
          /\ forall k,
               lookup k (config st')
               = match lookup k (config st) with
                 | Some v =>
                     Some (match own_property newcfg k with
                           | Some nv =>
                               match v with
                               | VObj _ => merge nv v
                               | _ => nv
                               end
                           | None => v
                           end)
                 | None => None
                 end)
    /\ (configFile (disk st) = Some (WellFormed newcfg) ->
        keys_kept (VObj (config st)) (VObj (config (final (load st)))) = true
        /\ (mergeable newcfg (VObj (config st)) = true ->
            exists st',
              load st = Ret tt st'
              /\ VObj (config st') = merge newcfg (VObj (config st)))).
Proof.
  intros newcfg st.
  destruct (update_outcome newcfg st) as (Hk & Hret & _).
  split; [exact Hk | ]. split.
  - intro Hm. destruct (Hret Hm) as (es & Hrun & Hmerge).
    eexists. split; [exact Hrun | ]. cbn. split; [exact Hmerge | ].
    intro k. cbn in Hmerge. injection Hmerge as ->. apply lookup_merge.
  - intro Hfile. unfold load.
    destruct (configPath_present (disk st));
      cbn [disk with_disk configFile mkdir_configPath]; rewrite Hfile.
    + split; [exact Hk | ]. intro Hm.
      destruct (Hret Hm) as (es & Hrun & Hmerge).
      eexists. split; [exact Hrun | exact Hmerge].
    + set (st1 := with_disk (mkdir_configPath (disk st)) st).
      destruct (update_outcome newcfg st1) as (Hk1 & Hret1 & _).
      split; [exact Hk1 | ]. intro Hm.
      destruct (Hret1 Hm) as (es & Hrun & Hmerge).
      eexists. split; [exact Hrun | exact Hmerge].
Qed.

(** A new tree that offers [null] for a key under which the old tree
    holds an object with entries is not mergeable, whatever else it
    offers: [update] throws. *)
Lemma null_for_object_not_mergeable :
  forall (newcfg : value) (es : object) (k : string) (e : string * value)
         (sub : object),
    In (k, VObj (e :: sub)) es ->
    own_property newcfg k = Some VNull ->
    mergeable newcfg (VObj es) = false.
Proof.
  intros newcfg es k e sub Hin Hnull.
  destruct es as [ | e0 r ]; [contradiction | ].
  cbn [mergeable]. apply andb_false_iff. right.
  apply not_true_is_false. intro Hall.
  rewrite forallb_forall in Hall. specialize (Hall _ Hin).
  cbn [fst snd] in Hall. rewrite Hnull in Hall. discriminate Hall.
Qed.

Lemma update_null_for_object :
  forall (newcfg : value) (st : Store) (k : string) (e : string * value)
         (sub : object),
    In (k, VObj (e :: sub)) (config st) ->
    own_property newcfg k = Some VNull ->
    exists err st', update newcfg st = Throw err st'.
Proof.
  intros newcfg st k e sub Hin Hnull.
  destruct (update_outcome newcfg st) as (_ & _ & Hthrow).
  apply Hthrow. exact (null_for_object_not_mergeable _ _ _ _ _ Hin Hnull).
Qed.

(** C5: on the template, [update] with a tree that offers [null] for
    [window], an object of the template, and [true] for [debug] does
    not leave the merge: the recursive call for [window] throws a
    [TypeError] and the tree is as it was, so that [debug], a key of
    both trees, is not overwritten; [load] on a file that holds this
    tree throws with it.  The merge of the claim keeps [window] and
    holds [true] for [debug]. *)
Theorem update_null_for_object_throws :
  update null_window fresh_store = Throw TypeError fresh_store
  /\ load (with_disk null_window_disk fresh_store)
     = Throw TypeError (with_disk null_window_disk fresh_store)
  /\ own_property null_window "debug" = Some (VBool true)
  /\ lookup "debug" (config fresh_store) = Some (VBool false)
  /\ exists es,
       merge null_window (VObj (config fresh_store)) = VObj es
       /\ lookup "debug" es = Some (VBool true)
       /\ lookup "window" es = lookup "window" (config fresh_store).
Proof.
  split; [vm_compute; reflexivity | ].
  split; [vm_compute; reflexivity | ].
  split; [reflexivity | ]. split; [reflexivity | ].
  eexists. split; [reflexivity | ]. split; vm_compute; reflexivity.
Qed.

(** ** [set]: rejection, success and notification *)

(** A call of [set] that returns [false] or throws leaves the store as
    it was; one that returns [true] has emitted once, under a rule that
    accepts the value, and touched the tree only. *)
Lemma set_contract :
  forall (option : string) (val : value) (st : Store),
    match set option val st with
    | Ret true st' =>
        emitted st' = S (emitted st)
        /\ _validate option val st = true
        /\ _rules st' = _rules st /\ PATH st' = PATH st /\ disk st' = disk st
    | Ret false st' => st' = st
    | Throw _ st' => st' = st
    end.
Proof.
  intros option val st. unfold set.
  destruct (hasOwnProperty (VObj (config st)) option) as [top | e];
    [ | reflexivity].
  destruct (top && _validate option val st) eqn:Htop.
  - apply andb_prop in Htop. destruct Htop as [_ Hv]. cbn.
    repeat split. exact Hv.
  - destruct (indexOf_pos "." option); [ | reflexivity].
    destruct (cut "." option) as [h t]. destruct (pop h t) as [nested prop].
    destruct (walk (VObj (config st)) nested) as [[cfg | ] | e];
      try reflexivity.
    destruct (hasOwnProperty cfg prop) as [b | e]; [ | reflexivity].
    destruct (b && _validate option val st) eqn:Hleaf; [ | reflexivity].
    apply andb_prop in Hleaf.
    destruct Hleaf as [_ Hv].
    destruct (assign_root (config st) nested prop val); [ | reflexivity].
    cbn. repeat split. exact Hv.
Qed.

(** A value that the rule of the key rejects is never set. *)
Lemma set_rejected_value :
  forall (option : string) (val : value) (st : Store),
    _validate option val st = false ->
    returned (set option val st) <> Some true
    /\ final (set option val st) = st.
Proof.
  intros option val st Hrule.
  pose proof (set_contract option val st) as Hc.
  destruct (set option val st) as [[ | ] st' | e st']; cbn.
  - destruct Hc as (_ & Hv & _). congruence.
  - split; [discriminate | exact Hc].
  - split; [discriminate | exact Hc].
Qed.

(** A key without dot that the tree lacks is rejected. *)
Lemma set_missing_plain_key :
  forall (option : string) (val : value) (st : Store),
    has_method (VObj (config st)) = true ->
    indexOf_pos "." option = false ->
    lookup option (config st) = None ->
    set option val st = Ret false st.
Proof.
  intros option val st Hm Hdot Hmiss. unfold set.
  rewrite (hasOwnProperty_method _ _ Hm). cbn [own_property].
  rewrite Hmiss, Hdot. reflexivity.
Qed.

(** A key without dot that the tree has is set, when the value is
    valid, to the value given. *)
Lemma set_plain_key :
  forall (option : string) (val old : value) (st : Store),
    has_method (VObj (config st)) = true ->
    lookup option (config st) = Some old ->
    _validate option val st = true ->
    exists st',
      set option val st = Ret true st'
      /\ lookup option (config st') = Some val
      /\ emitted st' = S (emitted st).
Proof.
  intros option val old st Hm Hold Hrule. unfold set.
  rewrite (hasOwnProperty_method _ _ Hm). cbn [own_property].
  rewrite Hold, Hrule. cbn. eexists. split; [reflexivity | ].
  split; [ | reflexivity]. cbn. clear Hm.
  induction (config st) as [ | [k v] rest IH ]; [discriminate | ].
  cbn in Hold |- *. destruct (String.eqb k option) eqn:Hk.
  - cbn. rewrite Hk. reflexivity.
  - cbn. rewrite Hk. exact (IH Hold).
Qed.

Lemma cut_without_sep :
  forall (sep : ascii) (s : string),
    indexOf sep s = None -> cut sep s = (s, []).
Proof.
  intros sep s. induction s as [ | a r IH ]; cbn; [reflexivity | ].
  destruct (Ascii.eqb a sep); [discriminate | ].
  destruct (indexOf sep r); [discriminate | ].
  intros _. now rewrite IH.
Qed.

Lemma cut_with_sep :
  forall (sep : ascii) (s : string),
    indexOf sep s <> None -> snd (cut sep s) <> [].
Proof.
  intros sep s. induction s as [ | a r IH ]; cbn; [congruence | ].
  destruct (cut sep r) as [h t]. destruct (Ascii.eqb a sep); cbn.
  - discriminate.
  - destruct (indexOf sep r); [intros _; apply IH; discriminate | congruence].
Qed.

Lemma indexOf_app_sep :
  forall (sep : ascii) (a b : string),
    indexOf sep a = None ->
    indexOf sep (a ++ String sep b) = Some (String.length a).
Proof.
  intros sep a b. induction a as [ | c a IH ]; cbn.
  - intros _. now rewrite Ascii.eqb_refl.
  - destruct (Ascii.eqb c sep); [discriminate | ].
    destruct (indexOf sep a); [discriminate | ].
    intros _. now rewrite IH.
Qed.

Lemma cut_two_fields :
  forall (sep : ascii) (a b : string),
    indexOf sep a = None -> indexOf sep b = None ->
    cut sep (a ++ String sep b) = (a, [b]).
Proof.
  intros sep a b Ha Hb. induction a as [ | c a IH ]; cbn in Ha |- *.
  - rewrite Ascii.eqb_refl. now rewrite (cut_without_sep _ _ Hb).
  - destruct (Ascii.eqb c sep); [discriminate | ].
    destruct (indexOf sep a); [discriminate | ].
    now rewrite IH.
Qed.

(** Whatever the rules and the value: a key [parent.leaf] below an
    option that holds [null] makes [set] throw. *)
Lemma set_below_null :
  forall (parent leaf : string) (val : value) (st : Store),
    parent <> "" ->
    indexOf "." parent = None -> indexOf "." leaf = None ->
    has_method (VObj (config st)) = true ->
    lookup parent (config st) = Some VNull ->
    lookup (parent ++ "." ++ leaf) (config st) = None ->
    set (parent ++ "." ++ leaf) val st = Throw TypeError st.
Proof.
  intros parent leaf val st Hne Hp Hl Hm Hnull Hmiss. unfold set.
  rewrite (hasOwnProperty_method _ _ Hm). cbn [own_property].
  rewrite Hmiss. cbn [andb].
  unfold indexOf_pos. cbn [String.append].
  rewrite (indexOf_app_sep _ _ _ Hp), (cut_two_fields _ _ _ Hp Hl).
  destruct parent as [ | c parent ]; [contradiction | ].
  cbn [String.length pop walk].
  rewrite (hasOwnProperty_method _ _ Hm). unfold read. cbn [own_property].
  rewrite Hnull. reflexivity.
Qed.

(** C2: on the template, [set('lastFile.x', 1)] addresses a key that
    the tree lacks, below the option [lastFile] that holds [null]; the
    call does not return [false], it throws a [TypeError]. *)
Theorem set_below_null_throws :
  set "lastFile.x" (VNum 1) fresh_store = Throw TypeError fresh_store.
Proof. vm_compute. reflexivity. Qed.

(** [get] throws on the same key. *)
Lemma get_below_null_throws :
  get "lastFile.x" fresh_store = Abrupt TypeError.
Proof. vm_compute. reflexivity. Qed.

(** ** Which operations notify *)

Lemma sortPaths_silent :
  forall st : Store, emitted (final (_sortPaths st)) = emitted st.
Proof. intro st. unfold _sortPaths. case_matches; reflexivity. Qed.

Lemma prune_selectedDicts_silent :
  forall st : Store, emitted (final (prune_selectedDicts st)) = emitted st.
Proof. intro st. unfold prune_selectedDicts. case_matches; reflexivity. Qed.

Lemma checkPaths_silent :
  forall st : Store, emitted (final (checkPaths st)) = emitted st.
Proof.
  intro st. unfold checkPaths.
  assert (Hd : forall paths st1,
             emitted st1 = emitted st ->
             emitted (final
                        match _sortPaths (set_openPaths (map VStr (uniq paths)) st1) with
                        | Ret _ st2 => prune_selectedDicts st2
                        | Throw e st2 => Throw e st2
                        end) = emitted st).
  { intros paths st1 H1.
    pose proof (sortPaths_silent (set_openPaths (map VStr (uniq paths)) st1)) as Hs.
    destruct (_sortPaths (set_openPaths (map VStr (uniq paths)) st1)) as [u st2 | e st2];
      cbn in Hs.
    - rewrite prune_selectedDicts_silent, Hs. exact H1.
    - cbn. rewrite Hs. exact H1. }
  destruct (read (VObj (config (with_disk (mkdir_dict (disk st)) st))) "openPaths");
    try reflexivity.
  - destruct (forallb lstat_ok (chars s)); [apply Hd; reflexivity | reflexivity].
  - apply Hd. reflexivity.
Qed.

(** C10: [addPath], [removePath] and [checkPaths] emit nothing,
    whatever they do to the list; [set] emits once when it returns
    [true] and not otherwise; [update] emits when it completes. *)
Theorem only_set_and_update_notify :
  forall st : Store,
    (forall p, emitted (final (addPath p st)) = emitted st)
    /\ (forall p, emitted (final (removePath p st)) = emitted st)
    /\ emitted (final (checkPaths st)) = emitted st
    /\ (forall option val,
          emitted (final (set option val st))
          = match returned (set option val st) with
            | Some true => S (emitted st)
            | _ => emitted st
            end)
    /\ (forall newcfg st',
          update newcfg st = Ret tt st' -> emitted st < emitted st').
Proof.
  intro st. repeat split.
  - intro p. unfold addPath.
    destruct (negb (ignoreFile p) || isDir p); [ | reflexivity].
    destruct (read (VObj (config st)) "openPaths") as [ | | | s | l | ];
      try reflexivity.
    + destruct (contains s p); reflexivity.
    + destruct (negb (includes p l)); [ | reflexivity].
      pose proof (sortPaths_silent (set_openPaths (l ++ [VStr p]) st)) as Hs.
      destruct (_sortPaths (set_openPaths (l ++ [VStr p]) st)); exact Hs.
  - intro p. unfold removePath. case_matches; reflexivity.
  - apply checkPaths_silent.
  - intros option val. pose proof (set_contract option val st) as Hc.
    destruct (set option val st) as [[ | ] st' | e st']; cbn.
    + destruct Hc as [He _]. exact He.
    + rewrite Hc. reflexivity.
    + rewrite Hc. reflexivity.
  - intros newcfg st' Hrun.
    destruct (update_outcome newcfg st) as (_ & Hret & Hthrow).
    destruct (mergeable newcfg (VObj (config st))).
    + destruct (Hret eq_refl) as (es & Hrun' & _).
      rewrite Hrun' in Hrun. injection Hrun as <-. cbn. lia.
    + destruct (Hthrow eq_refl) as (err & st2 & Hrun').
      rewrite Hrun' in Hrun. discriminate.
Qed.

(** ** The order of strings and the sort *)

Lemma compare_as_OT :
  forall a b : string, String.compare a b = String_as_OT.compare a b.
Proof.
  induction a as [ | x a IH ]; destruct b as [ | y b ]; cbn; reflexivity.
Qed.

Lemma leb_iff :
  forall a b : string,
    String.leb a b = true <-> (a = b \/ String_as_OT.lt a b).
Proof.
  intros a b. unfold String.leb. rewrite compare_as_OT.
  pose proof (@StrictOrder_Irreflexive _ _ String_as_OT.lt_strorder) as Hirr.
  pose proof (@StrictOrder_Transitive _ _ String_as_OT.lt_strorder) as Htr.
  unfold Irreflexive, Reflexive, complement, Transitive in Hirr, Htr.
  destruct (String_as_OT.compare_spec a b) as [Hab | Hab | Hab].
  - split; auto.
  - split; auto.
  - split; [discriminate | ]. intros [-> | H]; exfalso; eauto.
Qed.

Lemma str_le_trans : forall a b c : string, str_le a b -> str_le b c -> str_le a c.
Proof.
  intros a b c. unfold str_le. rewrite !leb_iff.
  pose proof (@StrictOrder_Transitive _ _ String_as_OT.lt_strorder) as Htr.
  unfold Transitive in Htr.
  intros [-> | Hab] [-> | Hbc]; eauto.
Qed.

Lemma str_le_total : forall a b : string, String.leb a b = false -> str_le b a.
Proof.
  intros a b H. destruct (String.leb_total a b) as [H' | H']; [congruence | exact H'].
Qed.

Lemma insert_sorted_perm :
  forall (x : string) (l : list string), Permutation (x :: l) (insert_sorted x l).
Proof.
  intros x l. induction l as [ | y r IH ]; cbn; [reflexivity | ].
  destruct (String.leb x y); [reflexivity | ].
  rewrite perm_swap. constructor. exact IH.
Qed.

Lemma sort_perm : forall l : list string, Permutation l (sort l).
Proof.
  induction l as [ | x r IH ]; cbn; [constructor | ].
  rewrite <- insert_sorted_perm. constructor. exact IH.
Qed.

Lemma insert_sorted_sorted :
  forall (x : string) (l : list string),
    StronglySorted str_le l -> StronglySorted str_le (insert_sorted x l).
Proof.
  intros x l Hs. induction Hs as [ | y r Hr IH Hall ]; cbn.
  - repeat constructor.
  - destruct (String.leb x y) eqn:Hxy.
    + constructor; [constructor; assumption | ].
      constructor; [exact Hxy | ].
      eapply Forall_impl; [ | exact Hall]. intros z Hz.
      eapply str_le_trans; [exact Hxy | exact Hz].
    + constructor; [exact IH | ].
      eapply Permutation_Forall; [apply insert_sorted_perm | ].
      constructor; [apply str_le_total; exact Hxy | exact Hall].
Qed.

Lemma sort_sorted : forall l : list string, StronglySorted str_le (sort l).
Proof.
  induction l as [ | x r IH ]; cbn; [constructor | ].
  apply insert_sorted_sorted. exact IH.
Qed.

Lemma filter_split_perm :
  forall (f : string -> bool) (l : list string),
    Permutation l (filter (fun p => negb (f p)) l ++ filter f l).
Proof.
  intros f l. induction l as [ | x r IH ]; cbn; [constructor | ].
  destruct (f x); cbn.
  - apply Permutation_cons_app. exact IH.
  - constructor. exact IH.
Qed.

Lemma sortPaths_list_perm :
  forall l : list string, Permutation l (sortPaths_list l).
Proof.
  intro l. unfold sortPaths_list.
  rewrite <- !sort_perm. apply filter_split_perm.
Qed.

Lemma sortPaths_list_ordered :
  forall l : list string, files_then_dirs (sortPaths_list l).
Proof.
  intro l. unfold sortPaths_list.
  exists (sort (filter (fun p => negb (isDir p)) l)), (sort (filter isDir l)).
  split; [reflexivity | ].
  split; [ | split; [ | split; apply sort_sorted ] ].
  - eapply Permutation_Forall; [apply sort_perm | ].
    apply Forall_forall. intros p Hp. apply filter_In in Hp.
    destruct Hp as [_ Hp]. now apply negb_true_iff in Hp.
  - eapply Permutation_Forall; [apply sort_perm | ].
    apply Forall_forall. intros p Hp. apply filter_In in Hp.
    destruct Hp as [_ Hp]. exact Hp.
Qed.

Lemma uniq_incl : forall (l : list string) (x : string), In x (uniq l) -> In x l.
Proof.
  induction l as [ | y r IH ]; cbn; [intros x []  | ].
  intros x [-> | Hx]; [now left | ].
  apply filter_In in Hx. right. apply IH. destruct Hx as [Hx _]. exact Hx.
Qed.

Lemma uniq_NoDup : forall l : list string, NoDup (uniq l).
Proof.
  induction l as [ | x r IH ]; cbn; constructor.
  - intro Hin. apply filter_In in Hin. destruct Hin as [_ Hne].
    rewrite String.eqb_refl in Hne. discriminate.
  - apply NoDup_filter. exact IH.
Qed.

(** ** The list of open paths *)

Lemma lookup_store_same :
  forall (k : string) (v : value) (c : object), lookup k (store k v c) = Some v.
Proof.
  intros k v c. induction c as [ | [k' v'] r IH ]; cbn.
  - now rewrite String.eqb_refl.
  - destruct (String.eqb k' k) eqn:Hk; cbn; rewrite Hk; [reflexivity | exact IH].
Qed.

Lemma lookup_store_other :
  forall (k k' : string) (v : value) (c : object),
    k <> k' -> lookup k (store k' v c) = lookup k c.
Proof.
  intros k k' v c Hne. induction c as [ | [k2 v2] r IH ]; cbn.
  - destruct (String.eqb k' k) eqn:Hk; [ | reflexivity].
    apply String.eqb_eq in Hk. congruence.
  - destruct (String.eqb k2 k') eqn:Hk2; cbn.
    + apply String.eqb_eq in Hk2. subst k2.
      destruct (String.eqb k' k) eqn:Hk; [ | reflexivity].
      apply String.eqb_eq in Hk. congruence.
    + destruct (String.eqb k2 k); [reflexivity | exact IH].
Qed.

Lemma read_set_openPaths :
  forall (l : list value) (st : Store),
    read (VObj (config (set_openPaths l st))) "openPaths" = VArr l.
Proof.
  intros l st. unfold read, set_openPaths. cbn.
  now rewrite lookup_store_same.
Qed.

Lemma strings_of_map : forall l : list string, strings_of (map VStr l) = Some l.
Proof.
  induction l as [ | x r IH ]; cbn; [reflexivity | now rewrite IH].
Qed.

Lemma sortPaths_array_strings :
  forall l : list string,
    sortPaths_array (map VStr l) = map VStr (sortPaths_list l).
Proof. intro l. unfold sortPaths_array. now rewrite strings_of_map. Qed.

Lemma includes_map :
  forall (p : string) (l : list string),
    includes p (map VStr l) = true <-> In p l.
Proof.
  intros p l. unfold includes. rewrite existsb_exists. split.
  - intros (v & Hin & Hv). apply in_map_iff in Hin.
    destruct Hin as (s & <- & Hs). cbn in Hv. apply String.eqb_eq in Hv.
    now subst.
  - intro Hin. exists (VStr p). split; [now apply in_map | ].
    cbn. apply String.eqb_refl.
Qed.

Lemma remove_first_map :
  forall (p : string) (l : list string),
    remove_first p (map VStr l) = map VStr (remove_str p l).
Proof.
  intros p l. induction l as [ | s r IH ]; cbn; [reflexivity | ].
  destruct (String.eqb s p); [reflexivity | ]. cbn. now rewrite IH.
Qed.

Lemma remove_str_incl :
  forall (p x : string) (l : list string), In x (remove_str p l) -> In x l.
Proof.
  intros p x l. induction l as [ | s r IH ]; cbn; [intros [] | ].
  destruct (String.eqb s p); cbn.
  - intro Hx. now right.
  - intros [-> | Hx]; [now left | right; now apply IH].
Qed.

Lemma remove_str_NoDup :
  forall (p : string) (l : list string), NoDup l -> NoDup (remove_str p l).
Proof.
  intros p l Hnd. induction Hnd as [ | s r Hnotin Hr IH ]; cbn; [constructor | ].
  destruct (String.eqb s p); [exact Hr | ].
  constructor; [ | exact IH]. intro Hin. apply Hnotin.
  eapply remove_str_incl. exact Hin.
Qed.

Lemma remove_str_Forall :
  forall (P : string -> Prop) (p : string) (l : list string),
    Forall P l -> Forall P (remove_str p l).
Proof.
  intros P p l Hall. apply Forall_forall. intros x Hx.
  rewrite Forall_forall in Hall. apply Hall. eapply remove_str_incl. exact Hx.
Qed.

Lemma remove_str_sorted :
  forall (p : string) (l : list string),
    StronglySorted str_le l -> StronglySorted str_le (remove_str p l).
Proof.
  intros p l Hs. induction Hs as [ | s r Hr IH Hall ]; cbn; [constructor | ].
  destruct (String.eqb s p); [exact Hr | ].
  constructor; [exact IH | ]. apply remove_str_Forall. exact Hall.
Qed.

Lemma remove_str_app :
  forall (p : string) (f d : list string),
    remove_str p (f ++ d)
    = if existsb (fun s => String.eqb s p) f then remove_str p f ++ d
      else f ++ remove_str p d.
Proof.
  intros p f d. induction f as [ | s r IH ]; cbn; [reflexivity | ].
  destruct (String.eqb s p); cbn; [reflexivity | ].
  rewrite IH. destruct (existsb (fun s0 => String.eqb s0 p) r); reflexivity.
Qed.

Lemma remove_str_ordered :
  forall (p : string) (l : list string),
    files_then_dirs l -> files_then_dirs (remove_str p l).
Proof.
  intros p l (f & d & -> & Hf & Hd & Hsf & Hsd).
  rewrite remove_str_app.
  destruct (existsb (fun s => String.eqb s p) f).
  - exists (remove_str p f), d.
    repeat split; auto using remove_str_Forall, remove_str_sorted.
  - exists f, (remove_str p d).
    repeat split; auto using remove_str_Forall, remove_str_sorted.
Qed.

(** The pruning loop keeps exactly the entries that pass the test. *)
Lemma prune_loop_filter :
  forall (A : Type) (keep : A -> bool) (fuel : nat) (pre post : list A),
    List.length post <= fuel ->
    prune_loop keep fuel (List.length pre) (pre ++ post)
    = pre ++ filter keep post.
Proof.
  intros A keep fuel. induction fuel as [ | f IH ]; intros pre post Hlen.
  - destruct post; [ | cbn in Hlen; lia]. reflexivity.
  - destruct post as [ | x post' ].
    + cbn. rewrite app_nil_r.
      replace (nth_error pre (List.length pre)) with (@None A);
        [reflexivity | ].
      symmetry. apply nth_error_None. lia.
    + cbn [prune_loop filter].
      rewrite nth_error_app2 by lia. rewrite Nat.sub_diag. cbn [nth_error].
      cbn in Hlen. destruct (keep x).
      * replace (pre ++ x :: post') with ((pre ++ [x]) ++ post')
          by (rewrite <- app_assoc; reflexivity).
        replace (S (List.length pre)) with (List.length (pre ++ [x]))
          by (rewrite length_app; cbn; lia).
        rewrite IH by lia. rewrite <- app_assoc. reflexivity.
      * replace (splice1 (List.length pre) (pre ++ x :: post')) with (pre ++ post').
        -- apply IH. lia.
        -- clear. induction pre as [ | y r IHr ]; cbn; [reflexivity | ].
           now rewrite <- IHr.
Qed.

Lemma prune_filter :
  forall (A : Type) (keep : A -> bool) (l : list A),
    prune keep l = filter keep l.
Proof.
  intros A keep l. unfold prune.
  exact (prune_loop_filter A keep (List.length l) [] l (le_n _)).
Qed.

Lemma open_paths_sorted :
  forall (l : list string) (st : Store),
    NoDup l ->
    open_paths_are (sortPaths_list l)
      (set_openPaths (map VStr (sortPaths_list l)) st).
Proof.
  intros l st Hnd. split; [apply read_set_openPaths | ]. split.
  - eapply Permutation_NoDup; [apply sortPaths_list_perm | exact Hnd].
  - apply sortPaths_list_ordered.
Qed.

Lemma sortPaths_keeps :
  forall (l : list string) (st : Store),
    open_paths_are l st ->
    exists l', open_paths_are l' (final (_sortPaths st)).
Proof.
  intros l st (Hread & Hnd & Hord). unfold _sortPaths. rewrite Hread.
  cbn [final]. rewrite sortPaths_array_strings.
  eexists. apply open_paths_sorted. exact Hnd.
Qed.

Lemma addPath_keeps :
  forall (l : list string) (p : string) (st : Store),
    open_paths_are l st ->
    exists l', open_paths_are l' (final (addPath p st)).
Proof.
  intros l p st Hinv. pose proof Hinv as (Hread & Hnd & Hord).
  unfold addPath. rewrite Hread.
  destruct (negb (ignoreFile p) || isDir p); [ | exists l; exact Hinv].
  destruct (includes p (map VStr l)) eqn:Hinc; cbn [negb final];
    [exists l; exact Hinv | ].
  unfold _sortPaths. rewrite read_set_openPaths. cbn [final].
  replace (map VStr l ++ [VStr p]) with (map VStr (l ++ [p]))
    by (rewrite map_app; reflexivity).
  rewrite sortPaths_array_strings.
  eexists. apply open_paths_sorted.
  apply NoDup_app; [exact Hnd | repeat constructor; intros [] | ].
  intros x Hx [<- | []].
  apply includes_map in Hx. congruence.
Qed.

Lemma removePath_keeps :
  forall (l : list string) (p : string) (st : Store),
    open_paths_are l st ->
    exists l', open_paths_are l' (final (removePath p st)).
Proof.
  intros l p st Hinv. pose proof Hinv as (Hread & Hnd & Hord).
  unfold removePath. rewrite Hread.
  destruct (includes p (map VStr l)); cbn [final]; [ | exists l; exact Hinv].
  exists (remove_str p l). rewrite remove_first_map.
  split; [apply read_set_openPaths | ].
  split; [apply remove_str_NoDup; exact Hnd | apply remove_str_ordered; exact Hord].
Qed.

Lemma prune_selectedDicts_keeps :
  forall (l : list string) (st : Store),
    open_paths_are l st -> open_paths_are l (final (prune_selectedDicts st)).
Proof.
  intros l st Hinv. unfold prune_selectedDicts.
  case_matches; cbn [final]; try exact Hinv.
  destruct Hinv as (Hread & Hrest). split; [ | exact Hrest].
  unfold read in Hread |- *. cbn in Hread |- *.
  rewrite lookup_store_other by discriminate. exact Hread.
Qed.

Lemma checkPaths_establishes :
  forall st st' : Store,
    checkPaths st = Ret tt st' -> exists l, open_paths_are l st'.
Proof.
  intros st st'. unfold checkPaths.
  set (st1 := with_disk (mkdir_dict (disk st)) st).
  assert (Hd : forall paths,
             match _sortPaths (set_openPaths (map VStr (uniq paths)) st1) with
             | Ret _ st2 => prune_selectedDicts st2
             | Throw e st2 => Throw e st2
             end = Ret tt st' ->
             exists l, open_paths_are l st').
  { intros paths. unfold _sortPaths. rewrite read_set_openPaths.
    rewrite sortPaths_array_strings. intro Hrun.
    exists (sortPaths_list (uniq paths)).
    replace st' with (final (prune_selectedDicts
                               (set_openPaths (map VStr (sortPaths_list (uniq paths)))
                                  (set_openPaths (map VStr (uniq paths)) st1))))
      by (rewrite Hrun; reflexivity).
    apply prune_selectedDicts_keeps. apply open_paths_sorted. apply uniq_NoDup. }
  destruct (read (VObj (config st1)) "openPaths"); try discriminate.
  - destruct (forallb lstat_ok (chars s)); [apply Hd | discriminate].
  - apply Hd.
Qed.

(** A plain key other than [openPaths] is set without a change to the
    list of open paths. *)
Lemma set_other_key_keeps_paths :
  forall (option : string) (val : value) (st : Store),
    indexOf "." option = None -> option <> "openPaths" ->
    read (VObj (config (final (set option val st)))) "openPaths"
    = read (VObj (config st)) "openPaths".
Proof.
  intros option val st Hdot Hkey. unfold set, indexOf_pos. rewrite Hdot.
  destruct (hasOwnProperty (VObj (config st)) option) as [top | e];
    [ | reflexivity].
  destruct (top && _validate option val st); [ | reflexivity].
  unfold read. cbn. now rewrite lookup_store_other.
Qed.

(** C6, as amended: once pruned at startup, and as long as nothing but
    [addPath], [removePath] and [_sortPaths] writes it, the list of
    open paths holds no path twice and has the files before the
    directories, each group ascending, after every one of these
    operations; and [addPath] returns [false] on a path that is in the
    list. *)
Theorem open_paths_unique_and_ordered :
  forall st : Store,
    path_run st ->
    exists l : list string,
      read (VObj (config st)) "openPaths" = VArr (map VStr l)
      /\ NoDup l
      /\ files_then_dirs l
      /\ forall p, In p l -> addPath p st = Ret false st.
Proof.
  intros st Hrun.
  assert (Hinv : exists l, open_paths_are l st).
  { induction Hrun as [ st st' Hcheck | st p _ [l IH] | st p _ [l IH]
                      | st _ [l IH] | st st' _ [l IH] Hsame ].
    - eapply checkPaths_establishes. exact Hcheck.
    - eapply addPath_keeps. exact IH.
    - eapply removePath_keeps. exact IH.
    - eapply sortPaths_keeps. exact IH.
    - exists l. destruct IH as (Hread & Hrest).
      split; [now rewrite Hsame | exact Hrest]. }
  destruct Hinv as (l & Hread & Hnd & Hord).
  exists l. repeat split; try assumption.
  intros p Hp. unfold addPath. rewrite Hread.
  apply includes_map in Hp. rewrite Hp.
  destruct (negb (ignoreFile p) || isDir p); reflexivity.
Qed.

(** ** Locales *)

Lemma first_supported_find :
  forall (mainlang : string) (lang : option string) (sups : list string),
    first_supported mainlang lang sups
    = match find (tag_matches mainlang lang) sups with
      | Some tag => tag
      | None => "en_US"
      end.
Proof.
  intros mainlang lang sups. induction sups as [ | sup rest IH ]; [reflexivity | ].
  cbn [first_supported find]. unfold tag_matches at 1.
  destruct (String.eqb (first_part "_" sup) mainlang); cbn [andb]; [ | exact IH].
  destruct lang as [l | ]; [ | reflexivity].
  destruct (second_part "_" sup) as [s | ]; [ | exact IH].
  destruct (String.eqb s l); [reflexivity | exact IH].
Qed.

(** [getLocale] as a search with the fields the code takes. *)
Lemma getLocale_find :
  forall (raw : string) (sups : list string),
    let main := first_part "-" raw in
    let sub := if indexOf_found "-" raw then second_part "-" raw else None in
    getLocale raw sups
    = match find (tag_matches main sub) sups with
      | Some tag => tag
      | None => "en_US"
      end
    /\ (sub = None <-> indexOf_found "-" raw = false).
Proof.
  intros raw sups main sub. subst main sub. unfold getLocale, indexOf_found.
  destruct (indexOf "-" raw) as [i | ] eqn:Hdash.
  - split; [apply first_supported_find | ].
    split; [ | discriminate]. intro Hnone. exfalso.
    assert (Hsep : indexOf "-" raw <> None) by congruence.
    apply cut_with_sep in Hsep. unfold second_part, split in Hnone.
    destruct (cut "-" raw) as [h [ | t ts]]; [now apply Hsep | discriminate].
  - split; [ | split; reflexivity]. unfold first_part.
    rewrite (cut_without_sep _ _ Hdash). apply first_supported_find.
Qed.

Lemma upto_spec :
  forall (n : nat) (cls : ascii -> bool) (k : matcher) (s : string),
    upto n cls k s = true
    <-> exists w rest,
          s = (w ++ rest)%string
          /\ 1 <= String.length w <= n
          /\ Forall (fun a => cls a = true) (list_ascii_of_string w)
          /\ k rest = true.
Proof.
  induction n as [ | m IH ]; intros cls k s.
  - cbn. split; [discriminate | ]. intros (w & rest & _ & Hlen & _). lia.
  - destruct s as [ | a r ].
    + cbn. split; [discriminate | ].
      intros ([ | b w] & rest & Heq & Hlen & _); [cbn in Hlen; lia | discriminate].
    + cbn [upto]. rewrite andb_true_iff, orb_true_iff, IH. split.
      * intros [Ha [(w & rest & -> & Hlen & Hall & Hk) | Hk]].
        -- exists (String a w), rest. cbn. repeat split; auto; lia.
        -- exists (String a ""), r. cbn. repeat split; auto; lia.
      * intros ([ | b w] & rest & Heq & Hlen & Hall & Hk); [cbn in Hlen; lia | ].
        cbn in Heq, Hlen, Hall. injection Heq as -> ->.
        inversion Hall as [ | ? ? Hb Hw ]; subst.
        split; [exact Hb | ].
        destruct w as [ | c w ]; [right; exact Hk | left].
        exists (String c w), rest. cbn in Hlen |- *. repeat split; auto; lia.
Qed.

Lemma lit_spec :
  forall (w : string) (k : matcher) (s : string),
    lit w k s = true <-> exists rest, s = (w ++ rest)%string /\ k rest = true.
Proof.
  induction w as [ | a w IH ]; intros k s; cbn.
  - split; [intro Hk; now exists s | intros (rest & -> & Hk); exact Hk].
  - destruct s as [ | b r ].
    + split; [discriminate | intros (rest & Heq & _); discriminate].
    + rewrite andb_true_iff, IH. split.
      * intros [Hab (rest & -> & Hk)]. apply Ascii.eqb_eq in Hab. subst b.
        now exists rest.
      * intros (rest & Heq & Hk). injection Heq as -> ->.
        split; [apply Ascii.eqb_refl | now exists rest].
Qed.

Lemma anywhere_spec :
  forall (m : matcher) (s : string),
    anywhere m s = true
    <-> exists before rest, s = (before ++ rest)%string /\ m rest = true.
Proof.
  intros m s. induction s as [ | a r IH ]; cbn.
  - rewrite orb_false_r. split.
    + intro Hm. now exists "", "".
    + intros ([ | ] & rest & Heq & Hm); [ | discriminate].
      cbn in Heq. now subst.
  - rewrite orb_true_iff, IH. split.
    + intros [Hm | (before & rest & -> & Hm)].
      * now exists "", (String a r).
      * now exists (String a before), rest.
    + intros ([ | b before] & rest & Heq & Hm).
      * left. cbn in Heq. now subst.
      * right. cbn in Heq. injection Heq as -> ->. now exists before, rest.
Qed.

(** The directory test of [getDictionaries] admits the strict tags and
    nothing else. *)
Lemma dict_dir_test_strict :
  forall d : string, dict_dir_test d = true <-> strict_tag d.
Proof.
  intro d. unfold dict_dir_test, strict_tag, letters.
  rewrite upto_spec. split.
  - intros (l & rest & -> & Hlen & Hall & Hlit).
    apply lit_spec in Hlit. destruct Hlit as (rest' & -> & Hup).
    apply upto_spec in Hup. destruct Hup as (u & tail & -> & Hlen' & Hall' & Hend).
    destruct tail; [ | discriminate].
    exists l, u. repeat split; auto; try lia.
    f_equal. cbn. f_equal. clear. induction u; cbn; congruence.
  - intros (l & u & [Hlen Hall] & [Hlen' Hall'] & ->).
    exists l, ("_" ++ u)%string. repeat split; auto; try lia.
    apply lit_spec. exists u. split; [reflexivity | ].
    apply upto_spec. exists u, "". repeat split; auto; try lia.
    clear. induction u; cbn; congruence.
Qed.

(** So every tag of [getDictionaries] is a strict one. *)
Lemma getDictionaries_strict :
  forall (dirs : list string) (user_dirs : option (list string)) (d : string),
    In d (getDictionaries dirs user_dirs) -> strict_tag d.
Proof.
  intros dirs user_dirs d Hin. unfold getDictionaries, dict_dirs in Hin.
  apply dict_dir_test_strict.
  apply in_app_or in Hin. destruct Hin as [Hin | Hin].
  - apply filter_In in Hin. destruct Hin as [_ Ht].
    apply andb_prop in Ht. destruct Ht as [Ht _].
    apply andb_prop in Ht. destruct Ht as [Ht _]. exact Ht.
  - destruct user_dirs as [ds | ]; [ | contradiction].
    apply filter_In in Hin. destruct Hin as [_ Ht].
    apply andb_prop in Ht. destruct Ht as [Ht _].
    apply andb_prop in Ht. destruct Ht as [Ht _]. exact Ht.
Qed.

(** The file test of [getSupportedLangs] looks for the shape anywhere
    in the name. *)
Lemma lang_file_test_anywhere :
  forall f : string,
    lang_file_test f = true
    <-> exists before l u rest,
          letters lower l /\ letters upper u
          /\ f = (before ++ l ++ "_" ++ u ++ ".json" ++ rest)%string.
Proof.
  intro f. unfold lang_file_test, letters. rewrite anywhere_spec. split.
  - intros (before & tail & -> & Hm).
    apply upto_spec in Hm. destruct Hm as (l & t1 & -> & Hlen & Hall & Hm).
    apply lit_spec in Hm. destruct Hm as (t2 & -> & Hm).
    apply upto_spec in Hm. destruct Hm as (u & t3 & -> & Hlen' & Hall' & Hm).
    apply lit_spec in Hm. destruct Hm as (rest & -> & _).
    exists before, l, u, rest. repeat split; auto; lia.
  - intros (before & l & u & rest & [Hlen Hall] & [Hlen' Hall'] & ->).
    exists before, (l ++ "_" ++ u ++ ".json" ++ rest)%string.
    split; [reflexivity | ].
    apply upto_spec. exists l, ("_" ++ u ++ ".json" ++ rest)%string.
    repeat split; auto; try lia.
    apply lit_spec. exists (u ++ ".json" ++ rest)%string. split; [reflexivity | ].
    apply upto_spec. exists u, (".json" ++ rest)%string.
    repeat split; auto; try lia.
Qed.

(** C8: [getSupportedLangs] admits [english_US.json], whose name is
    not of the strict shape, and with it the tag [english_US]; so it
    does [en_US.json.bak]. *)
Theorem getSupportedLangs_admits_loose_names :
  getSupportedLangs ["english_US.json"; "en_US.json.bak"; "de_DE.json"] None
  = ["english_US"; "en_US.json"; "de_DE"].
Proof. vm_compute. reflexivity. Qed.

(** ** The search path *)

Lemma join_split :
  forall (sep : ascii) (s : string), join sep (split sep s) = s.
Proof.
  intros sep s. unfold join, split.
  induction s as [ | a r IH ]; [reflexivity | ].
  cbn [cut]. destruct (cut sep r) as [h t].
  destruct (Ascii.eqb a sep) eqn:Ha.
  - apply Ascii.eqb_eq in Ha. subst a.
    change (String.concat (String sep "") ("" :: h :: t))
      with (String sep (String.concat (String sep "") (h :: t))).
    now rewrite IH.
  - destruct t as [ | y t' ].
    + cbn in IH |- *. now rewrite IH.
    + change (String.concat (String sep "") (String a h :: y :: t'))
        with (String a (String.concat (String sep "") (h :: y :: t'))).
      now rewrite IH.
Qed.

Lemma cut_app :
  forall (sep : ascii) (a b : string),
    cut sep (a ++ String sep b)
    = (fst (cut sep a), snd (cut sep a) ++ split sep b).
Proof.
  intros sep a b. induction a as [ | c a' IH ].
  - cbn. unfold split. destruct (cut sep b) as [h t].
    now rewrite Ascii.eqb_refl.
  - cbn [String.append cut]. rewrite IH.
    destruct (cut sep a') as [h t]. cbn [fst snd].
    destruct (Ascii.eqb c sep); reflexivity.
Qed.

Lemma split_app :
  forall (sep : ascii) (a b : string),
    split sep (a ++ String sep b) = split sep a ++ split sep b.
Proof.
  intros sep a b. unfold split at 1 2. rewrite cut_app.
  destruct (cut sep a) as [h t]. reflexivity.
Qed.

Lemma split_sep_free :
  forall (sep : ascii) (s : string),
    Forall (fun x => indexOf sep x = None) (split sep s).
Proof.
  intros sep s. unfold split. induction s as [ | a r IH ].
  - repeat constructor.
  - cbn [cut]. destruct (cut sep r) as [h t].
    destruct (Ascii.eqb a sep) eqn:Ha.
    + constructor; [reflexivity | exact IH].
    + inversion IH as [ | ? ? Hh Ht ]; subst.
      constructor; [ | exact Ht]. cbn. now rewrite Ha, Hh.
Qed.

Lemma split_join :
  forall (sep : ascii) (l : list string),
    l <> [] ->
    Forall (fun x => indexOf sep x = None) l ->
    split sep (join sep l) = l.
Proof.
  intros sep l Hne Hfree. unfold join.
  induction Hfree as [ | x r Hx Hr IH ]; [contradiction | ].
  destruct r as [ | y r' ].
  - cbn. unfold split. now rewrite (cut_without_sep _ _ Hx).
  - change (String.concat (String sep "") (x :: y :: r'))
      with (x ++ String sep (String.concat (String sep "") (y :: r')))%string.
    rewrite split_app. rewrite IH by discriminate.
    unfold split. now rewrite (cut_without_sep _ _ Hx).
Qed.

Lemma listed_In :
  forall (x : string) (l : list string), listed x l = true <-> In x l.
Proof.
  intros x l. unfold listed. rewrite existsb_exists. split.
  - intros (y & Hy & Hxy). apply String.eqb_eq in Hxy. now subst.
  - intro Hx. exists x. split; [exact Hx | apply String.eqb_refl].
Qed.

Lemma covered_mono :
  forall (x : string) (l l' : list string),
    incl l l' -> covered x l = true -> covered x l' = true.
Proof.
  intros x l l' Hincl. unfold covered.
  rewrite !orb_true_iff, !listed_In. intros [H | H]; auto.
Qed.

Lemma add_paths_step :
  forall (x : string) (r l : list string),
    add_paths (x :: r) l
    = if covered x l then add_paths r l else add_paths r (l ++ [x]).
Proof.
  intros x r l. cbn [add_paths]. unfold covered.
  destruct (listed x l), (listed (other_form x) l); reflexivity.
Qed.

Lemma add_paths_extends :
  forall xs l : list string,
    exists extra, add_paths xs l = l ++ extra /\ incl extra xs.
Proof.
  induction xs as [ | x r IH ]; intro l.
  - exists []. split; [now rewrite app_nil_r | apply incl_refl].
  - rewrite add_paths_step. destruct (covered x l).
    + destruct (IH l) as (extra & -> & Hincl).
      exists extra. split; [reflexivity | now apply incl_tl].
    + destruct (IH (l ++ [x])) as (extra & -> & Hincl).
      exists (x :: extra). split; [now rewrite <- app_assoc | ].
      intros y [<- | Hy]; [now left | right; now apply Hincl].
Qed.

Lemma add_paths_covers :
  forall (xs l : list string) (x : string),
    In x xs -> covered x (add_paths xs l) = true.
Proof.
  induction xs as [ | y r IH ]; intros l x Hx; [contradiction | ].
  rewrite add_paths_step. destruct Hx as [-> | Hx].
  - destruct (covered x l) eqn:Hc.
    + destruct (add_paths_extends r l) as (extra & -> & _).
      eapply covered_mono; [ | exact Hc]. now apply incl_appl, incl_refl.
    + destruct (add_paths_extends r (l ++ [x])) as (extra & -> & _).
      unfold covered. apply orb_true_iff. left. apply listed_In.
      apply in_or_app. left. apply in_or_app. right. now left.
  - destruct (covered y l); now apply IH.
Qed.

Lemma add_paths_fixed :
  forall xs l : list string,
    (forall x, In x xs -> covered x l = true) -> add_paths xs l = l.
Proof.
  induction xs as [ | y r IH ]; intros l Hall; [reflexivity | ].
  rewrite add_paths_step. rewrite (Hall y) by now left.
  apply IH. intros x Hx. apply Hall. now right.
Qed.

(** A search path that has every additional directory, in one form or
    the other, is left as it is. *)
Lemma integrate_fixed :
  forall path : string,
    (forall x, In x _additional_paths -> covered x (split delim path) = true) ->
    integrate_additional path = path.
Proof.
  intros path Hall. unfold integrate_additional.
  destruct _additional_paths as [ | x r ] eqn:Hxs; [reflexivity | ].
  rewrite add_paths_fixed by exact Hall. apply join_split.
Qed.

Lemma integrate_covers :
  forall path : string,
    Forall (fun x => indexOf delim x = None) _additional_paths ->
    forall x, In x _additional_paths ->
      covered x (split delim (integrate_additional path)) = true.
Proof.
  intros path Hfree x Hx. unfold integrate_additional.
  destruct _additional_paths as [ | y r ] eqn:Hxs; [contradiction | ].
  rewrite split_join.
  - now apply add_paths_covers.
  - destruct (add_paths_extends (y :: r) (split delim path)) as (extra & -> & _).
    unfold split. destruct (cut delim path). discriminate.
  - destruct (add_paths_extends (y :: r) (split delim path)) as (extra & -> & Hin).
    apply Forall_app. split; [apply split_sep_free | ].
    rewrite Forall_forall in Hfree |- *. auto.
Qed.

Lemma prefix_refl : forall d : string, String.prefix d d = true.
Proof.
  induction d as [ | a d IH ]; cbn; [reflexivity | ].
  destruct (ascii_dec a a); [exact IH | contradiction].
Qed.

Lemma prefix_app :
  forall d p q : string,
    String.prefix d p = true -> String.prefix d (p ++ q) = true.
Proof.
  induction d as [ | a d IH ]; intros p q.
  - destruct (p ++ q)%string; reflexivity.
  - destruct p as [ | b p ]; cbn; [discriminate | ].
    destruct (ascii_dec a b); [apply IH | discriminate].
Qed.

Lemma contains_suffix : forall a d : string, contains (a ++ d) d = true.
Proof.
  induction a as [ | c a IH ]; intro d.
  - cbn [String.append]. destruct d; cbn; [reflexivity | ].
    apply orb_true_iff. left. apply (prefix_refl (String _ _)).
  - cbn [String.append contains]. rewrite IH. apply orb_true_r.
Qed.

Lemma contains_app :
  forall p q d : string, contains p d = true -> contains (p ++ q) d = true.
Proof.
  induction p as [ | c p IH ]; intros q d.
  - cbn. rewrite orb_false_r. intro Hd.
    destruct d; [ | discriminate]. destruct q; reflexivity.
  - cbn [String.append contains]. rewrite !orb_true_iff.
    intros [Hpre | Hin].
    + left. exact (prefix_app d (String c p) q Hpre).
    + right. now apply IH.
Qed.

Lemma add_dirname_contains :
  forall dir path : string,
    String.length dir = 0 \/ contains (add_dirname dir path) dir = true.
Proof.
  intros dir path. unfold add_dirname.
  destruct (Nat.ltb 0 (String.length dir)) eqn:Hlen.
  - right. destruct (contains path dir) eqn:Hc; cbn [negb]; [exact Hc | ].
    replace (path ++ String delim "" ++ dir)%string
      with ((path ++ String delim "") ++ dir)%string.
    + apply contains_suffix.
    + clear. induction path as [ | a p IH ]; cbn; [reflexivity | now rewrite IH].
  - left. apply Nat.ltb_ge in Hlen. lia.
Qed.

Lemma add_dirname_keeps :
  forall dir path d : string,
    contains path d = true -> contains (add_dirname dir path) d = true.
Proof.
  intros dir path d Hc. unfold add_dirname.
  destruct (Nat.ltb 0 (String.length dir)); [ | exact Hc].
  destruct (negb (contains path dir)); [ | exact Hc].
  now apply contains_app.
Qed.

Lemma add_dirname_fixed :
  forall dir path : string,
    String.length dir = 0 \/ contains path dir = true ->
    add_dirname dir path = path.
Proof.
  intros dir path [Hlen | Hc]; unfold add_dirname.
  - rewrite Hlen. reflexivity.
  - rewrite Hc. destruct (Nat.ltb 0 (String.length dir)); reflexivity.
Qed.

Lemma add_dirname_covered :
  forall (dir path x : string),
    covered x (split delim path) = true ->
    covered x (split delim (add_dirname dir path)) = true.
Proof.
  intros dir path x Hc. unfold add_dirname.
  destruct (Nat.ltb 0 (String.length dir)); [ | exact Hc].
  destruct (negb (contains path dir)); [ | exact Hc].
  cbn [String.append]. rewrite split_app.
  eapply covered_mono; [ | exact Hc]. now apply incl_appl, incl_refl.
Qed.

Lemma exec_dirname_with_PATH :
  forall (key path : string) (st : Store),
    exec_dirname key (with_PATH path st) = exec_dirname key st.
Proof. reflexivity. Qed.

Lemma exec_dirname_ensure_uuid :
  forall (key : string) (st : Store),
    key <> "uuid" -> indexOf_pos "." key = false ->
    exec_dirname key (ensure_uuid st) = exec_dirname key st.
Proof.
  intros key st Hne Hdot. unfold ensure_uuid.
  destruct (falsy (read (VObj (config st)) "uuid")); [ | reflexivity].
  unfold exec_dirname, get. rewrite Hdot.
  destruct (String.eqb key ""); [reflexivity | ].
  unfold hasOwnProperty, has_method, read, own_property. cbn [config with_config].
  rewrite !lookup_store_other by (assumption || discriminate).
  reflexivity.
Qed.

Lemma PATH_ensure_uuid :
  forall st : Store, PATH (ensure_uuid st) = PATH st.
Proof.
  intro st. unfold ensure_uuid.
  destruct (falsy (read (VObj (config st)) "uuid")); reflexivity.
Qed.

(** A second run of [checkSystem] on a search path that has the
    additional directories and the directories of the executables
    changes nothing in it. *)
Lemma checkSystem_settled :
  forall st : Store,
    (forall x, In x _additional_paths ->
               covered x (split delim (PATH st)) = true) ->
    (forall dx, exec_dirname "xelatex" st = Normal dx ->
                String.length dx = 0 \/ contains (PATH st) dx = true) ->
    (forall dx dp, exec_dirname "xelatex" st = Normal dx ->
                   exec_dirname "pandoc" st = Normal dp ->
                   String.length dp = 0 \/ contains (PATH st) dp = true) ->
    PATH (final (checkSystem st)) = PATH st.
Proof.
  intros st Hcov Hx Hp. unfold checkSystem.
  rewrite (integrate_fixed _ Hcov). rewrite exec_dirname_with_PATH.
  destruct (exec_dirname "xelatex" st) as [dx | e] eqn:Hxe; [ | reflexivity].
  cbn [PATH with_PATH]. rewrite (add_dirname_fixed _ _ (Hx dx eq_refl)).
  rewrite !exec_dirname_with_PATH.
  destruct (exec_dirname "pandoc" st) as [dp | e] eqn:Hpa; [ | reflexivity].
  cbn [final]. rewrite PATH_ensure_uuid. cbn [PATH with_PATH].
  apply add_dirname_fixed. now apply (Hp dx dp).
Qed.

(** C9: when no additional directory of the platform holds the
    delimiter of the search path, a second run of [checkSystem] leaves
    the search path of the first run as it is. *)
Theorem checkSystem_path_idempotent :
  Forall (fun x => indexOf delim x = None) _additional_paths ->
  forall st : Store,
    PATH (final (checkSystem (final (checkSystem st))))
    = PATH (final (checkSystem st)).
Proof.
  intros Hfree st.
  pose proof (integrate_covers (PATH st) Hfree) as Hcov.
  set (p1 := integrate_additional (PATH st)) in *.
  unfold checkSystem at 2 3. fold p1. rewrite exec_dirname_with_PATH.
  destruct (exec_dirname "xelatex" st) as [dx | e] eqn:Hxe.
  2: { cbn [final]. apply checkSystem_settled;
         rewrite ?exec_dirname_with_PATH; cbn [PATH with_PATH];
         [exact Hcov | rewrite Hxe; discriminate | rewrite Hxe; discriminate]. }
  cbn [PATH with_PATH]. set (p2 := add_dirname dx p1).
  assert (Hcov2 : forall x, In x _additional_paths ->
                            covered x (split delim p2) = true)
    by (intros x Hin; apply add_dirname_covered; now apply Hcov).
  assert (Hx2 : String.length dx = 0 \/ contains p2 dx = true)
    by apply add_dirname_contains.
  rewrite !exec_dirname_with_PATH.
  destruct (exec_dirname "pandoc" st) as [dp | e] eqn:Hpa.
  2: { cbn [final]. apply checkSystem_settled;
         rewrite ?exec_dirname_with_PATH; cbn [PATH with_PATH];
         [ exact Hcov2
         | rewrite Hxe; intros d [= <-]; exact Hx2
         | rewrite Hpa; discriminate ]. }
  cbn [final]. set (p3 := add_dirname dp p2).
  apply checkSystem_settled; rewrite PATH_ensure_uuid; cbn [PATH with_PATH];
    rewrite ?exec_dirname_ensure_uuid by (discriminate || reflexivity);
    rewrite ?exec_dirname_with_PATH.
  - intros x Hin. apply add_dirname_covered. now apply Hcov2.
  - rewrite Hxe. intros d [= <-].
    destruct Hx2 as [H0 | Hc]; [now left | right].
    now apply add_dirname_keeps.
  - rewrite Hxe, Hpa. intros d d' _ [= <-]. apply add_dirname_contains.
Qed.

(** ** References and copies *)























(** *** The tree and the heap agree on [get] *)

Lemma sequence_fields_lookup :
  forall (f : nat) (h : heap) (k : string) (fs : list (string * hval))
         (es : object),
    sequence (map (fun e => option_map (pair (fst e)) (stringify f h (snd e))) fs)
    = Some es ->
    match lookup k es with
    | Some x => exists hx, hlookup k fs = Some hx /\ stringify f h hx = Some x
    | None => hlookup k fs = None
    end.
Proof.
  intros f h k fs. induction fs as [ | [k' hv] r IH ]; intros es Hseq.
  - cbn in Hseq. injection Hseq as <-. reflexivity.
  - cbn in Hseq.
    destruct (stringify f h hv) as [x | ] eqn:Hx; [ | discriminate].
    cbn in Hseq.
    destruct (sequence (map (fun e => option_map (pair (fst e))
                                         (stringify f h (snd e))) r))
      as [es' | ] eqn:Hr; [ | discriminate].
    injection Hseq as <-. cbn.
    destruct (String.eqb k' k).
    + exists hv. split; [reflexivity | exact Hx].
    + exact (IH es' eq_refl).
Qed.

Lemma sequence_elems_nth :
  forall (f : nat) (h : heap) (hs : list hval) (l : list value),
    sequence (map (stringify f h) hs) = Some l ->
    List.length l = List.length hs
    /\ forall i,
         match nth_error l i with
         | Some x => exists hx, nth_error hs i = Some hx /\ stringify f h hx = Some x
         | None => nth_error hs i = None
         end.
Proof.
  intros f h hs. induction hs as [ | hv r IH ]; intros l Hseq.
  - cbn in Hseq. injection Hseq as <-. split; [reflexivity | ].
    intros [ | i]; reflexivity.
  - cbn in Hseq.
    destruct (stringify f h hv) as [x | ] eqn:Hx; [ | discriminate].
    destruct (sequence (map (stringify f h) r)) as [l' | ] eqn:Hr;
      [ | discriminate].
    injection Hseq as <-. destruct (IH l' eq_refl) as [Hlen Hnth].
    split; [cbn; now rewrite Hlen | ].
    intros [ | i]; cbn; [ | apply Hnth].
    exists hv. split; [reflexivity | exact Hx].
Qed.

(** A value of the heap and the document it shows have the same own
    properties, and the same access to [hasOwnProperty]. *)
Lemma stringify_own_property :
  forall (fuel : nat) (h : heap) (v : hval) (t : value) (k : string),
    stringify fuel h v = Some t ->
    has_method t = h_has_method h v
    /\ match own_property t k with
       | Some x =>
           exists hx,
             h_own_property h v k = Some hx
             /\ stringify (pred fuel) h hx = Some x
       | None => h_own_property h v k = None
       end.
Proof.
  intros fuel h v t k Hshow.
  destruct v as [ | b | n | s | l ].
  1-3: destruct fuel; injection Hshow as <-; split; reflexivity.
  - assert (Ht : t = VStr s) by (destruct fuel; now injection Hshow as <-).
    subst t. split; [reflexivity | ]. cbn.
    destruct (String.eqb k "length").
    + eexists. split; [reflexivity | now destruct (pred fuel)].
    + destruct (index_of_key k (String.length s)); [ | reflexivity].
      eexists. split; [reflexivity | now destruct (pred fuel)].
  - destruct fuel as [ | f ]; [discriminate | ]. cbn [pred].
    cbn [stringify] in Hshow. cbn [h_has_method h_own_property].
    destruct (nth_error h l) as [[fs | hs] | ]; [ | | discriminate].
    + destruct (sequence _) as [es | ] eqn:Hseq; [ | discriminate].
      injection Hshow as <-. cbn [has_method own_property]. split.
      * pose proof (sequence_fields_lookup f h "hasOwnProperty" fs es Hseq) as H.
        destruct (lookup "hasOwnProperty" es).
        -- destruct H as (hx & -> & _). reflexivity.
        -- now rewrite H.
      * exact (sequence_fields_lookup f h k fs es Hseq).
    + destruct (sequence _) as [vs | ] eqn:Hseq; [ | discriminate].
      injection Hshow as <-. cbn [has_method own_property].
      destruct (sequence_elems_nth f h hs vs Hseq) as [Hlen Hnth].
      split; [reflexivity | ]. rewrite Hlen.
      destruct (String.eqb k "length").
      * eexists. split; [reflexivity | now destruct f].
      * destruct (index_of_key k (List.length hs)) as [i | ];
          [apply Hnth | reflexivity].
Qed.

Lemma stringify_walk :
  forall (nested : list string) (fuel : nat) (h : heap) (v : hval) (t : value),
    stringify fuel h v = Some t ->
    match walk t nested with
    | Abrupt e => h_walk h v nested = Abrupt e
    | Normal None => h_walk h v nested = Normal None
    | Normal (Some x) =>
        exists hx,
          h_walk h v nested = Normal (Some hx)
          /\ stringify (fuel - List.length nested) h hx = Some x
    end.
Proof.
  induction nested as [ | arg rest IH ]; intros fuel h v t Hshow.
  - cbn. exists v. split; [reflexivity | now rewrite Nat.sub_0_r].
  - cbn [walk h_walk]. unfold hasOwnProperty, h_hasOwnProperty, read, h_read.
    destruct (stringify_own_property fuel h v t arg Hshow) as [Hm Hown].
    rewrite <- Hm. destruct (has_method t); [ | reflexivity].
    destruct (own_property t arg) as [x | ].
    + destruct Hown as (hx & -> & Hx).
      specialize (IH (pred fuel) h hx x Hx).
      replace (fuel - List.length (arg :: rest))
        with (pred fuel - List.length rest) by (cbn; lia).
      exact IH.
    + rewrite Hown. reflexivity.
Qed.

(** [get] on the tree is [get] on the heap that shows the tree: the
    same error, or a value of the heap that shows the result. *)
Lemma get_on_heap :
  forall (key : string) (st : Store) (fuel : nat) (h : heap) (root : nat),
    stringify fuel h (HRef root) = Some (VObj (config st)) ->
    match get key st with
    | Abrupt e => h_get key h root = Abrupt e
    | Normal x =>
        exists hx fuel',
          h_get key h root = Normal hx /\ stringify fuel' h hx = Some x
    end.
Proof.
  intros key st fuel h root Hshow. unfold get, h_get, getConfig.
  destruct (String.eqb key "").
  - exists (HRef root), fuel. split; [reflexivity | exact Hshow].
  - destruct (indexOf_pos "." key).
    + pose proof (stringify_walk (split "." key) fuel h (HRef root) _ Hshow) as Hw.
      destruct (walk (VObj (config st)) (split "." key)) as [[x | ] | e].
      * destruct Hw as (hx & -> & Hx). eauto.
      * rewrite Hw. exists HNull, 0. split; reflexivity.
      * now rewrite Hw.
    + unfold hasOwnProperty, h_hasOwnProperty, read, h_read.
      destruct (stringify_own_property fuel h (HRef root) _ key Hshow)
        as [Hm Hown].
      rewrite <- Hm. destruct (has_method (VObj (config st))); [ | reflexivity].
      destruct (own_property (VObj (config st)) key) as [x | ].
      * destruct Hown as (hx & -> & Hx). eauto.
      * rewrite Hown. exists HNull, 0. split; reflexivity.
Qed.

(* ================================================================== *)
(** * Further properties of the class *)

(** ** [set] and [bulkSet] *)

Lemma hasOwnProperty_true :
  forall (v : value) (k : string),
    hasOwnProperty v k = Normal true ->
    has_method v = true /\ exists x, own_property v k = Some x.
Proof.
  intros v k. unfold hasOwnProperty.
  destruct (has_method v); [ | discriminate].
  destruct (own_property v k) as [x | ]; [ | discriminate].
  intros _. split; [reflexivity | now exists x].
Qed.

Lemma store_keys :
  forall (k : string) (v x : value) (c : object),
    lookup k c = Some x -> map fst (store k v c) = map fst c.
Proof.
  intros k v x c. induction c as [ | [k' v'] r IH ]; cbn; [discriminate | ].
  destruct (String.eqb k' k); [reflexivity | ].
  intro H. cbn. now rewrite IH.
Qed.

Lemma walk_first :
  forall (cfg : value) (arg : string) (rest : list string) (leaf : value),
    walk cfg (arg :: rest) = Normal (Some leaf) ->
    hasOwnProperty cfg arg = Normal true
    /\ walk (read cfg arg) rest = Normal (Some leaf).
Proof.
  intros cfg arg rest leaf. cbn [walk].
  destruct (hasOwnProperty cfg arg) as [[ | ] | e]; try discriminate.
  intro H. split; [reflexivity | exact H].
Qed.

(** X1: [set] never adds or drops an option of the root, however it
    ends: the keys of the configuration are the same, in the same
    order, after the call. *)
Theorem set_keeps_options :
  forall (option : string) (val : value) (st : Store),
    map fst (config (final (set option val st))) = map fst (config st).
Proof.
  intros option val st. unfold set.
  destruct (hasOwnProperty (VObj (config st)) option) as [top | e] eqn:Htop;
    [ | reflexivity].
  destruct (top && _validate option val st) eqn:Hfirst.
  - apply andb_prop in Hfirst. destruct Hfirst as [-> _].
    destruct (hasOwnProperty_true _ _ Htop) as (_ & x & Hx).
    cbn. eapply store_keys. exact Hx.
  - destruct (indexOf_pos "." option); [ | reflexivity].
    destruct (cut "." option) as [h t]. destruct (pop h t) as [nested prop].
    destruct (walk (VObj (config st)) nested) as [[cfg | ] | e] eqn:Hwalk;
      try reflexivity.
    destruct (hasOwnProperty cfg prop) as [b | e] eqn:Hleaf; [ | reflexivity].
    destruct (b && _validate option val st) eqn:Hsecond; [ | reflexivity].
    apply andb_prop in Hsecond. destruct Hsecond as [-> _].
    destruct nested as [ | arg rest ]; cbn [assign_root].
    + cbn in Hwalk. injection Hwalk as <-.
      destruct (hasOwnProperty_true _ _ Hleaf) as (_ & x & Hx).
      cbn. eapply store_keys. exact Hx.
    + destruct (walk_first _ _ _ _ Hwalk) as [Harg _].
      destruct (hasOwnProperty_true _ _ Harg) as (_ & x & Hx).
      destruct (assign_in (read (VObj (config st)) arg) rest prop val);
        [ | reflexivity].
      cbn. eapply store_keys. exact Hx.
Qed.

Lemma bulkSet_loop_counts :
  forall (cfgObj : object) (ret : bool) (st : Store) (b : bool) (st' : Store),
    bulkSet_loop cfgObj ret st = Ret b st' ->
    emitted st <= emitted st' <= emitted st + List.length cfgObj
    /\ (b = true <->
        ret = true /\ emitted st' = emitted st + List.length cfgObj)
    /\ _rules st' = _rules st /\ PATH st' = PATH st /\ disk st' = disk st.
Proof.
  induction cfgObj as [ | [opt v] rest IH ]; intros ret st b st' Hrun.
  - cbn in Hrun. injection Hrun as <- <-. cbn.
    repeat split; try lia; auto. now intros [H _].
  - cbn [bulkSet_loop] in Hrun.
    pose proof (set_contract opt v st) as Hc.
    destruct (set opt v st) as [ok st1 | e st1]; [ | discriminate].
    destruct (IH _ _ _ _ Hrun) as (Hle & Hiff & Hr & Hp & Hd).
    cbn [List.length]. destruct ok.
    + destruct Hc as (He & _ & Hr1 & Hp1 & Hd1).
      split; [lia | ]. split; [ | repeat split; congruence].
      rewrite Hiff. split; intros [H1 H2]; (split; [exact H1 | lia]).
    + subst st1. split; [lia | ]. split; [ | repeat split; assumption].
      rewrite Hiff. split; intros [H1 H2]; [discriminate | lia].
Qed.

(** The flag the loop starts with is only carried along. *)
Lemma bulkSet_loop_ret :
  forall (cfgObj : object) (ret : bool) (st : Store),
    bulkSet_loop cfgObj ret st
    = match bulkSet_loop cfgObj true st with
      | Ret b st' => Ret (ret && b) st'
      | Throw e st' => Throw e st'
      end.
Proof.
  induction cfgObj as [ | [opt v] rest IH ]; intros ret st.
  - cbn. now rewrite andb_true_r.
  - cbn [bulkSet_loop]. destruct (set opt v st) as [ok st1 | e st1];
      [ | reflexivity].
    rewrite (IH (if ok then ret else false)), (IH (if ok then true else false)).
    destruct (bulkSet_loop rest true st1) as [b st2 | e st2]; [ | reflexivity].
    destruct ok, ret; reflexivity.
Qed.

(** The loop over two lists of entries is the loop over the second
    from where the loop over the first ends. *)
Lemma bulkSet_loop_app :
  forall (pre post : object) (ret : bool) (st : Store),
    bulkSet_loop (pre ++ post) ret st
    = match bulkSet_loop pre ret st with
      | Ret r st1 => bulkSet_loop post r st1
      | Throw e st1 => Throw e st1
      end.
Proof.
  induction pre as [ | [opt v] rest IH ]; intros post ret st; [reflexivity | ].
  cbn [app bulkSet_loop].
  destruct (set opt v st) as [ok st1 | e st1]; [apply IH | reflexivity].
Qed.

(** X2: [bulkSet] attempts every entry, whatever became of the ones
    before: when it returns, every entry was passed to [set] in the
    store that the entries before it left, also after an entry that
    was refused, and the result is [true] exactly when every [set]
    returned [true]; it has emitted one notification for each entry
    that was set, and it leaves the rules, the search path and the disk
    as they are. *)
Theorem bulkSet_reports_all_or_some :
  forall (cfgObj : object) (st : Store) (b : bool) (st' : Store),
    bulkSet cfgObj st = Ret b st' ->
    (forall (pre : object) (opt : string) (v : value) (post : object),
        cfgObj = pre ++ (opt, v) :: post ->
        exists (b1 : bool) (st1 : Store) (ok : bool) (st2 : Store) (b2 : bool),
          bulkSet pre st = Ret b1 st1
          /\ set opt v st1 = Ret ok st2
          /\ bulkSet post st2 = Ret b2 st'
          /\ b = b1 && ok && b2)
    /\ emitted st <= emitted st' <= emitted st + List.length cfgObj
    /\ (b = true <-> emitted st' = emitted st + List.length cfgObj)
    /\ _rules st' = _rules st /\ PATH st' = PATH st /\ disk st' = disk st.
Proof.
  intros cfgObj st b st' Hrun. split.
  - intros pre opt v post ->. unfold bulkSet in Hrun |- *.
    rewrite bulkSet_loop_app in Hrun.
    destruct (bulkSet_loop pre true st) as [b1 st1 | e st1] eqn:Hpre;
      [ | discriminate].
    cbn [bulkSet_loop] in Hrun.
    destruct (set opt v st1) as [ok st2 | e st2] eqn:Hset; [ | discriminate].
    rewrite bulkSet_loop_ret in Hrun.
    destruct (bulkSet_loop post true st2) as [b2 st3 | e st3] eqn:Hpost;
      [ | discriminate].
    injection Hrun as <- <-.
    exists b1, st1, ok, st2, b2.
    split; [reflexivity | ]. split; [exact Hset | ].
    split; [exact Hpost | ]. now destruct ok, b1.
  - destruct (bulkSet_loop_counts cfgObj true st b st' Hrun)
      as (Hle & Hiff & Hrest).
    split; [exact Hle | ]. split; [ | exact Hrest].
    rewrite Hiff. split; [now intros [_ H] | now split].
Qed.

Lemma pop_app :
  forall (t : list string) (h : string) (nested : list string) (prop : string),
    pop h t = (nested, prop) -> h :: t = nested ++ [prop].
Proof.
  induction t as [ | h' t' IH ]; intros h nested prop; cbn.
  - intros [= <- <-]. reflexivity.
  - destruct (pop h' t') as [init l] eqn:Hpop. intros [= <- <-].
    cbn. f_equal. now apply IH.
Qed.

Lemma own_key_not_method :
  forall (es : object) (k : string) (x : value),
    has_method (VObj es) = true -> lookup k es = Some x ->
    k <> "hasOwnProperty".
Proof.
  intros es k x Hm Hk ->. cbn in Hm. now rewrite Hk in Hm.
Qed.

Lemma hasOwnProperty_stored :
  forall (es : object) (k : string) (v x : value),
    has_method (VObj es) = true -> lookup k es = Some x ->
    hasOwnProperty (VObj (store k v es)) k = Normal true
    /\ read (VObj (store k v es)) k = v.
Proof.
  intros es k v x Hm Hk.
  pose proof (own_key_not_method es k x Hm Hk) as Hne.
  unfold hasOwnProperty, read. cbn in Hm |- *.
  rewrite lookup_store_other by congruence.
  rewrite lookup_store_same.
  destruct (lookup "hasOwnProperty" es); [discriminate | ]. now split.
Qed.

Lemma assign_in_walk :
  forall (nested : list string) (cfg leaf : value) (prop : string)
         (val cfg' : value),
    through_objects cfg nested = true ->
    walk cfg nested = Normal (Some leaf) ->
    hasOwnProperty leaf prop = Normal true ->
    assign_in cfg nested prop val = Normal cfg' ->
    walk cfg' (nested ++ [prop]) = Normal (Some val).
Proof.
  induction nested as [ | arg rest IH ];
    intros cfg leaf prop val cfg' Hobj Hwalk Hleaf Hassign;
    destruct cfg as [ | | | | | es ]; try discriminate.
  - cbn in Hwalk. injection Hwalk as <-.
    cbn in Hassign. injection Hassign as <-.
    destruct (hasOwnProperty_true _ _ Hleaf) as (Hm & x & Hx).
    destruct (hasOwnProperty_stored es prop val x Hm Hx) as [Hhas Hread].
    cbn [app walk]. now rewrite Hhas, Hread.
  - destruct (walk_first _ _ _ _ Hwalk) as [Harg Hrest].
    cbn [through_objects] in Hobj. cbn [assign_in] in Hassign.
    destruct (assign_in (read (VObj es) arg) rest prop val) as [sub | e] eqn:Hsub;
      [ | discriminate].
    cbn in Hassign. injection Hassign as <-.
    destruct (hasOwnProperty_true _ _ Harg) as (Hm & x & Hx).
    destruct (hasOwnProperty_stored es arg sub x Hm Hx) as [Hhas Hread].
    cbn [app walk]. rewrite Hhas, Hread.
    eapply IH; eassumption.
Qed.

Lemma assign_root_in :
  forall (root : object) (nested : list string) (prop : string)
         (val : value) (c : object),
    assign_root root nested prop val = Normal c ->
    assign_in (VObj root) nested prop val = Normal (VObj c).
Proof.
  intros root nested prop val c. destruct nested as [ | arg rest ]; cbn.
  - intros [= <-]. reflexivity.
  - destruct (assign_in (read (VObj root) arg) rest prop val); [ | discriminate].
    intros [= <-]. reflexivity.
Qed.

(** X3: a value that [set] accepted is the value that [get] returns
    for the key afterwards: for a key without dot, and for a dotted key
    that is no key of the root itself and leads through objects. *)
Theorem set_then_get :
  forall (option : string) (val : value) (st st' : Store),
    set option val st = Ret true st' ->
    (if indexOf_pos "." option
     then lookup option (config st) = None
          /\ through_objects (VObj (config st)) (parents option) = true
     else option <> "") ->
    get option st' = Normal val.
Proof.
  intros option val st st'. unfold set, get, parents.
  destruct (hasOwnProperty (VObj (config st)) option) as [top | e] eqn:Htop;
    [ | discriminate].
  destruct (indexOf_pos "." option) eqn:Hdot.
  - intros Hrun [Hmiss Hobj].
    assert (Hfalse : top = false).
    { unfold hasOwnProperty in Htop.
      destruct (has_method (VObj (config st))); [ | discriminate].
      cbn in Htop. rewrite Hmiss in Htop. now injection Htop as <-. }
    subst top. cbn [andb] in Hrun.
    unfold split. destruct (cut "." option) as [h t]. cbn [fst snd] in Hobj.
    destruct (pop h t) as [nested prop] eqn:Hpop. cbn [fst] in Hobj.
    destruct (walk (VObj (config st)) nested) as [[cfg | ] | e] eqn:Hwalk;
      try discriminate.
    destruct (hasOwnProperty cfg prop) as [b | e] eqn:Hleaf; [ | discriminate].
    destruct (b && _validate option val st) eqn:Hsecond; [ | discriminate].
    apply andb_prop in Hsecond. destruct Hsecond as [-> _].
    destruct (assign_root (config st) nested prop val) as [c | e] eqn:Hassign;
      [ | discriminate].
    injection Hrun as <-. cbn [config emit with_config].
    destruct (String.eqb option "") eqn:Hempty.
    { apply String.eqb_eq in Hempty. subst option. discriminate. }
    rewrite (pop_app _ _ _ _ Hpop).
    rewrite (assign_in_walk nested (VObj (config st)) cfg prop val (VObj c));
      auto using assign_root_in.
  - intros Hrun Hne.
    destruct (top && _validate option val st) eqn:Hfirst; [ | discriminate].
    apply andb_prop in Hfirst. destruct Hfirst as [-> _].
    injection Hrun as <-. cbn [config emit with_config].
    destruct (String.eqb option "") eqn:Hempty.
    { apply String.eqb_eq in Hempty. contradiction. }
    destruct (hasOwnProperty_true _ _ Htop) as (Hm & x & Hx).
    destruct (hasOwnProperty_stored (config st) option val x Hm Hx)
      as [Hhas Hread].
    now rewrite Hhas, Hread.
Qed.

(** ** [update]: what it leaves alone, and twice the same *)

Lemma for_in_foreign :
  forall (newcfg : value) (es : object),
    has_method newcfg = true ->
    (forall k, In k (map fst es) -> own_property newcfg k = None) ->
    for_in update_rec newcfg es = (es, 0, None).
Proof.
  intros newcfg es Hm. induction es as [ | e rest IH ]; intro Hnone;
    [reflexivity | ].
  cbn [for_in]. fold (for_in update_rec newcfg).
  rewrite (hasOwnProperty_method _ _ Hm).
  rewrite (Hnone (fst e)) by now left.
  rewrite IH; [reflexivity | ]. intros k Hk. apply Hnone. now right.
Qed.

(** X4: an [update] with a tree that has none of the options of the
    root (the empty object, a number, options unknown to the template)
    changes nothing in the configuration and emits exactly one
    notification. *)
Theorem update_foreign_keys :
  forall (newcfg : value) (st : Store),
    has_method newcfg = true ->
    (forall k, In k (map fst (config st)) -> own_property newcfg k = None) ->
    update newcfg st = Ret tt (emit st).
Proof.
  intros newcfg st Hm Hnone. unfold update.
  rewrite (for_in_foreign _ _ Hm Hnone).
  destruct st. unfold emit, emit_n, with_config. cbn.
  now rewrite Nat.add_0_r.
Qed.

Lemma nodupb_lookup :
  forall (es : object) (k : string) (v : value),
    nodupb (map fst es) = true -> In (k, v) es -> lookup k es = Some v.
Proof.
  induction es as [ | [k0 v0] r IH ]; intros k v Hnd Hin; [contradiction | ].
  cbn in Hnd |- *. apply andb_prop in Hnd. destruct Hnd as [Hfresh Hnd].
  destruct Hin as [[= -> ->] | Hin].
  - now rewrite String.eqb_refl.
  - destruct (String.eqb k0 k) eqn:Hk; [ | now apply IH].
    apply String.eqb_eq in Hk. subst k0. exfalso.
    apply negb_true_iff in Hfresh.
    assert (Hex : existsb (String.eqb k) (map fst r) = true).
    { apply existsb_exists. exists k. split; [ | apply String.eqb_refl].
      change k with (fst (k, v)). now apply in_map. }
    congruence.
Qed.

Lemma map_fixed :
  forall (A : Type) (f : A -> A) (l : list A),
    (forall x, In x l -> f x = x) -> map f l = l.
Proof.
  intros A f l. induction l as [ | x r IH ]; intro H; [reflexivity | ].
  cbn. rewrite H by now left. rewrite IH; [reflexivity | ].
  intros y Hy. apply H. now right.
Qed.

Lemma merge_entries :
  forall (newcfg : value) (es : object),
    merge newcfg (VObj es) = VObj (map (merge_entry newcfg) es).
Proof. reflexivity. Qed.

(** A tree merged onto itself is itself. *)
Lemma merge_self :
  forall x : value, unique_keys x = true -> merge x x = x.
Proof.
  induction x as [ | b | n | s | l _ | es IH ] using value_ind;
    intro Hu; try reflexivity.
  rewrite merge_entries. f_equal. apply map_fixed.
  cbn in Hu. apply andb_prop in Hu. destruct Hu as [Hnd Hall].
  rewrite Forall_forall in IH. rewrite forallb_forall in Hall.
  intros [k v] Hin. unfold merge_entry. cbn [fst snd own_property].
  rewrite (nodupb_lookup es k v Hnd Hin).
  specialize (IH (k, v) Hin (Hall (k, v) Hin)). cbn [snd] in IH.
  destruct v; try reflexivity. f_equal. exact IH.
Qed.

Lemma own_property_unique_keys :
  forall (v x : value) (k : string),
    unique_keys v = true -> own_property v k = Some x -> unique_keys x = true.
Proof.
  intros v x k Hu Hown. destruct v as [ | | | s | l | es ]; cbn in Hown;
    try discriminate.
  - destruct (String.eqb k "length"); [now injection Hown as <- | ].
    destruct (index_of_key k (String.length s)); [ | discriminate].
    now injection Hown as <-.
  - destruct (String.eqb k "length"); [now injection Hown as <- | ].
    destruct (index_of_key k (List.length l)) as [i | ]; [ | discriminate].
    cbn in Hu. rewrite forallb_forall in Hu. apply Hu.
    eapply nth_error_In. exact Hown.
  - cbn in Hu. apply andb_prop in Hu. destruct Hu as [_ Hall].
    rewrite forallb_forall in Hall.
    assert (Hin : In (k, x) es).
    { clear Hall. induction es as [ | [k0 v0] r IHr ]; [discriminate | ].
      cbn in Hown. destruct (String.eqb k0 k) eqn:Hk.
      - apply String.eqb_eq in Hk. subst k0. injection Hown as <-. now left.
      - right. now apply IHr. }
    exact (Hall (k, x) Hin).
Qed.

Lemma merge_idempotent :
  forall oldcfg newcfg : value,
    unique_keys newcfg = true ->
    merge newcfg (merge newcfg oldcfg) = merge newcfg oldcfg.
Proof.
  induction oldcfg as [ | b | n | s | l _ | es IH ] using value_ind;
    intros newcfg Hu; try reflexivity.
  rewrite !merge_entries. f_equal. rewrite map_map. apply map_ext_in.
  rewrite Forall_forall in IH.
  intros [k v] Hin. specialize (IH (k, v) Hin). cbn [snd] in IH.
  unfold merge_entry at 2. cbn [fst snd].
  destruct (own_property newcfg k) as [nv | ] eqn:Hown.
  - pose proof (own_property_unique_keys _ _ _ Hu Hown) as Hnv.
    destruct v as [ | | | | | es' ];
      unfold merge_entry; cbn [fst snd]; rewrite Hown.
    1-5: destruct nv; try reflexivity; f_equal; now apply merge_self.
    transitivity (k, merge nv (merge nv (VObj es'))); [reflexivity | ].
    f_equal. now apply IH.
  - unfold merge_entry. cbn [fst snd]. now rewrite Hown.
Qed.

Lemma update_returns_merge :
  forall (newcfg : value) (st st' : Store),
    update newcfg st = Ret tt st' ->
    VObj (config st') = merge newcfg (VObj (config st)).
Proof.
  intros newcfg st st' Hrun.
  destruct (update_outcome newcfg st) as (_ & Hret & Hthrow).
  destruct (mergeable newcfg (VObj (config st))).
  - destruct (Hret eq_refl) as (es & Hrun' & Hmerge).
    rewrite Hrun' in Hrun. injection Hrun as <-. exact Hmerge.
  - destruct (Hthrow eq_refl) as (err & st2 & Hrun').
    rewrite Hrun' in Hrun. discriminate.
Qed.

(** X5: merging the same tree a second time changes nothing: when
    [update(newTree)] has completed, a second [update(newTree)] that
    completes leaves the configuration as the first one left it. *)
Theorem update_twice :
  forall (newcfg : value) (st st1 st2 : Store),
    unique_keys newcfg = true ->
    update newcfg st = Ret tt st1 ->
    update newcfg st1 = Ret tt st2 ->
    config st2 = config st1.
Proof.
  intros newcfg st st1 st2 Hu H1 H2.
  apply update_returns_merge in H1. apply update_returns_merge in H2.
  rewrite H1 in H2. rewrite (merge_idempotent _ _ Hu) in H2.
  rewrite <- H1 in H2. now injection H2.
Qed.

(** ** [save] and [load]: the round trip *)

Lemma forall2b_keys :
  forall es es' : object,
    forall2b (fun e e' => String.eqb (fst e) (fst e') && keys_kept (snd e) (snd e'))
      es es' = true ->
    map fst es' = map fst es.
Proof.
  induction es as [ | e r IH ]; intros [ | e' r' ]; cbn; try discriminate;
    [reflexivity | ].
  intro H. apply andb_prop in H. destruct H as [H Hr].
  apply andb_prop in H. destruct H as [Hk _].
  apply String.eqb_eq in Hk. rewrite Hk. f_equal. now apply IH.
Qed.

Lemma has_key_keys :
  forall (k : string) (es es' : object),
    map fst es' = map fst es -> has_key k es' = has_key k es.
Proof.
  intros k es. unfold has_key.
  induction es as [ | [k0 v0] r IH ]; intros [ | [k1 v1] r' ]; cbn;
    try discriminate; [reflexivity | ].
  intros [= <- Hr]. destruct (String.eqb k1 k); [reflexivity | now apply IH].
Qed.

Lemma merge_kept_entries :
  forall (whole es es' : object),
    nodupb (map fst whole) = true ->
    incl es' whole ->
    forall2b (fun e e' => String.eqb (fst e) (fst e') && keys_kept (snd e) (snd e'))
      es es' = true ->
    forallb (fun e => tidy (snd e)) es = true ->
    Forall (fun e =>
              forall live,
                tidy (snd e) = true -> keys_kept (snd e) live = true ->
                (is_plain_object (snd e) = true -> merge live (snd e) = live)
                /\ mergeable live (snd e) = true) es ->
    map (merge_entry (VObj whole)) es = es'
    /\ forallb (mergeable_entry (VObj whole)) es = true.
Proof.
  intros whole es es' Hnd. revert es'.
  induction es as [ | [k v] r IHr ]; intros [ | [k' v'] r' ] Hincl Hkept Htidy IH;
    cbn in Hkept; try discriminate; [now split | ].
  apply andb_prop in Hkept. destruct Hkept as [Hhead Hrest].
  apply andb_prop in Hhead. destruct Hhead as [Hk Hshape].
  cbn [fst snd] in Hk, Hshape. apply String.eqb_eq in Hk. subst k'.
  cbn in Htidy. apply andb_prop in Htidy. destruct Htidy as [Htv Htr].
  inversion IH as [ | ? ? Hv Hr ]; subst. cbn [snd] in Hv.
  destruct (IHr r') as [Hmap Hall]; try assumption.
  { intros x Hx. apply Hincl. now right. }
  assert (Hlook : lookup k whole = Some v').
  { apply nodupb_lookup; [exact Hnd | ]. apply Hincl. now left. }
  destruct (Hv v' Htv Hshape) as [Hmerge Hable].
  cbn [map forallb]. unfold merge_entry at 1, mergeable_entry at 1.
  cbn [fst snd own_property]. rewrite Hlook, Hmap, Hall.
  destruct v; try (now split).
  rewrite Hmerge by reflexivity. cbn [is_plain_object]. rewrite Hable.
  now split.
Qed.

(** The merge of a live tree onto a template of which it kept the keys
    is the live tree, and it completes. *)
Lemma merge_onto_template :
  forall tpl live : value,
    tidy tpl = true -> keys_kept tpl live = true ->
    (is_plain_object tpl = true -> merge live tpl = live)
    /\ mergeable live tpl = true.
Proof.
  induction tpl as [ | b | n | s | l _ | es IH ] using value_ind;
    intros live Ht Hk; try (split; [discriminate | reflexivity]).
  destruct live as [ | | | | | es' ]; try discriminate.
  cbn in Ht, Hk. apply andb_prop in Ht. destruct Ht as [Ht Hall].
  apply andb_prop in Ht. destruct Ht as [Hnd Hno].
  pose proof (forall2b_keys es es' Hk) as Hkeys.
  assert (Hnd' : nodupb (map fst es') = true) by now rewrite Hkeys.
  destruct (merge_kept_entries es' es es' Hnd' (incl_refl _) Hk Hall IH)
    as [Hmap Hable].
  split.
  - intros _. rewrite merge_entries. now rewrite Hmap.
  - cbn [mergeable]. destruct es as [ | e r ]; [reflexivity | ].
    apply andb_true_intro. split; [ | exact Hable].
    apply negb_true_iff in Hno.
    rewrite <- (has_key_keys "hasOwnProperty" _ _ Hkeys) in Hno.
    unfold has_key in Hno. cbn.
    destruct (lookup "hasOwnProperty" es'); [discriminate | reflexivity].
Qed.

(** X6: what [save] wrote, [load] reads back: in a new instance whose
    template is tidy and of which the saved configuration kept the
    keys, [load] completes and leaves the saved configuration. *)
Theorem save_then_load :
  forall st st0 : Store,
    tidy (VObj (config st0)) = true ->
    keys_kept (VObj (config st0)) (VObj (config st)) = true ->
    configFile (disk st0) = configFile (disk (final (save st))) ->
    exists st', load st0 = Ret tt st' /\ config st' = config st.
Proof.
  intros st st0 Ht Hk Hfile. cbn in Hfile.
  destruct (merge_onto_template _ _ Ht Hk) as [Hmerge Hable].
  specialize (Hmerge eq_refl). unfold load.
  destruct (configPath_present (disk st0));
    cbn [disk with_disk configFile mkdir_configPath]; rewrite Hfile.
  - destruct (update_outcome (VObj (config st)) st0) as (_ & Hret & _).
    destruct (Hret Hable) as (es & Hrun & Hes).
    eexists. split; [exact Hrun | ]. cbn. rewrite Hmerge in Hes.
    now injection Hes.
  - set (st1 := with_disk (mkdir_configPath (disk st0)) st0).
    destruct (update_outcome (VObj (config st)) st1) as (_ & Hret & _).
    destruct (Hret Hable) as (es & Hrun & Hes).
    eexists. split; [exact Hrun | ]. cbn.
    change (config st1) with (config st0) in Hes. rewrite Hmerge in Hes.
    now injection Hes.
Qed.

(** ** [checkSystem]: what it does to the configuration and to the
    search path *)

Lemma checkSystem_final :
  forall st : Store,
    exists path,
      final (checkSystem st) = with_PATH path st
      \/ final (checkSystem st) = ensure_uuid (with_PATH path st)
         /\ returned (checkSystem st) = Some tt.
Proof.
  intro st. unfold checkSystem.
  destruct (exec_dirname "xelatex" _) as [dx | e].
  - destruct (exec_dirname "pandoc" _) as [dp | e].
    + eexists. right. split; reflexivity.
    + eexists. left. reflexivity.
  - eexists. left. reflexivity.
Qed.

Lemma checkSystem_returns_uuid :
  forall st st' : Store,
    checkSystem st = Ret tt st' ->
    exists path, st' = ensure_uuid (with_PATH path st).
Proof.
  intros st st'. unfold checkSystem.
  destruct (exec_dirname "xelatex" _) as [dx | e]; [ | discriminate].
  destruct (exec_dirname "pandoc" _) as [dp | e]; [ | discriminate].
  intros [= <-]. eexists. reflexivity.
Qed.

Lemma ensure_uuid_rules :
  forall st : Store, _rules (ensure_uuid st) = _rules st.
Proof.
  intro st. unfold ensure_uuid.
  destruct (falsy (read (VObj (config st)) "uuid")); reflexivity.
Qed.

Lemma ensure_uuid_truthy :
  forall st : Store,
    app_uuid <> "" ->
    falsy (read (VObj (config (ensure_uuid st))) "uuid") = false.
Proof.
  intros st Hne. unfold ensure_uuid.
  destruct (falsy (read (VObj (config st)) "uuid")) eqn:Hf; [ | exact Hf].
  unfold read. cbn. rewrite lookup_store_same. cbn.
  apply String.eqb_neq. exact Hne.
Qed.

(** X7: of the configuration, [checkSystem] touches the identifier
    only, and only when there is none: every other option, the rules,
    the disk and the count of notifications are as before, however it
    ends; an identifier that is there is kept; and when the call
    returns there is one, the generated identifier being non-empty. *)
Theorem checkSystem_sets_uuid_only :
  forall st : Store,
    (forall k, k <> "uuid" ->
               lookup k (config (final (checkSystem st))) = lookup k (config st))
    /\ emitted (final (checkSystem st)) = emitted st
    /\ _rules (final (checkSystem st)) = _rules st
    /\ disk (final (checkSystem st)) = disk st
    /\ (falsy (read (VObj (config st)) "uuid") = false ->
        config (final (checkSystem st)) = config st)
    /\ (forall st', checkSystem st = Ret tt st' -> app_uuid <> "" ->
                    falsy (read (VObj (config st')) "uuid") = false).
Proof.
  intro st.
  assert (Huuid : forall path,
             (forall k, k <> "uuid" ->
                        lookup k (config (ensure_uuid (with_PATH path st)))
                        = lookup k (config st))
             /\ emitted (ensure_uuid (with_PATH path st)) = emitted st
             /\ _rules (ensure_uuid (with_PATH path st)) = _rules st
             /\ disk (ensure_uuid (with_PATH path st)) = disk st
             /\ (falsy (read (VObj (config st)) "uuid") = false ->
                 config (ensure_uuid (with_PATH path st)) = config st)).
  { intro path. unfold ensure_uuid. cbn [config with_PATH].
    destruct (falsy (read (VObj (config st)) "uuid")).
    - repeat split; try discriminate.
      intros k Hk. cbn. now apply lookup_store_other.
    - repeat split. }
  repeat split.
  - intros k Hk. destruct (checkSystem_final st) as (path & [-> | [-> _]]).
    + reflexivity.
    + now apply Huuid.
  - destruct (checkSystem_final st) as (path & [-> | [-> _]]);
      [reflexivity | apply Huuid].
  - destruct (checkSystem_final st) as (path & [-> | [-> _]]);
      [reflexivity | apply Huuid].
  - destruct (checkSystem_final st) as (path & [-> | [-> _]]);
      [reflexivity | apply Huuid].
  - intro Hthere. destruct (checkSystem_final st) as (path & [-> | [-> _]]);
      [reflexivity | now apply Huuid].
  - intros st' Hrun Hne.
    destruct (checkSystem_returns_uuid st st' Hrun) as (path & ->).
    now apply ensure_uuid_truthy.
Qed.

Lemma append_nil_r : forall a : string, (a ++ "")%string = a.
Proof. induction a; cbn; congruence. Qed.

Lemma append_assoc :
  forall a b c : string, ((a ++ b) ++ c = a ++ (b ++ c))%string.
Proof. intros a b c. induction a; cbn; congruence. Qed.

Lemma joined_tail_concat :
  forall (sep : ascii) (e : list string) (z : string),
    joined_tail sep (z :: e)
    = String sep (String.concat (String sep "") (z :: e)).
Proof.
  intros sep e. induction e as [ | y r IH ]; intro z.
  - cbn. now rewrite append_nil_r.
  - change (joined_tail sep (z :: y :: r))
      with (String sep (z ++ joined_tail sep (y :: r)))%string.
    rewrite IH. reflexivity.
Qed.

Lemma join_app :
  forall (sep : ascii) (l extra : list string),
    l <> [] ->
    join sep (l ++ extra) = (join sep l ++ joined_tail sep extra)%string.
Proof.
  intros sep l extra Hne. unfold join.
  induction l as [ | x r IH ]; [contradiction | ].
  destruct r as [ | y r' ].
  - destruct extra as [ | z e ].
    + cbn. now rewrite append_nil_r.
    + rewrite joined_tail_concat. reflexivity.
  - change (String.concat (String sep "") ((x :: y :: r') ++ extra))
      with (x ++ String sep (String.concat (String sep "") ((y :: r') ++ extra)))%string.
    rewrite IH by discriminate.
    change (String.concat (String sep "") (x :: y :: r'))
      with (x ++ String sep (String.concat (String sep "") (y :: r')))%string.
    now rewrite append_assoc.
Qed.

Lemma integrate_extends :
  forall path : string,
    exists suffix, integrate_additional path = (path ++ suffix)%string.
Proof.
  intro path. unfold integrate_additional.
  destruct _additional_paths as [ | x r ].
  - exists "". now rewrite append_nil_r.
  - destruct (add_paths_extends (x :: r) (split delim path)) as (extra & -> & _).
    rewrite join_app.
    + rewrite join_split. eexists. reflexivity.
    + unfold split. destruct (cut delim path). discriminate.
Qed.

Lemma add_dirname_extends :
  forall dir path : string,
    exists suffix, add_dirname dir path = (path ++ suffix)%string.
Proof.
  intros dir path. unfold add_dirname.
  destruct (Nat.ltb 0 (String.length dir));
    [destruct (negb (contains path dir)) | ];
    try (exists ""; now rewrite append_nil_r).
  eexists. reflexivity.
Qed.

(** X8: [checkSystem] only appends to the search path: the search path
    it leaves begins with the one it found, however the call ends. *)
Theorem checkSystem_extends_PATH :
  forall st : Store,
    exists suffix, PATH (final (checkSystem st)) = (PATH st ++ suffix)%string.
Proof.
  intro st. unfold checkSystem.
  destruct (integrate_extends (PATH st)) as (s1 & H1).
  destruct (exec_dirname "xelatex" _) as [dx | e]; cbn [final PATH with_PATH];
    [ | now exists s1].
  destruct (add_dirname_extends dx (integrate_additional (PATH st))) as (s2 & H2).
  destruct (exec_dirname "pandoc" _) as [dp | e]; cbn [final PATH with_PATH].
  - rewrite PATH_ensure_uuid. cbn [PATH with_PATH].
    destruct (add_dirname_extends dp
                (add_dirname dx (integrate_additional (PATH st)))) as (s3 & H3).
    rewrite H3, H2, H1. exists ((s1 ++ s2) ++ s3)%string.
    now rewrite !append_assoc.
  - rewrite H2, H1. exists (s1 ++ s2)%string. now rewrite append_assoc.
Qed.

(** X9: after a [checkSystem] that returns, the search path has every
    additional directory of the platform as an entry, with or without
    the trailing slash, when none of them holds the delimiter; and the
    directories of the two executables occur in it. *)
Theorem checkSystem_completes_PATH :
  Forall (fun x => indexOf delim x = None) _additional_paths ->
  forall (st st' : Store),
    checkSystem st = Ret tt st' ->
    (forall x, In x _additional_paths ->
               covered x (split delim (PATH st')) = true)
    /\ (forall dx, exec_dirname "xelatex" st = Normal dx ->
                   String.length dx = 0 \/ contains (PATH st') dx = true)
    /\ (forall dp, exec_dirname "pandoc" st = Normal dp ->
                   String.length dp = 0 \/ contains (PATH st') dp = true).
Proof.
  intros Hfree st st'. unfold checkSystem.
  rewrite exec_dirname_with_PATH.
  destruct (exec_dirname "xelatex" st) as [dx | e]; [ | discriminate].
  rewrite exec_dirname_with_PATH. cbn [PATH with_PATH].
  rewrite exec_dirname_with_PATH.
  destruct (exec_dirname "pandoc" st) as [dp | e]; [ | discriminate].
  intros [= <-]. rewrite PATH_ensure_uuid. cbn [PATH with_PATH].
  repeat split.
  - intros x Hx. do 2 apply add_dirname_covered.
    now apply integrate_covers.
  - intros d [= <-].
    destruct (add_dirname_contains dx (integrate_additional (PATH st)))
      as [H0 | Hc]; [now left | right].
    now apply add_dirname_keeps.
  - intros d [= <-]. apply add_dirname_contains.
Qed.

(** ** The list of open paths: what stays, what goes *)

Lemma uniq_In :
  forall (l : list string) (x : string), In x (uniq l) <-> In x l.
Proof.
  intros l x. split; [apply uniq_incl | ].
  induction l as [ | y r IH ]; cbn; [intros [] | ].
  intros [-> | Hx]; [now left | ].
  destruct (String.eqb x y) eqn:Hxy.
  - apply String.eqb_eq in Hxy. now left.
  - right. apply filter_In. split; [now apply IH | ]. now rewrite Hxy.
Qed.

Lemma strings_in_In :
  forall (l : list value) (p : string), In p (strings_in l) <-> In (VStr p) l.
Proof.
  intros l p. induction l as [ | v r IH ]; cbn; [reflexivity | ].
  destruct v; cbn; rewrite IH; split;
    try (intros [H | H]; [discriminate | exact H]);
    try (intro H; now right).
  - intros [-> | H]; [now left | now right].
  - intros [[= ->] | H]; [now left | now right].
Qed.

Lemma checkPaths_openPaths :
  forall (st st' : Store) (l : list value),
    checkPaths st = Ret tt st' ->
    read (VObj (config st)) "openPaths" = VArr l ->
    open_paths_are
      (sortPaths_list (uniq (strings_in (filter lstat_value l)))) st'.
Proof.
  intros st st' l. unfold checkPaths.
  change (config (with_disk (mkdir_dict (disk st)) st)) with (config st).
  intros Hrun Hread. rewrite Hread in Hrun.
  unfold _sortPaths in Hrun. rewrite read_set_openPaths in Hrun.
  rewrite sortPaths_array_strings, prune_filter in Hrun.
  match type of Hrun with
  | prune_selectedDicts ?s = _ =>
      replace st' with (final (prune_selectedDicts s))
        by (rewrite Hrun; reflexivity)
  end.
  apply prune_selectedDicts_keeps. apply open_paths_sorted. apply uniq_NoDup.
Qed.

(** X10: the startup pass keeps exactly the paths that exist: when
    [checkPaths] returns, the list of open paths holds a string if and
    only if the array held it before and [lstat] finds it; what is no
    string is gone. *)
Theorem checkPaths_keeps_existing :
  forall (st st' : Store) (l : list value),
    checkPaths st = Ret tt st' ->
    read (VObj (config st)) "openPaths" = VArr l ->
    exists l' : list string,
      read (VObj (config st')) "openPaths" = VArr (map VStr l')
      /\ forall p, In p l' <-> In (VStr p) l /\ lstat_ok p = true.
Proof.
  intros st st' l Hrun Hread.
  destruct (checkPaths_openPaths st st' l Hrun Hread) as (Hread' & _ & _).
  eexists. split; [exact Hread' | ].
  intro p. split.
  - intro Hp.
    apply (Permutation_in _ (Permutation_sym (sortPaths_list_perm _))) in Hp.
    apply uniq_In, strings_in_In, filter_In in Hp. exact Hp.
  - intro Hp.
    apply (Permutation_in _ (sortPaths_list_perm _)).
    apply uniq_In, strings_in_In, filter_In. exact Hp.
Qed.

(** X11: the second loop of [checkPaths], which removes entries while
    it walks the array, keeps the selected dictionaries that are
    available, all of them and in their order. *)
Theorem checkPaths_prunes_selectedDicts :
  forall (st st' : Store) (ds : list value),
    checkPaths st = Ret tt st' ->
    read (VObj (config st)) "selectedDicts" = VArr ds ->
    read (VObj (config st')) "selectedDicts"
    = VArr (filter isDictAvailable ds).
Proof.
  intros st st' ds. unfold checkPaths.
  change (config (with_disk (mkdir_dict (disk st)) st)) with (config st).
  assert (Hd : forall paths,
             match _sortPaths (set_openPaths (map VStr (uniq paths))
                                 (with_disk (mkdir_dict (disk st)) st)) with
             | Ret _ st2 => prune_selectedDicts st2
             | Throw e st2 => Throw e st2
             end = Ret tt st' ->
             read (VObj (config st)) "selectedDicts" = VArr ds ->
             read (VObj (config st')) "selectedDicts"
             = VArr (filter isDictAvailable ds)).
  { intros paths. unfold _sortPaths. rewrite read_set_openPaths.
    unfold prune_selectedDicts, read, set_openPaths. cbn [config with_config with_disk own_property].
    rewrite !lookup_store_other by discriminate.
    intros Hrun Hds. rewrite Hds in Hrun. injection Hrun as <-.
    cbn [config with_config]. rewrite lookup_store_same.
    now rewrite prune_filter. }
  destruct (read (VObj (config st)) "openPaths"); try discriminate.
  - destruct (forallb lstat_ok (chars s)); [apply Hd | discriminate].
  - apply Hd.
Qed.

Lemma remove_str_absent :
  forall (p : string) (l : list string), ~ In p l -> remove_str p l = l.
Proof.
  intros p l. induction l as [ | s r IH ]; cbn; [reflexivity | ].
  intro Hnot. destruct (String.eqb s p) eqn:Hs.
  - apply String.eqb_eq in Hs. exfalso. apply Hnot. now left.
  - f_equal. apply IH. intro H. apply Hnot. now right.
Qed.

Lemma remove_str_gone :
  forall (p : string) (l : list string), NoDup l -> ~ In p (remove_str p l).
Proof.
  intros p l Hnd. induction Hnd as [ | s r Hnotin _ IH ]; cbn; [intros [] | ].
  destruct (String.eqb s p) eqn:Hs.
  - apply String.eqb_eq in Hs. now subst.
  - intros [-> | Hin]; [now rewrite String.eqb_refl in Hs | now apply IH].
Qed.

Lemma remove_str_others :
  forall (p q : string) (l : list string),
    q <> p -> In q l -> In q (remove_str p l).
Proof.
  intros p q l Hne. induction l as [ | s r IH ]; cbn; [intros [] | ].
  destruct (String.eqb s p) eqn:Hs.
  - apply String.eqb_eq in Hs. subst s. intros [-> | H]; [contradiction | exact H].
  - intros [-> | H]; [now left | right; now apply IH].
Qed.

(** X12: on a list of open paths in order, [removePath] returns and
    takes the path out and nothing else: the path is not in the list
    afterwards, every other path is, the list is still without
    duplicate and in order; a path that was not in the list leaves the
    store as it was. *)
Theorem removePath_removes :
  forall (l : list string) (p : string) (st : Store),
    open_paths_are l st ->
    exists st',
      removePath p st = Ret tt st'
      /\ open_paths_are (remove_str p l) st'
      /\ ~ In p (remove_str p l)
      /\ (forall q, q <> p -> (In q (remove_str p l) <-> In q l))
      /\ (~ In p l -> st' = st).
Proof.
  intros l p st Hinv. pose proof Hinv as (Hread & Hnd & Hord).
  unfold removePath. rewrite Hread.
  assert (Hothers : forall q, q <> p -> (In q (remove_str p l) <-> In q l)).
  { intros q Hq. split; [apply remove_str_incl | now apply remove_str_others]. }
  destruct (includes p (map VStr l)) eqn:Hinc.
  - eexists. split; [reflexivity | ]. rewrite remove_first_map.
    split.
    { split; [apply read_set_openPaths | ].
      split; [now apply remove_str_NoDup | now apply remove_str_ordered]. }
    split; [now apply remove_str_gone | ]. split; [exact Hothers | ].
    intro Hnot. apply includes_map in Hinc. contradiction.
  - assert (Hnot : ~ In p l).
    { intro Hin. apply includes_map in Hin. congruence. }
    exists st. split; [reflexivity | ].
    rewrite (remove_str_absent p l Hnot).
    split; [exact Hinv | ]. split; [exact Hnot | ].
    split; [ | reflexivity].
    intros q Hq. specialize (Hothers q Hq).
    now rewrite (remove_str_absent p l Hnot) in Hothers.
Qed.

(** X13: on a list of open paths in order, [addPath] returns [true]
    exactly for a path that is not an ignored file, or is a directory,
    and is not in the list; the list then holds that path and the ones
    it held, without duplicate and in order; otherwise the store is as
    it was. *)
Theorem addPath_adds :
  forall (l : list string) (p : string) (st : Store),
    open_paths_are l st ->
    (returned (addPath p st) = Some true
     <-> (ignoreFile p = false \/ isDir p = true) /\ ~ In p l)
    /\ (returned (addPath p st) = Some true ->
        exists l',
          open_paths_are l' (final (addPath p st))
          /\ forall q, In q l' <-> q = p \/ In q l)
    /\ (returned (addPath p st) <> Some true -> final (addPath p st) = st).
Proof.
  intros l p st Hinv. pose proof Hinv as (Hread & Hnd & Hord).
  unfold addPath. rewrite Hread.
  destruct (negb (ignoreFile p) || isDir p) eqn:Hcond.
  - assert (Hok : ignoreFile p = false \/ isDir p = true).
    { apply orb_prop in Hcond. destruct Hcond as [H | H]; [left | now right].
      now apply negb_true_iff in H. }
    destruct (includes p (map VStr l)) eqn:Hinc; cbn [negb].
    + apply includes_map in Hinc. cbn.
      split; [split; [discriminate | intros [_ H]; contradiction] | ].
      split; [discriminate | reflexivity].
    + assert (Hnot : ~ In p l).
      { intro Hin. apply includes_map in Hin. congruence. }
      unfold _sortPaths. rewrite read_set_openPaths. cbn [returned final].
      replace (map VStr l ++ [VStr p]) with (map VStr (l ++ [p]))
        by (rewrite map_app; reflexivity).
      rewrite sortPaths_array_strings.
      split; [split; [now split | reflexivity] | ].
      split; [ | intro H; now contradiction H].
      intros _. exists (sortPaths_list (l ++ [p])). split.
      * apply open_paths_sorted.
        apply NoDup_app; [exact Hnd | repeat constructor; intros [] | ].
        intros x Hx [<- | []]. contradiction.
      * intro q. split.
        -- intro Hq.
           apply (Permutation_in _ (Permutation_sym (sortPaths_list_perm _))) in Hq.
           apply in_app_or in Hq. destruct Hq as [Hq | [<- | []]];
             [now right | now left].
        -- intro Hq. apply (Permutation_in _ (sortPaths_list_perm _)).
           apply in_or_app. destruct Hq as [-> | Hq]; [right; now left | now left].
  - cbn. split.
    + split; [discriminate | ]. intros [[Hi | Hd] _].
      * rewrite Hi in Hcond. discriminate.
      * rewrite Hd in Hcond. now rewrite orb_true_r in Hcond.
    + split; [discriminate | reflexivity].
Qed.

Lemma filter_perm :
  forall (f : string -> bool) (l l' : list string),
    Permutation l l' -> Permutation (filter f l) (filter f l').
Proof.
  intros f l l' Hp. induction Hp as [ | x a b _ IH | x y a | a b c _ IH1 _ IH2 ];
    cbn.
  - constructor.
  - destruct (f x); [now constructor | exact IH].
  - destruct (f x), (f y); try reflexivity. apply perm_swap.
  - now transitivity (filter f b).
Qed.

Lemma sorted_perm_eq :
  forall a b : list string,
    StronglySorted str_le a -> StronglySorted str_le b ->
    Permutation a b -> a = b.
Proof.
  induction a as [ | x a IH ]; intros b Ha Hb Hp.
  - apply Permutation_nil in Hp. now subst.
  - destruct b as [ | y b ].
    + apply Permutation_sym, Permutation_nil in Hp. discriminate.
    + inversion Ha as [ | ? ? Ha' Hax ]; subst.
      inversion Hb as [ | ? ? Hb' Hby ]; subst.
      assert (Hxy : x = y).
      { assert (Hin1 : In x (y :: b))
          by (apply (Permutation_in _ Hp); now left).
        assert (Hin2 : In y (x :: a))
          by (apply (Permutation_in _ (Permutation_sym Hp)); now left).
        destruct Hin1 as [-> | Hin1]; [reflexivity | ].
        destruct Hin2 as [-> | Hin2]; [reflexivity | ].
        rewrite Forall_forall in Hax, Hby.
        apply String.leb_antisym; [now apply Hax | now apply Hby]. }
      subst y. f_equal. apply IH; try assumption.
      eapply Permutation_cons_inv. exact Hp.
Qed.

(** X14: the order [_sortPaths] gives depends on the paths alone, not
    on the order they came in: two lists with the same paths are sorted
    to the same list; so a list that is sorted is left as it is. *)
Theorem sortPaths_list_canonical :
  forall l l' : list string,
    Permutation l l' ->
    sortPaths_list l = sortPaths_list l'
    /\ sortPaths_list (sortPaths_list l) = sortPaths_list l.
Proof.
  assert (Hcanon : forall a b, Permutation a b ->
                               sortPaths_list a = sortPaths_list b).
  { intros a b Hp. unfold sortPaths_list. f_equal.
    - apply sorted_perm_eq; try apply sort_sorted.
      rewrite <- !sort_perm. now apply filter_perm.
    - apply sorted_perm_eq; try apply sort_sorted.
      rewrite <- !sort_perm. now apply filter_perm. }
  intros l l' Hp. split; [now apply Hcanon | ].
  apply Hcanon. apply Permutation_sym. apply sortPaths_list_perm.
Qed.

(** ** The enumeration of languages and dictionaries *)

Lemma lastIndexOf_app :
  forall (c : ascii) (a b : string),
    lastIndexOf c b = None ->
    lastIndexOf c (a ++ String c b) = Some (String.length a).
Proof.
  intros c a b Hb. induction a as [ | x a IH ]; cbn.
  - rewrite Hb. now rewrite Ascii.eqb_refl.
  - now rewrite IH.
Qed.

Lemma substring_prefix :
  forall a b : string, String.substring 0 (String.length a) (a ++ b) = a.
Proof.
  intros a b. induction a as [ | x a IH ]; cbn.
  - now destruct b.
  - now rewrite IH.
Qed.

Lemma strip_json :
  forall name : string, strip_extension (name ++ ".json") = name.
Proof.
  intro name. unfold strip_extension.
  rewrite (lastIndexOf_app "." name "json" eq_refl).
  apply substring_prefix.
Qed.

(** X15: [getSupportedLangs] misses no translation: for every strict
    tag, a file [<tag>.json] of the bundled directory, or of the user's
    directory when that can be read, yields the tag. *)
Theorem getSupportedLangs_complete :
  forall (files : list string) (user_files : option (list string))
         (tag : string),
    strict_tag tag ->
    In (tag ++ ".json")%string
       (files ++ match user_files with Some fs => fs | None => [] end) ->
    In tag (getSupportedLangs files user_files).
Proof.
  intros files user_files tag (l & u & Hl & Hu & ->) Hin.
  assert (Htest : lang_file_test ((l ++ "_" ++ u) ++ ".json") = true).
  { apply lang_file_test_anywhere. exists "", l, u, "".
    split; [exact Hl | ]. split; [exact Hu | ].
    cbn [String.append]. rewrite !append_assoc. reflexivity. }
  assert (Hone : forall fs, In ((l ++ "_" ++ u) ++ ".json")%string fs ->
                            In (l ++ "_" ++ u)%string (language_files fs)).
  { intros fs Hfs. unfold language_files.
    rewrite <- (strip_json (l ++ "_" ++ u)) at 1.
    apply in_map. apply filter_In. now split. }
  unfold getSupportedLangs. apply in_or_app. apply in_app_or in Hin.
  destruct Hin as [Hin | Hin]; [left; now apply Hone | right].
  destruct user_files as [fs | ]; [now apply Hone | contradiction].
Qed.

Lemma dict_dirs_In :
  forall (scanfolder : string) (dirs : list string) (d : string),
    In d (dict_dirs scanfolder dirs)
    <-> In d dirs
        /\ strict_tag d
        /\ isDir (path_join scanfolder d) = true
        /\ isDictAvailable (VStr d) = true.
Proof.
  intros scanfolder dirs d. unfold dict_dirs.
  rewrite filter_In, !andb_true_iff, dict_dir_test_strict.
  split.
  - intros (Hin & (Ht & Hd) & Ha). repeat split; assumption.
  - intros (Hin & Ht & Hd & Ha). repeat split; assumption.
Qed.

(** X16: [getDictionaries] returns exactly the entries of the bundled
    directory, and of the user's directory when that can be read, that
    are strict tags, directories, and dictionaries that are
    available. *)
Theorem getDictionaries_exactly :
  forall (dirs : list string) (user_dirs : option (list string)) (d : string),
    In d (getDictionaries dirs user_dirs)
    <-> (In d dirs /\ strict_tag d
         /\ isDir (path_join assets_dict d) = true
         /\ isDictAvailable (VStr d) = true)
        \/ (exists ds, user_dirs = Some ds /\ In d ds /\ strict_tag d
                       /\ isDir (path_join user_dict d) = true
                       /\ isDictAvailable (VStr d) = true).
Proof.
  intros dirs user_dirs d. unfold getDictionaries. rewrite in_app_iff.
  rewrite dict_dirs_In. split.
  - intros [H | H]; [now left | right].
    destruct user_dirs as [ds | ]; [ | contradiction].
    exists ds. split; [reflexivity | now apply dict_dirs_In].
  - intros [H | (ds & -> & H)]; [now left | right].
    now apply dict_dirs_In.
Qed.

(** ** The constructor *)

Lemma keys_kept_store_leaf :
  forall (tpl live : object) (k : string) (v leaf : value),
    keys_kept (VObj tpl) (VObj live) = true ->
    lookup k tpl = Some leaf -> is_plain_object leaf = false ->
    keys_kept (VObj tpl) (VObj (store k v live)) = true.
Proof.
  intros tpl live k v leaf. cbn [keys_kept]. revert live.
  induction tpl as [ | [k0 v0] r IH ]; intros [ | [k1 v1] r' ]; cbn;
    try discriminate.
  intros Hkept Hlook Hleaf.
  apply andb_prop in Hkept. destruct Hkept as [Hhead Hrest].
  apply andb_prop in Hhead. destruct Hhead as [Hk Hshape].
  apply String.eqb_eq in Hk. subst k1.
  destruct (String.eqb k0 k) eqn:Hk0; cbn.
  - injection Hlook as ->. rewrite String.eqb_refl, Hrest.
    destruct leaf; try discriminate; reflexivity.
  - rewrite String.eqb_refl, Hshape. cbn. now apply IH.
Qed.

Lemma checkPaths_config_ind :
  forall (P : object -> Prop) (st : Store),
    P (config st) ->
    (forall c v, P c -> P (store "openPaths" v c)) ->
    (forall c v, P c -> P (store "selectedDicts" v c)) ->
    P (config (final (checkPaths st))).
Proof.
  intros P st H0 Hopen Hdict. unfold checkPaths.
  set (st1 := with_disk (mkdir_dict (disk st)) st).
  assert (Hd : forall paths,
             P (config (final
                          match _sortPaths (set_openPaths (map VStr (uniq paths)) st1) with
                          | Ret _ st2 => prune_selectedDicts st2
                          | Throw e st2 => Throw e st2
                          end))).
  { intro paths. unfold _sortPaths. rewrite read_set_openPaths.
    unfold prune_selectedDicts.
    set (s2 := set_openPaths (sortPaths_array (map VStr (uniq paths)))
                 (set_openPaths (map VStr (uniq paths)) st1)).
    assert (Hs : P (config s2)) by (cbn; apply Hopen, Hopen; exact H0).
    clearbody s2.
    destruct (read (VObj (config s2)) "selectedDicts") as [ | | | str | ds | es ];
      cbn [final]; try exact Hs.
    - destruct (forallb isDictAvailable (map VStr (chars str))); exact Hs.
    - cbn. now apply Hdict.
    - case_matches; exact Hs. }
  destruct (read (VObj (config st1)) "openPaths") as [ | | | s | l | es ];
    try exact H0.
  - destruct (forallb lstat_ok (chars s)); [apply Hd | exact H0].
  - apply Hd.
Qed.

Lemma update_keeps_rules :
  forall (newcfg : value) (st : Store),
    _rules (final (update newcfg st)) = _rules st.
Proof.
  intros newcfg st. unfold update.
  destruct (for_in update_rec newcfg (config st)) as [[es n] r].
  destruct r; reflexivity.
Qed.

Lemma load_keeps_rules :
  forall st : Store, _rules (final (load st)) = _rules st.
Proof.
  intro st. unfold load.
  destruct (configPath_present (disk st));
    (destruct (configFile _) as [[raw | doc] | ];
     [reflexivity | now rewrite update_keeps_rules | reflexivity]).
Qed.

Lemma checkPaths_keeps_rules :
  forall st : Store, _rules (final (checkPaths st)) = _rules st.
Proof.
  intro st. unfold checkPaths.
  assert (Hd : forall paths st1,
             _rules st1 = _rules st ->
             _rules (final
                       match _sortPaths (set_openPaths (map VStr (uniq paths)) st1) with
                       | Ret _ st2 => prune_selectedDicts st2
                       | Throw e st2 => Throw e st2
                       end) = _rules st).
  { intros paths st1 H1. unfold _sortPaths. rewrite read_set_openPaths.
    unfold prune_selectedDicts. case_matches; exact H1. }
  destruct (read (VObj (config (with_disk (mkdir_dict (disk st)) st))) "openPaths");
    try reflexivity.
  - destruct (forallb lstat_ok (chars s)); [apply Hd; reflexivity | reflexivity].
  - apply Hd. reflexivity.
Qed.

Lemma load_keys_kept :
  forall st : Store,
    keys_kept (VObj (config st)) (VObj (config (final (load st)))) = true.
Proof.
  intro st. unfold load.
  destruct (configPath_present (disk st));
    (destruct (configFile _) as [[raw | doc] | ];
     [ apply keys_kept_refl
     | match goal with
       | |- context [update doc ?s] =>
           exact (proj1 (update_outcome doc s))
       end
     | apply keys_kept_refl ]).
Qed.

(** X17: when the constructor completes, whatever the backing file
    held, every key of the template is a key of the configuration, and
    so below every option that is an object in the template; the list
    of open paths is without duplicate and in order; the rules are the
    ones of [validation.json]; and there is an identifier, the
    generated one being non-empty. *)
Theorem constructor_establishes :
  forall (rules : list rule) (width : Z) (exts : list value)
         (raw_locale : string) (lang_files : list string)
         (user_lang_files : option (list string)) (path : string) (d : Disk)
         (st' : Store),
    constructor rules
      (initial_store width exts raw_locale lang_files user_lang_files path d)
    = Ret tt st' ->
    keys_kept
      (VObj (config (initial_store width exts raw_locale lang_files
                       user_lang_files path d)))
      (VObj (config st')) = true
    /\ (exists l, open_paths_are l st')
    /\ _rules st' = rules
    /\ (app_uuid <> "" -> falsy (read (VObj (config st')) "uuid") = false).
Proof.
  intros rules width exts raw_locale lang_files user_lang_files path d st'.
  set (st0 := initial_store width exts raw_locale lang_files user_lang_files
                path d).
  unfold constructor.
  pose proof (load_keys_kept st0) as Hk1.
  pose proof (load_keeps_rules st0) as Hr1.
  destruct (load st0) as [u1 st1 | e st1]; [ | discriminate].
  cbn [final] in Hk1, Hr1.
  destruct (checkSystem st1) as [u2 st2 | e st2] eqn:Hsys; [ | discriminate].
  destruct u2.
  destruct (checkSystem_returns_uuid st1 st2 Hsys) as (p2 & Hst2).
  assert (Hr2 : _rules st2 = _rules st1)
    by (rewrite Hst2; now rewrite ensure_uuid_rules).
  assert (Hu2 : app_uuid <> "" ->
                falsy (read (VObj (config st2)) "uuid") = false)
    by (rewrite Hst2; apply ensure_uuid_truthy).
  assert (Hk2 : keys_kept (VObj (config st0)) (VObj (config st2)) = true).
  { subst st2. unfold ensure_uuid. cbn [config with_PATH].
    destruct (falsy (read (VObj (config st1)) "uuid")); [ | exact Hk1].
    cbn [config with_config].
    eapply keys_kept_store_leaf; [exact Hk1 | reflexivity | reflexivity]. }
  pose proof (checkPaths_keeps_rules st2) as Hr3.
  pose proof (checkPaths_config_ind
                (fun c => keys_kept (VObj (config st0)) (VObj c) = true) st2 Hk2)
    as Hk3.
  pose proof (checkPaths_config_ind
                (fun c => lookup "uuid" c = lookup "uuid" (config st2)) st2 eq_refl)
    as Hu3.
  destruct (checkPaths st2) as [u3 st3 | e st3] eqn:Hcheck; [ | discriminate].
  destruct u3. cbn [final] in Hr3, Hk3, Hu3.
  intros [= <-]. cbn [config boot_rules _rules].
  split; [ | split; [ | split ] ].
  - apply Hk3; intros c v Hc;
      (eapply keys_kept_store_leaf; [exact Hc | reflexivity | reflexivity]).
  - destruct (checkPaths_establishes st2 st3 Hcheck) as (l & Hl).
    exists l. exact Hl.
  - rewrite Hr3, Hr2, Hr1. reflexivity.
  - intro Hne. unfold read in Hu2 |- *. cbn [own_property] in Hu2 |- *.
    rewrite Hu3; [now apply Hu2 | | ];
      intros c v Hc; (rewrite lookup_store_other by discriminate; exact Hc).
Qed.

(** X18: on a first start, with no backing file, a constructor that
    completes has written the file with the template as it stands
    then, before the identifier is generated; it leaves as
    configuration the template with the identifier filled in, has
    emitted no notification, and holds the rules of
    [validation.json]. *)
Theorem constructor_first_start :
  forall (rules : list rule) (width : Z) (exts : list value)
         (raw_locale : string) (lang_files : list string)
         (user_lang_files : option (list string)) (path : string) (d : Disk)
         (st' : Store),
    configFile d = None ->
    constructor rules
      (initial_store width exts raw_locale lang_files user_lang_files path d)
    = Ret tt st' ->
    config st'
    = store "uuid" (VStr app_uuid)
        (cfgtpl width exts
           (getLocale raw_locale
              (getSupportedLangs lang_files user_lang_files)))
    /\ configFile (disk st')
       = Some (WellFormed
                 (VObj (cfgtpl width exts
                          (getLocale raw_locale
                             (getSupportedLangs lang_files user_lang_files)))))
    /\ emitted st' = 0
    /\ _rules st' = rules.
Proof.
  intros rules width exts raw_locale lang_files user_lang_files path d st'
         Hfile.
  unfold constructor, initial_store.
  generalize (getLocale raw_locale (getSupportedLangs lang_files user_lang_files)).
  intro lang. unfold load.
  cbn [disk config with_disk].
  destruct (configPath_present d);
    cbn [disk config with_disk configFile mkdir_configPath _rules emitted PATH];
    rewrite Hfile; vm_compute; intros [= <-]; repeat split.
Qed.

(** ** [set] and [_validate]: the rules are obeyed *)

Lemma validate_first_rule :
  forall (key : string) (val : value) (st : Store)
         (before rest : list rule) (r : rule),
    _rules st = before ++ r :: rest ->
    (forall r', In r' before -> getKey r' <> key) ->
    getKey r = key ->
    _validate key val st = accepts r val.
Proof.
  intros key val st before rest r Hrules Hbefore Hkey.
  unfold _validate. rewrite Hrules. clear Hrules.
  induction before as [ | b before' IH ]; cbn [app find].
  - rewrite (proj2 (String.eqb_eq _ _) Hkey). reflexivity.
  - rewrite (proj2 (String.eqb_neq _ _) (Hbefore b (or_introl eq_refl))).
    apply IH. intros r' Hr'. apply Hbefore. right. exact Hr'.
Qed.

(** X19: the first rule registered for a key decides, for a plain key
    and for a dotted one alike: when it rejects the value, [set] does
    not return [true] and leaves the whole store, configuration and
    count of notifications included, as it was, whatever later rules
    for the same key would say. *)
Theorem set_refused_by_first_rule :
  forall (option : string) (val : value) (st : Store)
         (before rest : list rule) (r : rule),
    _rules st = before ++ r :: rest ->
    (forall r', In r' before -> getKey r' <> option) ->
    getKey r = option ->
    accepts r val = false ->
    returned (set option val st) <> Some true
    /\ final (set option val st) = st.
Proof.
  intros option val st before rest r Hrules Hbefore Hkey Hrej.
  apply set_rejected_value.
  rewrite (validate_first_rule option val st before rest r Hrules Hbefore Hkey).
  exact Hrej.
Qed.

(** ** [getLocale]: the parts of a locale and the first match *)

Lemma sep_free_indexOf :
  forall (sep : ascii) (w : string),
    sep_free sep w <-> indexOf sep w = None.
Proof.
  intros sep w. unfold sep_free.
  induction w as [ | a r IH ]; cbn.
  - split; [reflexivity | intros _ []].
  - destruct (Ascii.eqb a sep) eqn:Ha.
    + apply Ascii.eqb_eq in Ha. split; [ | discriminate].
      intro H. exfalso. apply H. now left.
    + apply Ascii.eqb_neq in Ha. destruct (indexOf sep r) as [i | ].
      * split; [ | discriminate]. intro H. exfalso.
        destruct IH as [IH _].
        assert (Hnone : @None nat = None) by reflexivity.
        assert (Hr : ~ In sep (list_ascii_of_string r))
          by (intro Hin; apply H; now right).
        discriminate (IH Hr).
      * split; [reflexivity | ]. intros _ [Heq | Hin]; [now apply Ha | ].
        destruct IH as [_ IH]. now apply (IH eq_refl).
Qed.

(** What [split] returns, put together again. *)
Lemma split_shape :
  forall (sep : ascii) (s : string),
    match split sep s with
    | [] => False
    | [h] => s = h
    | [h; w] => s = (h ++ String sep w)%string
    | h :: w :: x :: r =>
        s = (h ++ String sep (w ++ String sep (join sep (x :: r))))%string
    end.
Proof.
  intros sep s. generalize (join_split sep s). unfold split.
  destruct (cut sep s) as [h t]. intro Hj.
  destruct t as [ | w [ | x r ] ]; symmetry; exact Hj.
Qed.

Lemma first_part_is_main :
  forall (sep : ascii) (s : string), main_part sep s (first_part sep s).
Proof.
  intros sep s. pose proof (split_shape sep s) as Hs.
  pose proof (split_sep_free sep s) as Hf.
  unfold first_part. unfold split in Hs, Hf.
  destruct (cut sep s) as [h t]. cbn [fst].
  inversion Hf as [ | ? ? Hh _ ]; subst.
  split; [now apply sep_free_indexOf | ].
  destruct t as [ | w [ | x r ] ]; [now left | right; eauto | right; eauto].
Qed.

Lemma main_is_first_part :
  forall (sep : ascii) (s w : string),
    main_part sep s w -> first_part sep s = w.
Proof.
  intros sep s w [Hfree [-> | [rest ->]]];
    apply sep_free_indexOf in Hfree; unfold first_part.
  - now rewrite (cut_without_sep _ _ Hfree).
  - rewrite cut_app. now rewrite (cut_without_sep _ _ Hfree).
Qed.

Lemma second_part_is_sub :
  forall (sep : ascii) (s w : string),
    second_part sep s = Some w -> sub_part sep s w.
Proof.
  intros sep s w. pose proof (split_shape sep s) as Hs.
  pose proof (split_sep_free sep s) as Hf.
  unfold second_part.
  destruct (split sep s) as [ | h [ | w' [ | x r ] ] ]; cbn; try discriminate;
    intros [= ->];
    inversion Hf as [ | ? ? Hh Ht ]; subst;
    inversion Ht as [ | ? ? Hw _ ]; subst;
    exists h; (split; [now apply sep_free_indexOf | ]);
    (split; [now apply sep_free_indexOf | ]).
  - now left.
  - right. eauto.
Qed.

Lemma sub_is_second_part :
  forall (sep : ascii) (s w : string),
    sub_part sep s w -> second_part sep s = Some w.
Proof.
  intros sep s w (m & Hm & Hw & Hs).
  apply sep_free_indexOf in Hm. apply sep_free_indexOf in Hw.
  unfold second_part.
  destruct Hs as [-> | [rest ->]]; rewrite !split_app; unfold split at 1 2;
    rewrite (cut_without_sep _ _ Hm);
    try rewrite (cut_without_sep _ _ Hw); reflexivity.
Qed.

Lemma sub_part_has_sep :
  forall (sep : ascii) (s w : string),
    sub_part sep s w -> indexOf_found sep s = true.
Proof.
  intros sep s w (m & Hm & _ & Hs). apply sep_free_indexOf in Hm.
  unfold indexOf_found.
  destruct Hs as [-> | [rest ->]]; now rewrite (indexOf_app_sep _ _ _ Hm).
Qed.

(** The test of the loop of [getLocale] decides [matches_locale]. *)
Lemma tag_matches_spec :
  forall (main : string) (sub : option string) (tag : string),
    tag_matches main sub tag = true <-> matches_locale main sub tag.
Proof.
  intros main sub tag. unfold tag_matches, matches_locale. split.
  - intro H. apply andb_prop in H. destruct H as [Hm Hs].
    apply String.eqb_eq in Hm. subst main.
    split; [apply first_part_is_main | ].
    destruct sub as [s | ]; [ | exact I].
    destruct (second_part "_" tag) as [s' | ] eqn:Hsec; [ | discriminate].
    apply String.eqb_eq in Hs. subst s'. now apply second_part_is_sub.
  - intros [Hm Hs]. rewrite (main_is_first_part _ _ _ Hm), String.eqb_refl.
    destruct sub as [s | ]; [ | reflexivity].
    rewrite (sub_is_second_part _ _ _ Hs). cbn. apply String.eqb_refl.
Qed.

Lemma find_first :
  forall (A : Type) (f : A -> bool) (l : list A),
    match find f l with
    | Some x =>
        exists before after,
          l = before ++ x :: after
          /\ f x = true
          /\ forall y, In y before -> f y = false
    | None => forall y, In y l -> f y = false
    end.
Proof.
  intros A f l. induction l as [ | a r IH ]; cbn; [intros y [] | ].
  destruct (f a) eqn:Ha.
  - exists [], r. split; [reflexivity | ]. split; [exact Ha | intros y []].
  - destruct (find f r) as [x | ].
    + destruct IH as (before & after & -> & Hx & Hbefore).
      exists (a :: before), after. split; [reflexivity | ].
      split; [exact Hx | ]. intros y [<- | Hy]; [exact Ha | now apply Hbefore].
    + intros y [<- | Hy]; [exact Ha | now apply IH].
Qed.

(** C7: [getLocale] splits the raw locale on [-]: the main part is what
    stands before the first [-], the sub part what stands between the
    first [-] and the next, and there is none when the raw locale has
    no [-]; every raw locale splits so.  The result is the first
    supported tag that matches: what stands before its first [_] is the
    raw main part and, a raw sub part being given, what stands between
    its first [_] and the next is the raw sub part; the tags before it
    do not match; when no tag matches the result is [en_US]. *)
Theorem getLocale_first_match :
  forall (raw : string) (sups : list string),
    (exists main sub, raw_split raw main sub)
    /\ forall (main : string) (sub : option string),
         raw_split raw main sub ->
         (exists before tag after,
             sups = before ++ tag :: after
             /\ matches_locale main sub tag
             /\ (forall t, In t before -> ~ matches_locale main sub t)
             /\ getLocale raw sups = tag)
         \/ ((forall t, In t sups -> ~ matches_locale main sub t)
             /\ getLocale raw sups = "en_US").
Proof.
  intros raw sups. split.
  - exists (first_part "-" raw).
    destruct (indexOf "-" raw) as [i | ] eqn:Hdash.
    + destruct (second_part "-" raw) as [s | ] eqn:Hsec.
      * exists (Some s). split; [apply first_part_is_main | ].
        now apply second_part_is_sub.
      * exfalso. assert (Hsep : indexOf "-" raw <> None) by congruence.
        apply cut_with_sep in Hsep. unfold second_part, split in Hsec.
        destruct (cut "-" raw) as [h [ | t ts]];
          [now apply Hsep | discriminate].
    + exists None. split; [apply first_part_is_main | ].
      now apply sep_free_indexOf.
  - intros main sub [Hmain Hsub].
    assert (Hrun : getLocale raw sups
                   = match find (tag_matches main sub) sups with
                     | Some tag => tag
                     | None => "en_US"
                     end).
    { unfold getLocale. destruct sub as [s | ].
      - rewrite (sub_part_has_sep _ _ _ Hsub).
        rewrite (main_is_first_part _ _ _ Hmain).
        rewrite (sub_is_second_part _ _ _ Hsub).
        apply first_supported_find.
      - apply sep_free_indexOf in Hsub. unfold indexOf_found. rewrite Hsub.
        rewrite <- (main_is_first_part _ _ _ Hmain). unfold first_part.
        rewrite (cut_without_sep _ _ Hsub). apply first_supported_find. }
    rewrite Hrun. pose proof (find_first _ (tag_matches main sub) sups) as Hfind.
    destruct (find (tag_matches main sub) sups) as [tag | ].
    + left. destruct Hfind as (before & after & Hl & Htag & Hbefore).
      exists before, tag, after. split; [exact Hl | ].
      split; [now apply tag_matches_spec | ]. split; [ | reflexivity].
      intros t Ht Hmatch. apply tag_matches_spec in Hmatch.
      rewrite (Hbefore t Ht) in Hmatch. discriminate.
    + right. split; [ | reflexivity].
      intros t Ht Hmatch. apply tag_matches_spec in Hmatch.
      rewrite (Hfind t Ht) in Hmatch. discriminate.
Qed.

End ZettlrConfig.

(* ================================================================== *)
(** * The properties at work *)

(** C1, as the specification states it, fails: with a backing file
    that does not parse, [load()] returns normally and has replaced the
    file by the template. *)
Lemma load_malformed_not_fatal :
  configFile (disk damaged_store) = Some (Malformed "{ not json")
  /\ returned (load damaged_store) = Some tt
  /\ configFile (disk (final (load damaged_store)))
     = Some (WellFormed (VObj (cfgtpl 1280 [VStr ".pdf"] "en_US"))).
Proof. repeat split. Qed.

Lemma load_malformed_writes_template_witness :
  configFile (disk damaged_store) = Some (Malformed "{ not json")
  /\ exists st',
       load damaged_store = Ret tt st'
       /\ config st' = config damaged_store
       /\ emitted st' = emitted damaged_store
       /\ configFile (disk st') = Some (WellFormed (VObj (config damaged_store))).
Proof.
  split; [reflexivity | ].
  apply (load_malformed_writes_template damaged_store "{ not json").
  reflexivity.
Defined.

(** C3, as the specification states it, fails: merging a file that
    sets [window.x] emits twice, once for the sub-tree [window] and
    once for the root. *)
Lemma update_emits_twice :
  returned (update moved_window fresh_store) = Some tt
  /\ emitted fresh_store = 0
  /\ emitted (final (update moved_window fresh_store)) = 2.
Proof. vm_compute. repeat split. Qed.

Lemma update_emits_once_per_step_witness :
  mergeable moved_window (VObj (config fresh_store)) = true
  /\ exists st',
       update moved_window fresh_store = Ret tt st'
       /\ emitted st'
          = emitted fresh_store + 1
            + descents moved_window (VObj (config fresh_store)).
Proof.
  split; [reflexivity | ].
  apply (update_emits_once_per_step moved_window fresh_store).
  reflexivity.
Defined.

Lemma update_is_recursive_merge_witness :
  mergeable moved_window (VObj (config fresh_store)) = true
  /\ exists st',
       update moved_window fresh_store = Ret tt st'
       /\ VObj (config st') = merge moved_window (VObj (config fresh_store))
       /\ forall k,
            lookup k (config st')
            = match lookup k (config fresh_store) with
              | Some v =>
                  Some (match own_property moved_window k with
                        | Some nv =>
                            match v with
                            | VObj _ => merge nv v
                            | _ => nv
                            end
                        | None => v
                        end)
              | None => None
              end.
Proof.
  split; [reflexivity | ].
  apply (proj1 (proj2 (update_is_recursive_merge moved_window fresh_store))).
  reflexivity.
Defined.



(** The method [get] itself hands out the reference that the tree
    holds: cell 0 is the array of the configuration. *)
Lemma get_hands_out_reference :
  h_get "openPaths" demo_heap 1 = Normal (HRef 0).
Proof. reflexivity. Qed.

Lemma open_paths_unique_and_ordered_witness :
  path_run demo_isDir demo_ignoreFile only_en_US gone_lstat_ok demo_sort_mixed
    demo_indices_below
    (final (removePath "/a.md"
              (final (set refuse_array_assign "debug" (VBool true)
                (final (addPath demo_isDir demo_ignoreFile demo_sort_mixed "/b.md"
                  (final (checkPaths demo_isDir only_en_US gone_lstat_ok demo_sort_mixed
                    demo_indices_below stale_store))))))))
  /\ exists l : list string,
       read (VObj (config
                     (final (removePath "/a.md"
                               (final (set refuse_array_assign "debug" (VBool true)
                                 (final (addPath demo_isDir demo_ignoreFile demo_sort_mixed "/b.md"
                                   (final (checkPaths demo_isDir only_en_US gone_lstat_ok demo_sort_mixed
                                     demo_indices_below stale_store))))))))))
         "openPaths"
       = VArr (map VStr l)
       /\ NoDup l
       /\ files_then_dirs demo_isDir l
       /\ forall p,
            In p l ->
            addPath demo_isDir demo_ignoreFile demo_sort_mixed p
              (final (removePath "/a.md"
                        (final (set refuse_array_assign "debug" (VBool true)
                          (final (addPath demo_isDir demo_ignoreFile demo_sort_mixed "/b.md"
                            (final (checkPaths demo_isDir only_en_US gone_lstat_ok demo_sort_mixed
                              demo_indices_below stale_store))))))))
            = Ret false
                (final (removePath "/a.md"
                          (final (set refuse_array_assign "debug" (VBool true)
                            (final (addPath demo_isDir demo_ignoreFile demo_sort_mixed "/b.md"
                              (final (checkPaths demo_isDir only_en_US gone_lstat_ok demo_sort_mixed
                                demo_indices_below stale_store)))))))).
Proof.
  assert (Hrun :
            path_run demo_isDir demo_ignoreFile only_en_US gone_lstat_ok
              demo_sort_mixed demo_indices_below
              (final (removePath "/a.md"
                        (final (set refuse_array_assign "debug" (VBool true)
                          (final (addPath demo_isDir demo_ignoreFile demo_sort_mixed "/b.md"
                            (final (checkPaths demo_isDir only_en_US gone_lstat_ok demo_sort_mixed
                              demo_indices_below stale_store))))))))).
  { apply run_removePath.
    eapply run_other;
      [ | apply (set_other_key_keeps_paths refuse_array_assign "debug"
                   (VBool true)); [reflexivity | discriminate] ].
    apply run_addPath.
    apply (run_checkPaths _ _ _ _ _ _ stale_store). reflexivity. }
  split; [exact Hrun | ].
  exact (open_paths_unique_and_ordered _ _ _ _ _ _ _ Hrun).
Defined.

(** The list of that store: the file that was added and the directory;
    the file that is gone was pruned at startup, [/a.md] was removed. *)
Lemma open_paths_example :
  read (VObj (config
                (final (removePath "/a.md"
                          (final (set refuse_array_assign "debug" (VBool true)
                            (final (addPath demo_isDir demo_ignoreFile demo_sort_mixed "/b.md"
                              (final (checkPaths demo_isDir only_en_US gone_lstat_ok demo_sort_mixed
                                demo_indices_below stale_store))))))))))
    "openPaths"
  = VArr [VStr "/b.md"; VStr "/notes"].
Proof. vm_compute. reflexivity. Qed.

(** C6, as the specification states it, fails: a list with a duplicate
    that was written through [set] keeps its duplicate after [addPath],
    after [removePath] and after [_sortPaths], and [removePath] leaves
    it out of order. *)
Lemma open_paths_duplicates_stay :
  returned (set refuse_array_assign "openPaths" duplicate_paths fresh_store)
  = Some true
  /\ returned
       (addPath demo_isDir demo_ignoreFile demo_sort_mixed "/c.md"
          (final (set refuse_array_assign "openPaths" duplicate_paths
                    fresh_store)))
     = Some true
  /\ read (VObj (config
                   (final (addPath demo_isDir demo_ignoreFile demo_sort_mixed
                             "/c.md"
                             (final (set refuse_array_assign "openPaths"
                                       duplicate_paths fresh_store))))))
       "openPaths"
     = VArr (map VStr ["/a.md"; "/a.md"; "/b.md"; "/c.md"])
  /\ ~ NoDup ["/a.md"; "/a.md"; "/b.md"; "/c.md"]
  /\ read (VObj (config
                   (final (_sortPaths demo_isDir demo_sort_mixed
                             (final (set refuse_array_assign "openPaths"
                                       duplicate_paths fresh_store))))))
       "openPaths"
     = VArr (map VStr ["/a.md"; "/a.md"; "/b.md"])
  /\ read (VObj (config
                   (final (removePath "/c.md"
                             (final (set refuse_array_assign "openPaths"
                                       duplicate_paths fresh_store))))))
       "openPaths"
     = VArr (map VStr ["/b.md"; "/a.md"; "/a.md"])
  /\ read (VObj (config
                   (final (removePath "/b.md"
                             (final (set refuse_array_assign "openPaths"
                                       duplicate_paths fresh_store))))))
       "openPaths"
     = VArr (map VStr ["/a.md"; "/a.md"]).
Proof.
  split; [reflexivity | ]. split; [reflexivity | ].
  split; [vm_compute; reflexivity | ].
  split; [ | repeat split; vm_compute; reflexivity].
  intro H. inversion H as [ | x l Hnotin _ ]; subst.
  apply Hnotin. left. reflexivity.
Qed.

(** [en-GB] against [de_DE], [en_US]: the main part matches [en_US],
    the sub part does not, and the default is returned; [en] alone
    takes the first tag of its language; [de-DE] is matched exactly. *)
Lemma getLocale_examples :
  getLocale "en-GB" ["de_DE"; "en_US"] = "en_US"
  /\ getLocale "en-GB" ["de_DE"; "en_AU"; "en_GB"] = "en_GB"
  /\ getLocale "en" ["de_DE"; "en_AU"; "en_GB"] = "en_AU"
  /\ getLocale "de-DE" ["de_AT"; "de_DE"] = "de_DE"
  /\ getLocale "fr-FR" ["de_AT"; "de_DE"] = "en_US".
Proof. vm_compute. repeat split. Qed.

Lemma de_DE_raw_split : raw_split "de-DE" "de" (Some "DE").
Proof.
  split.
  - split; [ | right; exists "DE"; reflexivity].
    intro H. cbn in H. destruct H as [H | [H | []]]; discriminate H.
  - exists "de". split; [ | split; [ | left; reflexivity]];
      intro H; cbn in H; destruct H as [H | [H | []]]; discriminate H.
Defined.

Lemma getLocale_first_match_witness :
  raw_split "de-DE" "de" (Some "DE")
  /\ ((exists before tag after,
          ["de_AT"; "de_DE"; "en_US"] = before ++ tag :: after
          /\ matches_locale "de" (Some "DE") tag
          /\ (forall t, In t before -> ~ matches_locale "de" (Some "DE") t)
          /\ getLocale "de-DE" ["de_AT"; "de_DE"; "en_US"] = tag)
      \/ ((forall t,
              In t ["de_AT"; "de_DE"; "en_US"] ->
              ~ matches_locale "de" (Some "DE") t)
          /\ getLocale "de-DE" ["de_AT"; "de_DE"; "en_US"] = "en_US")).
Proof.
  split; [exact de_DE_raw_split | ].
  exact (proj2 (getLocale_first_match "de-DE" ["de_AT"; "de_DE"; "en_US"])
           "de" (Some "DE") de_DE_raw_split).
Defined.

Lemma checkSystem_path_idempotent_witness :
  Forall (fun x => indexOf (delim linux) x = None)
    (_additional_paths linux [] ["/usr/local/bin"; "/snap/bin/"] [])
  /\ PATH (final (checkSystem linux [] ["/usr/local/bin"; "/snap/bin/"] []
                    posix_dirname "app-uuid"
                    (final (checkSystem linux [] ["/usr/local/bin"; "/snap/bin/"] []
                              posix_dirname "app-uuid" fresh_store))))
     = PATH (final (checkSystem linux [] ["/usr/local/bin"; "/snap/bin/"] []
                      posix_dirname "app-uuid" fresh_store)).
Proof.
  assert (Hfree : Forall (fun x => indexOf (delim linux) x = None)
                    (_additional_paths linux [] ["/usr/local/bin"; "/snap/bin/"] []))
    by (repeat constructor).
  split; [exact Hfree | ].
  exact (checkSystem_path_idempotent linux [] ["/usr/local/bin"; "/snap/bin/"] []
           posix_dirname "app-uuid" Hfree fresh_store).
Defined.

(** The search path of that run. *)
Lemma checkSystem_example :
  PATH (final (checkSystem linux [] ["/usr/local/bin"; "/bin/"; "/snap/bin/"] []
                 posix_dirname "app-uuid" fresh_store))
  = "/usr/bin:/bin:/usr/local/bin:/snap/bin/:.".
Proof. vm_compute. reflexivity. Qed.

(** Without the assumption of C9 on the table, an additional
    directory that holds the delimiter is added at every run. *)
Lemma checkSystem_delimiter_in_table :
  PATH (final (checkSystem linux [] ["/opt/a:b"] [] posix_dirname "app-uuid"
                 fresh_store))
  = "/usr/bin:/bin:/opt/a:b:."
  /\ PATH (final (checkSystem linux [] ["/opt/a:b"] [] posix_dirname "app-uuid"
                    (final (checkSystem linux [] ["/opt/a:b"] [] posix_dirname
                              "app-uuid" fresh_store))))
     = "/usr/bin:/bin:/opt/a:b:.:/opt/a:b".
Proof. vm_compute. split; reflexivity. Qed.

Lemma only_set_and_update_notify_witness :
  update (VObj []) fresh_store = Ret tt (emit fresh_store)
  /\ emitted fresh_store < emitted (emit fresh_store)
  /\ emitted (final (addPath demo_isDir demo_ignoreFile demo_sort_mixed "/a.md"
                       fresh_store))
     = emitted fresh_store.
Proof.
  assert (Hrun : update (VObj []) fresh_store = Ret tt (emit fresh_store))
    by reflexivity.
  destruct (only_set_and_update_notify refuse_array_assign demo_isDir
              demo_ignoreFile demo_isDictAvailable demo_lstat_ok
              demo_sort_mixed demo_indices_below fresh_store)
    as (Hadd & _ & _ & _ & Hupdate).
  split; [exact Hrun | ].
  split; [exact (Hupdate (VObj []) (emit fresh_store) Hrun) | exact (Hadd "/a.md")].
Defined.

(** The calls of C10 on the template: a rejected [set] is silent, an
    accepted one emits once. *)
Lemma set_examples :
  returned (set refuse_array_assign "nonexistent.key" (VNum 1) fresh_store)
  = Some false
  /\ final (set refuse_array_assign "nonexistent.key" (VNum 1) fresh_store)
     = fresh_store
  /\ returned (set refuse_array_assign "pdf.fontsize" (VNum 14) fresh_store)
     = Some true
  /\ emitted (final (set refuse_array_assign "pdf.fontsize" (VNum 14) fresh_store))
     = 1
  /\ get "pdf.fontsize"
       (final (set refuse_array_assign "pdf.fontsize" (VNum 14) fresh_store))
     = Normal (VNum 14).
Proof. vm_compute. repeat split. Qed.

(** ** Further properties at work *)

Lemma bulkSet_reports_all_or_some_witness :
  bulkSet refuse_array_assign unknown_then_debug fresh_store
  = Ret false
      (final (bulkSet refuse_array_assign unknown_then_debug fresh_store))
  /\ exists (b1 : bool) (st1 : Store) (ok : bool) (st2 : Store) (b2 : bool),
       bulkSet refuse_array_assign [("theme", VStr "dark")] fresh_store
       = Ret b1 st1
       /\ set refuse_array_assign "debug" (VBool true) st1 = Ret ok st2
       /\ bulkSet refuse_array_assign [] st2
          = Ret b2
              (final (bulkSet refuse_array_assign unknown_then_debug
                        fresh_store))
       /\ false = b1 && ok && b2.
Proof.
  assert (Hrun : bulkSet refuse_array_assign unknown_then_debug fresh_store
                 = Ret false
                     (final (bulkSet refuse_array_assign unknown_then_debug
                               fresh_store)))
    by reflexivity.
  split; [exact Hrun | ].
  exact (proj1 (bulkSet_reports_all_or_some refuse_array_assign
                  unknown_then_debug fresh_store false _ Hrun)
           [("theme", VStr "dark")] "debug" (VBool true) [] eq_refl).
Defined.

(** The run of that call: the first entry is refused, the second one
    is set all the same, with its notification. *)
Lemma bulkSet_example :
  set refuse_array_assign "theme" (VStr "dark") fresh_store
  = Ret false fresh_store
  /\ returned (bulkSet refuse_array_assign unknown_then_debug fresh_store)
     = Some false
  /\ get "debug"
       (final (bulkSet refuse_array_assign unknown_then_debug fresh_store))
     = Normal (VBool true)
  /\ emitted (final (bulkSet refuse_array_assign unknown_then_debug
                       fresh_store))
     = 1.
Proof. vm_compute. repeat split. Qed.

Lemma set_then_get_witness :
  set refuse_array_assign "window.x" (VNum 40) fresh_store
  = Ret true (final (set refuse_array_assign "window.x" (VNum 40) fresh_store))
  /\ lookup "window.x" (config fresh_store) = None
  /\ through_objects (VObj (config fresh_store)) (parents "window.x") = true
  /\ get "window.x"
       (final (set refuse_array_assign "window.x" (VNum 40) fresh_store))
     = Normal (VNum 40).
Proof.
  assert (Hrun : set refuse_array_assign "window.x" (VNum 40) fresh_store
                 = Ret true
                     (final (set refuse_array_assign "window.x" (VNum 40)
                               fresh_store)))
    by reflexivity.
  assert (Hpath : lookup "window.x" (config fresh_store) = None
                  /\ through_objects (VObj (config fresh_store))
                       (parents "window.x") = true)
    by (split; reflexivity).
  split; [exact Hrun | ].
  split; [exact (proj1 Hpath) | ].
  split; [exact (proj2 Hpath) | ].
  exact (set_then_get refuse_array_assign "window.x" (VNum 40) fresh_store _
           Hrun Hpath).
Defined.

Lemma update_foreign_keys_witness :
  has_method foreign_file = true
  /\ (forall k, In k (map fst (config fresh_store)) ->
                own_property foreign_file k = None)
  /\ update foreign_file fresh_store = Ret tt (emit fresh_store).
Proof.
  assert (Hm : has_method foreign_file = true) by reflexivity.
  assert (Hk : forall k, In k (map fst (config fresh_store)) ->
                         own_property foreign_file k = None).
  { intros k Hin. cbn in Hin.
    repeat (destruct Hin as [<- | Hin]; [reflexivity | ]). contradiction. }
  split; [exact Hm | ].
  split; [exact Hk | ].
  exact (update_foreign_keys foreign_file fresh_store Hm Hk).
Defined.

Lemma update_twice_witness :
  unique_keys moved_window = true
  /\ update moved_window fresh_store = Ret tt moved_store
  /\ update moved_window moved_store
     = Ret tt (final (update moved_window moved_store))
  /\ config (final (update moved_window moved_store)) = config moved_store.
Proof.
  assert (Hu : unique_keys moved_window = true) by reflexivity.
  assert (H1 : update moved_window fresh_store = Ret tt moved_store)
    by reflexivity.
  assert (H2 : update moved_window moved_store
               = Ret tt (final (update moved_window moved_store)))
    by reflexivity.
  split; [exact Hu | ].
  split; [exact H1 | ].
  split; [exact H2 | ].
  exact (update_twice moved_window fresh_store moved_store _ Hu H1 H2).
Defined.

Lemma save_then_load_witness :
  tidy (VObj (config restarted_store)) = true
  /\ keys_kept (VObj (config restarted_store)) (VObj (config moved_store)) = true
  /\ configFile (disk restarted_store)
     = configFile (disk (final (save moved_store)))
  /\ exists st',
       load restarted_store = Ret tt st' /\ config st' = config moved_store.
Proof.
  assert (Ht : tidy (VObj (config restarted_store)) = true) by reflexivity.
  assert (Hk : keys_kept (VObj (config restarted_store))
                 (VObj (config moved_store)) = true) by reflexivity.
  assert (Hf : configFile (disk restarted_store)
               = configFile (disk (final (save moved_store)))) by reflexivity.
  split; [exact Ht | ].
  split; [exact Hk | ].
  split; [exact Hf | ].
  exact (save_then_load moved_store restarted_store Ht Hk Hf).
Defined.

Lemma checkSystem_sets_uuid_only_witness :
  checkSystem linux [] ["/usr/local/bin"] [] posix_dirname "app-uuid" fresh_store
  = Ret tt (final (checkSystem linux [] ["/usr/local/bin"] [] posix_dirname
                     "app-uuid" fresh_store))
  /\ "app-uuid" <> ""
  /\ falsy (read (VObj (config (final (checkSystem linux [] ["/usr/local/bin"]
                                         [] posix_dirname "app-uuid"
                                         fresh_store))))
              "uuid") = false.
Proof.
  assert (Hrun : checkSystem linux [] ["/usr/local/bin"] [] posix_dirname
                   "app-uuid" fresh_store
                 = Ret tt (final (checkSystem linux [] ["/usr/local/bin"] []
                                    posix_dirname "app-uuid" fresh_store)))
    by reflexivity.
  assert (Hne : "app-uuid" <> "") by discriminate.
  split; [exact Hrun | ].
  split; [exact Hne | ].
  destruct (checkSystem_sets_uuid_only linux [] ["/usr/local/bin"] []
              posix_dirname "app-uuid" fresh_store)
    as (_ & _ & _ & _ & _ & Hid).
  exact (Hid _ Hrun Hne).
Defined.

Lemma checkSystem_completes_PATH_witness :
  Forall (fun x => indexOf (delim linux) x = None)
    (_additional_paths linux [] ["/usr/local/bin"; "/snap/bin/"] [])
  /\ checkSystem linux [] ["/usr/local/bin"; "/snap/bin/"] [] posix_dirname
       "app-uuid" fresh_store
     = Ret tt (final (checkSystem linux [] ["/usr/local/bin"; "/snap/bin/"] []
                        posix_dirname "app-uuid" fresh_store))
  /\ forall x,
       In x (_additional_paths linux [] ["/usr/local/bin"; "/snap/bin/"] []) ->
       covered x
         (split (delim linux)
            (PATH (final (checkSystem linux [] ["/usr/local/bin"; "/snap/bin/"]
                            [] posix_dirname "app-uuid" fresh_store))))
       = true.
Proof.
  assert (Hfree : Forall (fun x => indexOf (delim linux) x = None)
                    (_additional_paths linux [] ["/usr/local/bin"; "/snap/bin/"] []))
    by (repeat constructor).
  assert (Hrun : checkSystem linux [] ["/usr/local/bin"; "/snap/bin/"] []
                   posix_dirname "app-uuid" fresh_store
                 = Ret tt (final (checkSystem linux []
                                    ["/usr/local/bin"; "/snap/bin/"] []
                                    posix_dirname "app-uuid" fresh_store)))
    by reflexivity.
  split; [exact Hfree | ].
  split; [exact Hrun | ].
  exact (proj1 (checkSystem_completes_PATH linux []
                  ["/usr/local/bin"; "/snap/bin/"] [] posix_dirname "app-uuid"
                  Hfree fresh_store _ Hrun)).
Defined.

Lemma checkPaths_keeps_existing_witness :
  checkPaths demo_isDir only_en_US gone_lstat_ok demo_sort_mixed
    demo_indices_below stale_store
  = Ret tt (final (checkPaths demo_isDir only_en_US gone_lstat_ok
                     demo_sort_mixed demo_indices_below stale_store))
  /\ read (VObj (config stale_store)) "openPaths"
     = VArr [VStr "/gone.md"; VStr "/notes"; VStr "/a.md";
             VStr "/gone.md"; VStr "/a.md"]
  /\ exists l' : list string,
       read (VObj (config (final (checkPaths demo_isDir only_en_US
                                    gone_lstat_ok demo_sort_mixed
                                    demo_indices_below stale_store))))
         "openPaths"
       = VArr (map VStr l')
       /\ forall p,
            In p l'
            <-> In (VStr p) [VStr "/gone.md"; VStr "/notes"; VStr "/a.md";
                             VStr "/gone.md"; VStr "/a.md"]
                /\ gone_lstat_ok p = true.
Proof.
  assert (Hrun : checkPaths demo_isDir only_en_US gone_lstat_ok
                   demo_sort_mixed demo_indices_below stale_store
                 = Ret tt (final (checkPaths demo_isDir only_en_US
                                    gone_lstat_ok demo_sort_mixed
                                    demo_indices_below stale_store)))
    by reflexivity.
  assert (Hl : read (VObj (config stale_store)) "openPaths"
               = VArr [VStr "/gone.md"; VStr "/notes"; VStr "/a.md";
                       VStr "/gone.md"; VStr "/a.md"]) by reflexivity.
  split; [exact Hrun | ].
  split; [exact Hl | ].
  exact (checkPaths_keeps_existing demo_isDir only_en_US gone_lstat_ok
           demo_sort_mixed demo_indices_below stale_store _ _ Hrun Hl).
Defined.

Lemma checkPaths_prunes_selectedDicts_witness :
  checkPaths demo_isDir only_en_US gone_lstat_ok demo_sort_mixed
    demo_indices_below stale_store
  = Ret tt (final (checkPaths demo_isDir only_en_US gone_lstat_ok
                     demo_sort_mixed demo_indices_below stale_store))
  /\ read (VObj (config stale_store)) "selectedDicts"
     = VArr [VStr "de_DE"; VStr "fr_FR"; VStr "en_US"; VStr "it_IT"]
  /\ read (VObj (config (final (checkPaths demo_isDir only_en_US
                                  gone_lstat_ok demo_sort_mixed
                                  demo_indices_below stale_store))))
       "selectedDicts"
     = VArr (filter only_en_US
               [VStr "de_DE"; VStr "fr_FR"; VStr "en_US"; VStr "it_IT"]).
Proof.
  assert (Hrun : checkPaths demo_isDir only_en_US gone_lstat_ok
                   demo_sort_mixed demo_indices_below stale_store
                 = Ret tt (final (checkPaths demo_isDir only_en_US
                                    gone_lstat_ok demo_sort_mixed
                                    demo_indices_below stale_store)))
    by reflexivity.
  assert (Hd : read (VObj (config stale_store)) "selectedDicts"
               = VArr [VStr "de_DE"; VStr "fr_FR"; VStr "en_US"; VStr "it_IT"])
    by reflexivity.
  split; [exact Hrun | ].
  split; [exact Hd | ].
  exact (checkPaths_prunes_selectedDicts demo_isDir only_en_US gone_lstat_ok
           demo_sort_mixed demo_indices_below stale_store _ _ Hrun Hd).
Defined.

(** What that pass leaves: the file that is gone and the second
    mentions are out of the list, the file stands before the
    directory, and of the dictionaries the installed one is left. *)
Lemma checkPaths_example :
  read (VObj (config (final (checkPaths demo_isDir only_en_US gone_lstat_ok
                               demo_sort_mixed demo_indices_below
                               stale_store))))
    "openPaths"
  = VArr [VStr "/a.md"; VStr "/notes"]
  /\ read (VObj (config (final (checkPaths demo_isDir only_en_US
                                  gone_lstat_ok demo_sort_mixed
                                  demo_indices_below stale_store))))
       "selectedDicts"
     = VArr [VStr "en_US"].
Proof. vm_compute. split; reflexivity. Qed.

(** An object where the array of selected dictionaries should be: with
    a [length] of zero the loop does not run and [checkPaths] returns;
    with a [length] of one the entry [0], which is not there, is not
    available, and the call throws. *)
Lemma checkPaths_object_for_dicts :
  returned
    (checkPaths demo_isDir only_en_US gone_lstat_ok demo_sort_mixed
       demo_indices_below
       (with_config
          (store "selectedDicts" (VObj [("length", VNum 0)]) (config fresh_store))
          fresh_store))
  = Some tt
  /\ returned
       (checkPaths demo_isDir only_en_US gone_lstat_ok demo_sort_mixed
          demo_indices_below
          (with_config
             (store "selectedDicts" (VObj [("length", VNum 1)])
                (config fresh_store))
             fresh_store))
     = None.
Proof. vm_compute. split; reflexivity. Qed.

Lemma opened_store_paths :
  open_paths_are demo_isDir ["/a.md"; "/notes"] opened_store.
Proof.
  split; [reflexivity | ].
  split.
  - apply NoDup_cons; [cbn; intros [H | []]; discriminate | ].
    apply NoDup_cons; [intros [] | apply NoDup_nil].
  - exists ["/a.md"], ["/notes"]. repeat split; repeat constructor.
Defined.

Lemma removePath_removes_witness :
  open_paths_are demo_isDir ["/a.md"; "/notes"] opened_store
  /\ exists st',
       removePath "/a.md" opened_store = Ret tt st'
       /\ open_paths_are demo_isDir (remove_str "/a.md" ["/a.md"; "/notes"]) st'
       /\ ~ In "/a.md" (remove_str "/a.md" ["/a.md"; "/notes"]).
Proof.
  split; [exact opened_store_paths | ].
  destruct (removePath_removes demo_isDir ["/a.md"; "/notes"] "/a.md"
              opened_store opened_store_paths)
    as (st' & Hrun & Hpaths & Hgone & _).
  exists st'. split; [exact Hrun | ]. split; [exact Hpaths | exact Hgone].
Defined.

Lemma addPath_adds_witness :
  open_paths_are demo_isDir ["/a.md"; "/notes"] opened_store
  /\ (returned (addPath demo_isDir demo_ignoreFile demo_sort_mixed "/b.md"
                  opened_store) = Some true
      <-> (demo_ignoreFile "/b.md" = false \/ demo_isDir "/b.md" = true)
          /\ ~ In "/b.md" ["/a.md"; "/notes"]).
Proof.
  split; [exact opened_store_paths | ].
  exact (proj1 (addPath_adds demo_isDir demo_ignoreFile demo_sort_mixed
                  ["/a.md"; "/notes"] "/b.md" opened_store opened_store_paths)).
Defined.

Lemma sortPaths_list_canonical_witness :
  Permutation ["/notes"; "/b.md"; "/a.md"] ["/b.md"; "/a.md"; "/notes"]
  /\ sortPaths_list demo_isDir ["/notes"; "/b.md"; "/a.md"]
     = sortPaths_list demo_isDir ["/b.md"; "/a.md"; "/notes"].
Proof.
  assert (Hp : Permutation ["/notes"; "/b.md"; "/a.md"]
                 ["/b.md"; "/a.md"; "/notes"]).
  { exact (Permutation_cons_append ["/b.md"; "/a.md"] "/notes"). }
  split; [exact Hp | ].
  exact (proj1 (sortPaths_list_canonical demo_isDir _ _ Hp)).
Defined.

Lemma de_DE_strict : strict_tag "de_DE".
Proof.
  exists "de", "DE". split; [ | split; [ | reflexivity]].
  - split; [cbn; lia | repeat constructor].
  - split; [cbn; lia | repeat constructor].
Defined.

Lemma getSupportedLangs_complete_witness :
  strict_tag "de_DE"
  /\ In ("de_DE" ++ ".json")%string
       (["en_US.json"; "README.md"]
        ++ match Some ["de_DE.json"] with Some fs => fs | None => [] end)
  /\ In "de_DE"
       (getSupportedLangs ["en_US.json"; "README.md"] (Some ["de_DE.json"])).
Proof.
  assert (Hin : In ("de_DE" ++ ".json")%string
                  (["en_US.json"; "README.md"]
                   ++ match Some ["de_DE.json"] with
                      | Some fs => fs
                      | None => []
                      end))
    by (cbn; right; right; left; reflexivity).
  split; [exact de_DE_strict | ].
  split; [exact Hin | ].
  exact (getSupportedLangs_complete ["en_US.json"; "README.md"]
           (Some ["de_DE.json"]) "de_DE" de_DE_strict Hin).
Defined.

Lemma constructor_establishes_witness :
  constructor demo_isDir only_en_US gone_lstat_ok demo_sort_mixed
    demo_indices_below linux [] ["/usr/local/bin"] [] posix_dirname "app-uuid"
    [debug_rule]
    (initial_store 1280 [VStr ".pdf"] "en-US" ["en_US.json"] None
       "/usr/bin:/bin" odd_dicts_disk)
  = Ret tt
      (final (constructor demo_isDir only_en_US gone_lstat_ok demo_sort_mixed
                demo_indices_below linux [] ["/usr/local/bin"] []
                posix_dirname "app-uuid" [debug_rule]
                (initial_store 1280 [VStr ".pdf"] "en-US" ["en_US.json"] None
                   "/usr/bin:/bin" odd_dicts_disk)))
  /\ "app-uuid" <> ""
  /\ keys_kept
       (VObj (config (initial_store 1280 [VStr ".pdf"] "en-US" ["en_US.json"]
                        None "/usr/bin:/bin" odd_dicts_disk)))
       (VObj (config
                (final (constructor demo_isDir only_en_US gone_lstat_ok
                          demo_sort_mixed demo_indices_below linux []
                          ["/usr/local/bin"] [] posix_dirname "app-uuid"
                          [debug_rule]
                          (initial_store 1280 [VStr ".pdf"] "en-US"
                             ["en_US.json"] None "/usr/bin:/bin"
                             odd_dicts_disk)))))
     = true
  /\ falsy
       (read
          (VObj (config
                   (final (constructor demo_isDir only_en_US gone_lstat_ok
                             demo_sort_mixed demo_indices_below linux []
                             ["/usr/local/bin"] [] posix_dirname "app-uuid"
                             [debug_rule]
                             (initial_store 1280 [VStr ".pdf"] "en-US"
                                ["en_US.json"] None "/usr/bin:/bin"
                                odd_dicts_disk)))))
          "uuid")
     = false.
Proof.
  assert (Hrun :
            constructor demo_isDir only_en_US gone_lstat_ok demo_sort_mixed
              demo_indices_below linux [] ["/usr/local/bin"] [] posix_dirname
              "app-uuid" [debug_rule]
              (initial_store 1280 [VStr ".pdf"] "en-US" ["en_US.json"] None
                 "/usr/bin:/bin" odd_dicts_disk)
            = Ret tt
                (final (constructor demo_isDir only_en_US gone_lstat_ok
                          demo_sort_mixed demo_indices_below linux []
                          ["/usr/local/bin"] [] posix_dirname "app-uuid"
                          [debug_rule]
                          (initial_store 1280 [VStr ".pdf"] "en-US"
                             ["en_US.json"] None "/usr/bin:/bin"
                             odd_dicts_disk))))
    by (vm_compute; reflexivity).
  assert (Hne : "app-uuid" <> "") by discriminate.
  destruct (constructor_establishes demo_isDir only_en_US gone_lstat_ok
              demo_sort_mixed demo_indices_below linux [] ["/usr/local/bin"]
              [] posix_dirname "app-uuid" [debug_rule] 1280 [VStr ".pdf"]
              "en-US" ["en_US.json"] None "/usr/bin:/bin" odd_dicts_disk _
              Hrun)
    as (Hkeys & _ & _ & Hid).
  split; [exact Hrun | ].
  split; [exact Hne | ].
  split; [exact Hkeys | exact (Hid Hne)].
Defined.

(** That start, on a file with an object for the selected dictionaries
    and a position of the window: the object is taken over as it is,
    the position is merged into the template. *)
Lemma constructor_example :
  get "selectedDicts"
    (final (constructor demo_isDir only_en_US gone_lstat_ok demo_sort_mixed
              demo_indices_below linux [] ["/usr/local/bin"] [] posix_dirname
              "app-uuid" [debug_rule]
              (initial_store 1280 [VStr ".pdf"] "en-US" ["en_US.json"] None
                 "/usr/bin:/bin" odd_dicts_disk)))
  = Normal (VObj [("length", VNum 0)])
  /\ get "window.x"
       (final (constructor demo_isDir only_en_US gone_lstat_ok demo_sort_mixed
                 demo_indices_below linux [] ["/usr/local/bin"] []
                 posix_dirname "app-uuid" [debug_rule]
                 (initial_store 1280 [VStr ".pdf"] "en-US" ["en_US.json"] None
                    "/usr/bin:/bin" odd_dicts_disk)))
     = Normal (VNum 40)
  /\ get "window.width"
       (final (constructor demo_isDir only_en_US gone_lstat_ok demo_sort_mixed
                 demo_indices_below linux [] ["/usr/local/bin"] []
                 posix_dirname "app-uuid" [debug_rule]
                 (initial_store 1280 [VStr ".pdf"] "en-US" ["en_US.json"] None
                    "/usr/bin:/bin" odd_dicts_disk)))
     = Normal (VNum 1280).
Proof. vm_compute. repeat split. Qed.

Lemma constructor_first_start_witness :
  configFile empty_disk = None
  /\ constructor demo_isDir only_en_US gone_lstat_ok demo_sort_mixed
       demo_indices_below linux [] ["/usr/local/bin"] [] posix_dirname
       "app-uuid" [debug_rule]
       (initial_store 1280 [VStr ".pdf"] "en-US" ["en_US.json"] None
          "/usr/bin:/bin" empty_disk)
     = Ret tt
         (final (constructor demo_isDir only_en_US gone_lstat_ok
                   demo_sort_mixed demo_indices_below linux []
                   ["/usr/local/bin"] [] posix_dirname "app-uuid" [debug_rule]
                   (initial_store 1280 [VStr ".pdf"] "en-US" ["en_US.json"]
                      None "/usr/bin:/bin" empty_disk)))
  /\ configFile
       (disk (final (constructor demo_isDir only_en_US gone_lstat_ok
                       demo_sort_mixed demo_indices_below linux []
                       ["/usr/local/bin"] [] posix_dirname "app-uuid"
                       [debug_rule]
                       (initial_store 1280 [VStr ".pdf"] "en-US"
                          ["en_US.json"] None "/usr/bin:/bin" empty_disk))))
     = Some (WellFormed
               (VObj (cfgtpl 1280 [VStr ".pdf"]
                        (getLocale "en-US"
                           (getSupportedLangs ["en_US.json"] None)))))
  /\ emitted (final (constructor demo_isDir only_en_US gone_lstat_ok
                       demo_sort_mixed demo_indices_below linux []
                       ["/usr/local/bin"] [] posix_dirname "app-uuid"
                       [debug_rule]
                       (initial_store 1280 [VStr ".pdf"] "en-US"
                          ["en_US.json"] None "/usr/bin:/bin" empty_disk)))
     = 0.
Proof.
  assert (Hnone : configFile empty_disk = None) by reflexivity.
  assert (Hrun :
            constructor demo_isDir only_en_US gone_lstat_ok demo_sort_mixed
              demo_indices_below linux [] ["/usr/local/bin"] [] posix_dirname
              "app-uuid" [debug_rule]
              (initial_store 1280 [VStr ".pdf"] "en-US" ["en_US.json"] None
                 "/usr/bin:/bin" empty_disk)
            = Ret tt
                (final (constructor demo_isDir only_en_US gone_lstat_ok
                          demo_sort_mixed demo_indices_below linux []
                          ["/usr/local/bin"] [] posix_dirname "app-uuid"
                          [debug_rule]
                          (initial_store 1280 [VStr ".pdf"] "en-US"
                             ["en_US.json"] None "/usr/bin:/bin" empty_disk))))
    by (vm_compute; reflexivity).
  destruct (constructor_first_start demo_isDir only_en_US gone_lstat_ok
              demo_sort_mixed demo_indices_below linux [] ["/usr/local/bin"]
              [] posix_dirname "app-uuid" [debug_rule] 1280 [VStr ".pdf"]
              "en-US" ["en_US.json"] None "/usr/bin:/bin" empty_disk _ Hnone
              Hrun)
    as (_ & Hfile & Hquiet & _).
  split; [exact Hnone | ].
  split; [exact Hrun | ].
  split; [exact Hfile | exact Hquiet].
Defined.

Lemma set_refused_by_first_rule_witness :
  _rules ruled_store = [] ++ debug_rule :: []
  /\ (forall r', In r' [] -> getKey r' <> "debug")
  /\ getKey debug_rule = "debug"
  /\ accepts debug_rule (VNum 1) = false
  /\ returned (set refuse_array_assign "debug" (VNum 1) ruled_store) <> Some true
  /\ final (set refuse_array_assign "debug" (VNum 1) ruled_store) = ruled_store.
Proof.
  assert (Hrules : _rules ruled_store = [] ++ debug_rule :: []) by reflexivity.
  assert (Hbefore : forall r' : rule, In r' [] -> getKey r' <> "debug")
    by (intros r' []).
  assert (Hkey : getKey debug_rule = "debug") by reflexivity.
  assert (Hrej : accepts debug_rule (VNum 1) = false) by reflexivity.
  split; [exact Hrules | ].
  split; [exact Hbefore | ].
  split; [exact Hkey | ].
  split; [exact Hrej | ].
  exact (set_refused_by_first_rule refuse_array_assign "debug" (VNum 1)
           ruled_store [] [] debug_rule Hrules Hbefore Hkey Hrej).
Defined.
